(** * Chunking and batch-upload pipeline of the Juniper agent

    A shallow embedding of [AI-Agent-P3/upload_vectors.py] and of
    [AI-Agent-P1/chunk_and_upload (1).py], with the properties of the
    chunker, the batch planner, the uploader's retry loop, the manifest
    stage and the statistics tracker.

    Conventions.
    - A Python [str] is a list of code points; [len] is a [Z].
    - A loop or a recursion whose exit depends on its arguments takes a
      [fuel]; it answers [None] (the chunkers) or [OutOfFuel] (the
      uploader) when the fuel runs out, and a computation that never
      ends does so for every fuel.
    - Network, clock, random tokens and the manifest file are fields of
      an explicit [World] that every effectful function threads
      through; the clock counts whole seconds and moves when the code
      sleeps.
    - The workers of the upload pool are taken one batch after the
      other in [upsert_chunks]; the interleaving of their calls on the
      shared statistics is the subject of the module [Tracker]. *)

From Stdlib Require Import String Ascii DecimalString.
From Stdlib Require Import ZArith List Lia Bool Arith PeanoNat.
Import ListNotations.

Local Open Scope Z_scope.

(* ===================================================================== *)
(** * Python values *)
(* ===================================================================== *)

Module Py.

(** A character is its Unicode code point. *)
Definition char := N.
Definition str := list char.

(** A literal of the source, written as a Rocq string. *)
Definition lit (s : string) : str := map N_of_ascii (list_ascii_of_string s).

(** [len(x)] *)
Definition len {A} (l : list A) : Z := Z.of_nat (length l).

(** Truthiness of a sequence: [if c] *)
Definition truthy {A} (l : list A) : bool :=
  match l with [] => false | _ :: _ => true end.

(** Index adjustment of a slice bound (step 1), as CPython does it:
    a negative bound counts from the end, then the bound is clamped
    to [0, len]. *)
Definition adjust (n i : Z) : Z :=
  if i <? 0 then Z.max 0 (i + n) else Z.min i n.

(** [l[start:stop]] *)
Definition slice {A} (l : list A) (start stop : Z) : list A :=
  let a := adjust (len l) start in
  let b := adjust (len l) stop in
  firstn (Z.to_nat (b - a)) (skipn (Z.to_nat a) l).

(** [l[:stop]] and [l[start:]] *)
Definition slice_to {A} (l : list A) (stop : Z) : list A := slice l 0 stop.
Definition slice_from {A} (l : list A) (start : Z) : list A :=
  slice l start (len l).

(** [c.isspace()] for one character: the code points CPython lists as
    white space. *)
Definition isspace (c : char) : bool :=
  let z := Z.of_N c in
  ((9 <=? z) && (z <=? 13)) || ((28 <=? z) && (z <=? 32))
  || (z =? 133) || (z =? 160) || (z =? 5760)
  || ((8192 <=? z) && (z <=? 8202))
  || (z =? 8232) || (z =? 8233) || (z =? 8239) || (z =? 8287)
  || (z =? 12288).

Fixpoint lstrip (s : str) : str :=
  match s with
  | [] => []
  | c :: s' => if isspace c then lstrip s' else s
  end.

Definition rstrip (s : str) : str := rev (lstrip (rev s)).

(** [s.strip()] *)
Definition strip (s : str) : str := rstrip (lstrip s).

(** [s.split()] with no separator: the maximal runs of characters that
    are not white space.  [cur] is the run being read, reversed. *)
Fixpoint split_from (s : str) (cur : str) : list str :=
  match s with
  | [] => if truthy cur then [rev cur] else []
  | c :: s' =>
      if isspace c
      then (if truthy cur then rev cur :: split_from s' [] else split_from s' [])
      else split_from s' (c :: cur)
  end.

Definition split (s : str) : list str := split_from s [].

(** [sep.join(ws)] *)
Fixpoint join (sep : str) (ws : list str) : str :=
  match ws with
  | [] => []
  | w :: ws' =>
      match ws' with
      | [] => w
      | _ :: _ => w ++ sep ++ join sep ws'
      end
  end.

(** A word: not empty, and no white space in it. *)
Definition solid (w : str) : Prop :=
  w <> [] /\ forallb (fun c => negb (isspace c)) w = true.

(** A string that is not empty and has no white space at either end. *)
Definition solid_ends (s : str) : Prop :=
  s <> []
  /\ (forall c, hd_error s = Some c -> isspace c = false)
  /\ (forall c, hd_error (rev s) = Some c -> isspace c = false).

(** [s.replace(chr(c), "")] for a one-character pattern. *)
Definition remove_char (c : char) (s : str) : str :=
  filter (fun x => negb (N.eqb x c)) s.

(** [str(n)] for an integer. *)
Definition str_of_Z (n : Z) : str :=
  lit (NilZero.string_of_int (Z.to_int n)).

(** [range(0, stop, step)] for a positive [step]; Python raises
    [ValueError] when [step] is 0, which is [None] here. *)
Fixpoint range_count (start step : Z) (count : nat) : list Z :=
  match count with
  | O => []
  | S k => start :: range_count (start + step) step k
  end.

Definition range_step (stop step : Z) : option (list Z) :=
  if step =? 0 then None
  else if step <? 0 then Some (range_count 0 step (Z.to_nat ((0 - stop + (- step) - 1) / (- step))))
  else Some (range_count 0 step (Z.to_nat ((stop + step - 1) / step))).

End Py.

(* ===================================================================== *)
(** * The chunkers *)
(* ===================================================================== *)

Module Chunker.
Import Py.

(** Module constants of both scripts. *)
Definition CHUNK_SIZE : Z := 1200.
Definition CHUNK_OVERLAP : Z := 150.

(** ** [chunk_text] of [upload_vectors.py]: windows of characters *)

(** The [while] loop of [chunk_text]; [start] and [chunks] are its two
    variables. *)
Fixpoint chunk_text_loop (fuel : nat) (text : str) (size overlap : Z)
    (start : Z) (chunks : list str) : option (list str) :=
  match fuel with
  | O => None
  | S fuel' =>
      if start <? len text then
        let end_ := Z.min (start + size) (len text) in
        let chunks := chunks ++ [strip (slice text start end_)] in
        if end_ =? len text then Some chunks
        else chunk_text_loop fuel' text size overlap (end_ - overlap) chunks
      else Some chunks
  end.

(** [chunk_text(text, size, overlap)]: the loop, then
    [[c for c in chunks if c]]. *)
Definition chunk_text (fuel : nat) (text : str) (size overlap : Z)
    : option (list str) :=
  option_map (filter truthy) (chunk_text_loop fuel text size overlap 0 []).

(** The cursor of that loop: the bounds [(start, end)] of the windows
    it takes from position [start] on, for a text of [n] characters. *)
Fixpoint chunk_spans_from (fuel : nat) (n : Z) (size overlap : Z)
    (start : Z) : option (list (Z * Z)) :=
  match fuel with
  | O => None
  | S fuel' =>
      if start <? n then
        let end_ := Z.min (start + size) n in
        if end_ =? n then Some [(start, end_)]
        else option_map (cons (start, end_))
               (chunk_spans_from fuel' n size overlap (end_ - overlap))
      else Some []
  end.

Definition chunk_spans (fuel : nat) (text : str) (size overlap : Z)
    : option (list (Z * Z)) :=
  chunk_spans_from fuel (len text) size overlap 0.

(** The untrimmed window of a span. *)
Definition window (text : str) (se : Z * Z) : str :=
  slice text (fst se) (snd se).

(** Removing the overlap between consecutive windows: the first window
    whole, every later one without its first [overlap] characters. *)
Definition stitch_from (k : Z) (overlap : Z) (ws : list str) : str :=
  match ws with
  | [] => []
  | w :: rest =>
      skipn (Z.to_nat k) w ++ concat (map (skipn (Z.to_nat overlap)) rest)
  end.

Definition stitch (overlap : Z) (ws : list str) : str :=
  stitch_from 0 overlap ws.

(** Strictly increasing sequence of cursors. *)
Fixpoint increasing (l : list Z) : Prop :=
  match l with
  | [] => True
  | x :: l' =>
      match l' with
      | [] => True
      | y :: _ => x < y /\ increasing l'
      end
  end.

(** ** [make_chunks] of [chunk_and_upload (1).py]: windows of words *)

Fixpoint make_chunks_loop (fuel : nat) (words : list str) (size overlap : Z)
    (start : Z) (chunks : list str) : option (list str) :=
  match fuel with
  | O => None
  | S fuel' =>
      if start <? len words then
        let end_ := Z.min (start + size) (len words) in
        let chunk := strip (join (lit " ") (slice words start end_)) in
        let chunks := if truthy chunk then chunks ++ [chunk] else chunks in
        if len words <=? end_ then Some chunks
        else make_chunks_loop fuel' words size overlap (end_ - overlap) chunks
      else Some chunks
  end.

(** [make_chunks(text)], for the chunk size and overlap given.  With
    the script's constants the cursor advances by 1050 words a turn, so
    one turn per word and one more is fuel enough. *)
Definition make_chunks_with (size overlap : Z) (text : str) : option (list str) :=
  let words := split text in
  make_chunks_loop (S (length words)) words size overlap 0 [].

Definition make_chunks (text : str) : option (list str) :=
  make_chunks_with CHUNK_SIZE CHUNK_OVERLAP text.

(** A text of 2500 words, and a text of 2500 characters. *)
Definition text_2500 : str := concat (repeat (lit "ab ") (Z.to_nat 2500)).

Definition chars_2500 : str := repeat 97%N (Z.to_nat 2500).

(** ** [sanitize_id] *)

(** The character class [[a-zA-Z0-9_-]]. *)
Definition id_char (c : char) : bool :=
  let z := Z.of_N c in
  ((97 <=? z) && (z <=? 122)) || ((65 <=? z) && (z <=? 90))
  || ((48 <=? z) && (z <=? 57)) || (z =? 95) || (z =? 45).

Definition underscore : char := 95%N.

(** [re.sub(r"[^a-zA-Z0-9_-]", "_", value)]: every character outside the
    class becomes an underscore. *)
Definition sanitize_id (value : str) : str :=
  map (fun c => if id_char c then c else underscore) value.

(** Removing the overlap between consecutive windows of any sequence:
    the first window whole, every later one without its first
    [overlap] items. *)
Definition stitch_lists {A} (overlap : Z) (ws : list (list A)) : list A :=
  match ws with
  | [] => []
  | w :: rest => w ++ concat (map (skipn (Z.to_nat overlap)) rest)
  end.

End Chunker.

(* ===================================================================== *)
(** * The uploader of [upload_vectors.py] *)
(* ===================================================================== *)

Module Uploader.
Import Py Chunker.

(** ** Configuration: the module constants *)

Record Config := {
  CHUNK_SIZE : Z;
  CHUNK_OVERLAP : Z;
  BATCH_SIZE : Z;
  MAX_RETRIES : Z
}.

Definition default_config : Config :=
  {| CHUNK_SIZE := Chunker.CHUNK_SIZE;
     CHUNK_OVERLAP := Chunker.CHUNK_OVERLAP;
     BATCH_SIZE := 100;
     MAX_RETRIES := 3 |}.

Definition EMBED_MODEL : str := lit "baai/bge-large-en-v1.5".

(** ** Records *)

Record Metadata := {
  md_source : str;
  md_file : str;
  md_page : Z;
  md_chunk : Z;
  md_timestamp : Z
}.

Record Vector := {
  v_id : str;
  v_text : str;
  v_metadata : Metadata;
  v_model : option str
}.

(** ** The remote store *)

(** The [Retry-After] header of a response, as [int] reads it: not
    there, an integer, or a text that [int] refuses (a date, a
    fraction). *)
Inductive RetryAfter :=
| NoHeader
| Seconds (s : Z)
| NotANumber (raw : str).

(** What [session.post] gives back: a response, or one of the two
    exceptions that [upload_batch] catches.  A response carries the
    status code, the body text, the [count] and [ids] entries of the
    JSON body when they are there, and the [Retry-After] header.  The
    body of a 200 answer is taken to be a JSON object. *)
Record HttpResponse := {
  status_code : Z;
  text : str;
  json_count : option Z;
  json_ids : option (list str);
  retry_after : RetryAfter
}.

Inductive PostResult :=
| Responded (r : HttpResponse)
| Timeout
| RequestException (msg : str).

(** The remote answers the [n]-th request of a run from its payload. *)
Definition Remote := nat -> list Vector -> PostResult.

(** ** The world *)

Record UploadStats := {
  total_vectors : Z;
  total_batches : Z;
  batch_size : Z;
  vectors_uploaded : Z;
  batches_completed : Z;
  batches_failed : Z;
  start_time : Z;
  batch_times : list Z
}.

Record ManifestEntry := { me_chunks : Z; me_last_updated : Z }.

Inductive Event :=
| EPost (payload : list Vector) (answer : PostResult)
| ESleep (seconds : Z)
| ERecordComplete (count : Z)
| ERecordFailed
| EManifest (file_name : str) (entry : ManifestEntry).

(** [clock] is [time.time()], advanced by [time.sleep]; [posts] counts
    the requests sent; [uuids] counts the random tokens drawn;
    [manifest] is the content of the manifest file, [None] before it
    exists; [trace] lists the effects in the order they happen. *)
Record World := {
  stats : UploadStats;
  clock : Z;
  posts : nat;
  uuids : nat;
  manifest : option (list (str * list ManifestEntry));
  trace : list Event
}.

Definition set_stats (s : UploadStats) (w : World) : World :=
  {| stats := s; clock := clock w; posts := posts w; uuids := uuids w;
     manifest := manifest w; trace := trace w |}.

Definition log (e : Event) (w : World) : World :=
  {| stats := stats w; clock := clock w; posts := posts w; uuids := uuids w;
     manifest := manifest w; trace := trace w ++ [e] |}.

(** [UploadStats.record_batch_complete] *)
Definition record_batch_complete (vectors_count duration : Z) (w : World) : World :=
  let s := stats w in
  log (ERecordComplete vectors_count)
    (set_stats
       {| total_vectors := total_vectors s; total_batches := total_batches s;
          batch_size := batch_size s;
          vectors_uploaded := vectors_uploaded s + vectors_count;
          batches_completed := batches_completed s + 1;
          batches_failed := batches_failed s;
          start_time := start_time s;
          batch_times := batch_times s ++ [duration] |} w).

(** [UploadStats.record_batch_failed] *)
Definition record_batch_failed (w : World) : World :=
  let s := stats w in
  log ERecordFailed
    (set_stats
       {| total_vectors := total_vectors s; total_batches := total_batches s;
          batch_size := batch_size s;
          vectors_uploaded := vectors_uploaded s;
          batches_completed := batches_completed s;
          batches_failed := batches_failed s + 1;
          start_time := start_time s;
          batch_times := batch_times s |} w).

(** The world after [seconds] seconds of sleep. *)
Definition advance (seconds : Z) (w : World) : World :=
  log (ESleep seconds)
    {| stats := stats w; clock := clock w + seconds; posts := posts w;
       uuids := uuids w; manifest := manifest w; trace := trace w |}.

(** [session.post(url, json=payload, timeout=TIMEOUT)] *)
Definition post (remote : Remote) (payload : list Vector) (w : World)
    : PostResult * World :=
  let answer := remote (posts w) payload in
  (answer,
   log (EPost payload answer)
     {| stats := stats w; clock := clock w; posts := S (posts w);
        uuids := uuids w; manifest := manifest w; trace := trace w |}).

(** ** Results of a run *)

(** A function that returns, raises an exception nothing catches, or
    runs out of fuel. *)
Inductive run (A : Type) :=
| Ret (a : A)
| Raise (exc : str)
| OutOfFuel.
Arguments Ret {A} a.
Arguments Raise {A} exc.
Arguments OutOfFuel {A}.

Definition bind {A B} (m : run A) (k : A -> run B) : run B :=
  match m with
  | Ret a => k a
  | Raise e => Raise e
  | OutOfFuel => OutOfFuel
  end.

Notation "' p <- m ;; k" := (bind m (fun p => k))
  (at level 61, p pattern, m at next level, right associativity).

(** The longest sleep, in seconds, that the clock of [time.sleep]
    holds: CPython keeps the length as a signed 64-bit count of
    nanoseconds. *)
Definition SLEEP_MAX : Z := (2 ^ 63 - 1) / 10 ^ 9.

(** [time.sleep(seconds)] on an integer: a negative length is a
    [ValueError], one that the clock cannot hold an [OverflowError];
    [upload_batch] catches neither. *)
Definition sleep (seconds : Z) (w : World) : run World :=
  if seconds <? 0 then Raise (lit "sleep length must be non-negative")
  else if SLEEP_MAX <? seconds
  then Raise (lit "timestamp too large to convert to C _PyTime_t")
  else Ret (advance seconds w).

(** [int(text)] on a text that is not an integer is a [ValueError]. *)
Definition int_error (raw : str) : str :=
  lit "invalid literal for int() with base 10: '" ++ raw ++ lit "'".

(** ** [upload_batch] *)

Record Outcome := {
  success : bool;
  batch_num : Z;
  uploaded : Z;
  duration : Z;
  error : option str
}.

(** [a or b] on two optional messages: [a] when it is neither [None]
    nor empty. *)
Definition or_else (a b : option str) : option str :=
  match a with
  | Some (_ :: _) => a
  | _ => b
  end.

(** [result.get('count') or len(result.get('ids', []))] *)
Definition accepted_count (r : HttpResponse) : Z :=
  let from_ids := match json_ids r with Some ids => len ids | None => 0 end in
  match json_count r with
  | Some c => if c =? 0 then from_ids else c
  | None => from_ids
  end.

(** The [for attempt in range(MAX_RETRIES)] loop and what follows it.
    [self] is [upload_batch] itself, for the two calls on the halves;
    [remaining] counts the turns left, [attempt] is the loop variable. *)
Fixpoint attempts (cfg : Config) (remote : Remote)
    (self : list Vector -> Z -> World -> run (Outcome * World))
    (vectors : list Vector) (batch : Z) (started : Z)
    (remaining : nat) (attempt : Z) (last_error : option str) (w : World)
    : run (Outcome * World) :=
  match remaining with
  | O =>
      (* All retries exhausted *)
      let w := record_batch_failed w in
      Ret ({| success := false; batch_num := batch; uploaded := 0;
              duration := clock w - started; error := last_error |}, w)
  | S remaining' =>
      let backoff (last_error : option str) (w : World) :=
        ' w <- (if attempt <? MAX_RETRIES cfg - 1
                then sleep (Z.min (2 ^ attempt) 30) w else Ret w) ;;
        attempts cfg remote self vectors batch started
                 remaining' (attempt + 1) last_error w in
      let (answer, w) := post remote vectors w in
      match answer with
      | Responded r =>
          let d := clock w - started in
          if status_code r =? 200 then
            let count := accepted_count r in
            let w := record_batch_complete count d w in
            Ret ({| success := true; batch_num := batch; uploaded := count;
                    duration := d; error := None |}, w)
          else if status_code r =? 429 then
            match retry_after r with
            | NotANumber raw => Raise (int_error raw)
            | header =>
                let wait := match header with
                            | Seconds s => s
                            | _ => 2 ^ attempt
                            end in
                ' w <- sleep wait w ;;
                attempts cfg remote self vectors batch started
                         remaining' (attempt + 1) last_error w
            end
          else if status_code r =? 413 then
            let mid := len vectors / 2 in
            ' (r1, w) <- self (slice_to vectors mid) batch w ;;
            ' (r2, w) <- self (slice_from vectors mid) batch w ;;
            Ret ({| success := success r1 && success r2;
                    batch_num := batch;
                    uploaded := uploaded r1 + uploaded r2;
                    duration := clock w - started;
                    error := or_else (error r1) (error r2) |}, w)
          else
            backoff
              (Some (lit "HTTP " ++ str_of_Z (status_code r) ++ lit ": "
                     ++ slice_to (text r) 200)) w
      | Timeout => backoff (Some (lit "Request timeout")) w
      | RequestException msg => backoff (Some msg) w
      end
  end.

Fixpoint upload_batch (fuel : nat) (cfg : Config) (remote : Remote)
    (vectors : list Vector) (batch : Z) (w : World)
    : run (Outcome * World) :=
  match fuel with
  | O => OutOfFuel
  | S fuel' =>
      attempts cfg remote (upload_batch fuel' cfg remote) vectors batch
               (clock w) (Z.to_nat (MAX_RETRIES cfg)) 0 None w
  end.

(** ** [upsert_chunks] *)

(** The batches of [upsert_chunks]:
    [[vectors[i:i + BATCH_SIZE] for i in range(0, len(vectors), BATCH_SIZE)]].
    [range] raises [ValueError] on a step of 0. *)
Definition batch_at {A} (batch_size : Z) (vectors : list A) (i : Z) : list A :=
  slice vectors i (i + batch_size).

Definition plan_batches {A} (batch_size : Z) (vectors : list A)
    : run (list (list A)) :=
  match range_step (len vectors) batch_size with
  | None => Raise (lit "range() arg 3 must not be zero")
  | Some starts => Ret (map (batch_at batch_size vectors) starts)
  end.

(** Every batch holds [batch_size] records, but the last, which holds
    between 1 and [batch_size]. *)
Fixpoint full_but_last {A} (batch_size : Z) (batches : list (list A)) : Prop :=
  match batches with
  | [] => True
  | b :: rest =>
      match rest with
      | [] => 0 < len b <= batch_size
      | _ :: _ => len b = batch_size /\ full_but_last batch_size rest
      end
  end.

(** [sum(len(b) for b in batches)] *)
Definition total_len {A} (batches : list (list A)) : Z :=
  fold_right (fun b acc => len b + acc) 0 batches.

Definition set_model (m : str) (v : Vector) : Vector :=
  {| v_id := v_id v; v_text := v_text v; v_metadata := v_metadata v;
     v_model := Some m |}.

(** The pool of [upsert_chunks] runs [upload_batch] on every batch,
    numbered from 1.  The workers are taken in the schedule where each
    batch runs to its outcome before the next one starts, in the order
    of submission. *)
Fixpoint run_batches (fuel : nat) (cfg : Config) (remote : Remote)
    (batches : list (list Vector)) (i : Z) (w : World)
    : run (list Outcome * World) :=
  match batches with
  | [] => Ret ([], w)
  | b :: rest =>
      ' (r, w) <- upload_batch fuel cfg remote b (i + 1) w ;;
      ' (rs, w) <- run_batches fuel cfg remote rest (i + 1) w ;;
      Ret (r :: rs, w)
  end.

Record UpsertResult := {
  ur_success : bool;
  ur_vectors_uploaded : Z;
  ur_total_vectors : Z;
  ur_duration : Z;
  ur_failed_batches : Z
}.

Definition upsert_chunks (fuel : nat) (cfg : Config) (remote : Remote)
    (vectors : list Vector) (w : World) : run (UpsertResult * World) :=
  let vectors := map (set_model EMBED_MODEL) vectors in
  ' batches <- plan_batches (BATCH_SIZE cfg) vectors ;;
  let w := set_stats
             {| total_vectors := len vectors; total_batches := len batches;
                batch_size := BATCH_SIZE cfg;
                vectors_uploaded := 0; batches_completed := 0;
                batches_failed := 0;
                start_time := clock w; batch_times := [] |} w in
  ' (results, w) <- run_batches fuel cfg remote batches 0 w ;;
  let total_duration := clock w - start_time (stats w) in
  let failed := len (filter (fun r => negb (success r)) results) in
  Ret ({| ur_success := failed =? 0;
          ur_vectors_uploaded := vectors_uploaded (stats w);
          ur_total_vectors := total_vectors (stats w);
          ur_duration := total_duration;
          ur_failed_batches := failed |}, w).

(** ** The manifest *)

Definition str_eqb (a b : str) : bool :=
  if list_eq_dec N.eq_dec a b then true else false.

(** A Python [dict] with string keys, in insertion order. *)
Fixpoint dict_set {V} (k : str) (v : V) (d : list (str * V)) : list (str * V) :=
  match d with
  | [] => [(k, v)]
  | (k', v') :: d' =>
      if str_eqb k k' then (k', v) :: d' else (k', v') :: dict_set k v d'
  end.

(** [d.setdefault(k, []).append(x)] *)
Fixpoint dict_append {V} (k : str) (x : V) (d : list (str * list V))
    : list (str * list V) :=
  match d with
  | [] => [(k, [x])]
  | (k', xs) :: d' =>
      if str_eqb k k' then (k', xs ++ [x]) :: d'
      else (k', xs) :: dict_append k x d'
  end.

(** [update_manifest(file_name, chunks)] *)
Definition update_manifest (file_name : str) (chunks : Z) (w : World) : World :=
  let old := match manifest w with Some m => m | None => [] end in
  let entry := {| me_chunks := chunks; me_last_updated := clock w |} in
  log (EManifest file_name entry)
    {| stats := stats w; clock := clock w; posts := posts w; uuids := uuids w;
       manifest := Some (dict_append file_name entry old);
       trace := trace w |}.

(** ** [process_and_upload_pdfs] *)

(** An uploaded file: its name, and what reading it as a PDF gives:
    an exception, or what [extract_text()] answers for each page. *)
Record UploadedFile := {
  name : str;
  content : str + list (option str)
}.

Record Page := { page : Z; page_text : str }.

(** [extract_pdf_text]: pages are numbered from 1; NUL characters are
    removed and the text trimmed; a page left empty is dropped. *)
Fixpoint extract_pages (raw : list (option str)) (i : Z) : list Page :=
  match raw with
  | [] => []
  | r :: raw' =>
      let t := strip (remove_char 0%N (match r with Some t => t | None => [] end)) in
      if truthy t then {| page := i; page_text := t |} :: extract_pages raw' (i + 1)
      else extract_pages raw' (i + 1)
  end.

Definition extract_pdf_text (f : UploadedFile) : str + list Page :=
  match content f with
  | inl e => inl e
  | inr raw => inr (extract_pages raw 1)
  end.

Inductive FileResult :=
| Skipped (filename reason : str)
| Errored (filename err : str)
| Succeeded (filename : str) (chunks : Z)
| Partial (filename : str) (chunks : Z).

(** The random tokens: [uuid4_hex n] is the [n]-th [uuid.uuid4().hex]
    of the run. *)
Definition Tokens := nat -> str.

Definition draw (tokens : Tokens) (w : World) : str * World :=
  (tokens (uuids w),
   {| stats := stats w; clock := clock w; posts := posts w;
      uuids := S (uuids w); manifest := manifest w; trace := trace w |}).

(** The records of one page: the inner [for idx, chunk in enumerate(...)]. *)
Fixpoint chunk_vectors (tokens : Tokens) (safe_file file : str) (pg : Z)
    (chunks : list str) (idx : Z) (w : World) : list Vector * World :=
  match chunks with
  | [] => ([], w)
  | c :: rest =>
      let (tok, w) := draw tokens w in
      let v := {| v_id := safe_file ++ lit "_" ++ tok ++ lit "_p"
                          ++ str_of_Z pg ++ lit "_c" ++ str_of_Z idx;
                  v_text := c;
                  v_metadata := {| md_source := lit "pdf_upload";
                                   md_file := file; md_page := pg;
                                   md_chunk := idx;
                                   md_timestamp := clock w |};
                  v_model := None |} in
      let (vs, w) := chunk_vectors tokens safe_file file pg rest (idx + 1) w in
      (v :: vs, w)
  end.

(** The records of one file: the [for p in pages] loop. *)
Fixpoint file_vectors (fuel : nat) (cfg : Config) (tokens : Tokens)
    (safe_file file : str) (pages : list Page) (w : World)
    : run (list Vector * World) :=
  match pages with
  | [] => Ret ([], w)
  | p :: rest =>
      match chunk_text fuel (page_text p) (CHUNK_SIZE cfg) (CHUNK_OVERLAP cfg) with
      | None => OutOfFuel
      | Some chunks =>
          let (vs, w) := chunk_vectors tokens safe_file file (page p) chunks 0 w in
          ' (vs', w) <- file_vectors fuel cfg tokens safe_file file rest w ;;
          Ret (vs ++ vs', w)
      end
  end.

(** Phase 1: the [for uploaded in uploaded_files] loop, on
    [all_vectors], [file_vector_counts] and [results]. *)
Fixpoint extract_all (fuel : nat) (cfg : Config) (tokens : Tokens)
    (files : list UploadedFile)
    (all_vectors : list Vector) (counts : list (str * Z))
    (results : list FileResult) (w : World)
    : run (list Vector * list (str * Z) * list FileResult * World) :=
  match files with
  | [] => Ret (all_vectors, counts, results, w)
  | f :: rest =>
      match extract_pdf_text f with
      | inl e =>
          extract_all fuel cfg tokens rest all_vectors counts
            (results ++ [Errored (name f) e]) w
      | inr [] =>
          extract_all fuel cfg tokens rest all_vectors counts
            (results ++ [Skipped (name f) (lit "no text")]) w
      | inr pages =>
          ' (vs, w) <- file_vectors fuel cfg tokens
                         (sanitize_id (name f)) (name f) pages w ;;
          if truthy vs then
            extract_all fuel cfg tokens rest (all_vectors ++ vs)
              (dict_set (name f) (len vs) counts) results w
          else
            extract_all fuel cfg tokens rest all_vectors counts
              (results ++ [Skipped (name f) (lit "no chunks")]) w
      end
  end.

(** Phase 3: the [for filename, count in file_vector_counts.items()]
    loop, which tests the result of the whole upload. *)
Fixpoint manifest_stage (upload_result : UpsertResult)
    (counts : list (str * Z)) (results : list FileResult) (w : World)
    : list FileResult * World :=
  match counts with
  | [] => (results, w)
  | (filename, count) :: rest =>
      if ur_success upload_result || (0 <? ur_vectors_uploaded upload_result)
      then manifest_stage upload_result rest
             (results ++ [Succeeded filename count])
             (update_manifest filename count w)
      else manifest_stage upload_result rest
             (results ++ [Partial filename count]) w
  end.

Definition process_and_upload_pdfs (fuel : nat) (cfg : Config)
    (remote : Remote) (tokens : Tokens) (uploaded_files : list UploadedFile)
    (w : World) : run (list FileResult * World) :=
  ' (all_vectors, counts, results, w) <-
      extract_all fuel cfg tokens uploaded_files [] [] [] w ;;
  if truthy all_vectors then
    ' (upload_result, w) <- upsert_chunks fuel cfg remote all_vectors w ;;
    Ret (manifest_stage upload_result counts results w)
  else Ret (results, w).

(** ** Reading a trace *)

(** An answer that is neither a success, nor a rate limit, nor a
    payload too large: a time-out, a connection error, or any other
    status. *)
Definition transient (a : PostResult) : bool :=
  match a with
  | Responded r =>
      negb (status_code r =? 200) && negb (status_code r =? 429)
      && negb (status_code r =? 413)
  | Timeout => true
  | RequestException _ => true
  end.

(** The message [upload_batch] keeps in [last_error] for an answer. *)
Definition error_of (a : PostResult) : option str :=
  match a with
  | Responded r =>
      Some (lit "HTTP " ++ str_of_Z (status_code r) ++ lit ": "
            ++ slice_to (text r) 200)
  | Timeout => Some (lit "Request timeout")
  | RequestException msg => Some msg
  end.

Definition posts_in (evs : list Event) : nat :=
  List.length (filter (fun e => match e with EPost _ _ => true | _ => false end) evs).

Definition failures_in (evs : list Event) : nat :=
  List.length (filter (fun e => match e with ERecordFailed => true | _ => false end) evs).

Definition completions_in (evs : list Event) : nat :=
  List.length (filter (fun e => match e with ERecordComplete _ => true | _ => false end) evs).

Fixpoint sleeps_in (evs : list Event) : list Z :=
  match evs with
  | [] => []
  | ESleep d :: rest => d :: sleeps_in rest
  | _ :: rest => sleeps_in rest
  end.

(** The delays [min(2 ** attempt, 30)] from [attempt] on, [count] of
    them. *)
Definition backoff_delays (attempt : Z) (count : nat) : list Z :=
  map (fun a => Z.min (2 ^ a) 30) (range_count attempt 1 count).

(** What a run of the loop that ends on the failure record leaves
    behind, from world [w] with [turns] turns to go. *)
Record exhausted (remote : Remote) (vectors : list Vector)
    (attempt : Z) (turns : nat) (last_error : option str)
    (w : World) (out : Outcome) (w' : World) (evs : list Event) : Prop := {
  ex_trace : trace w' = trace w ++ evs;
  ex_posts : posts w' = (posts w + turns)%nat;
  ex_posts_in : posts_in evs = turns;
  ex_sleeps : sleeps_in evs = backoff_delays attempt (turns - 1);
  ex_failures : failures_in evs = 1%nat;
  ex_completions : completions_in evs = 0%nat;
  ex_failed : batches_failed (stats w') = batches_failed (stats w) + 1;
  ex_completed : batches_completed (stats w') = batches_completed (stats w);
  ex_uploaded : vectors_uploaded (stats w') = vectors_uploaded (stats w);
  ex_success : success out = false;
  ex_count : uploaded out = 0;
  ex_error : error out = match turns with
                         | O => last_error
                         | S k => error_of (remote (posts w + k)%nat vectors)
                         end
}.

(** The manifest got an entry for the file. *)
Definition manifest_appended (file : str) (evs : list Event) : bool :=
  existsb (fun e => match e with
                    | EManifest f _ => str_eqb f file
                    | _ => false
                    end) evs.

(** Some request that carried a record of the file was answered 200
    with a positive count.  When this is false, the remote store has
    accepted no record of the file. *)
Definition file_accepted (file : str) (evs : list Event) : bool :=
  existsb (fun e => match e with
                    | EPost payload (Responded r) =>
                        (status_code r =? 200) && (0 <? accepted_count r)
                        && existsb (fun v => str_eqb (md_file (v_metadata v)) file)
                                   payload
                    | _ => false
                    end) evs.

(** The event of [update_manifest(filename, count)] at time [now]. *)
Definition manifest_event (now : Z) (fc : str * Z) : Event :=
  EManifest (fst fc) {| me_chunks := snd fc; me_last_updated := now |}.

(** ** More readers *)

(** [d.get(k)] *)
Fixpoint dict_get {V} (k : str) (d : list (str * V)) : option V :=
  match d with
  | [] => None
  | (k', v) :: d' => if str_eqb k k' then Some v else dict_get k d'
  end.

(** The records of the payloads that were answered 200, in the order
    of the posts. *)
Fixpoint accepted_payloads (evs : list Event) : list Vector :=
  match evs with
  | [] => []
  | EPost payload (Responded r) :: rest =>
      if status_code r =? 200 then payload ++ accepted_payloads rest
      else accepted_payloads rest
  | _ :: rest => accepted_payloads rest
  end.

(** An answer with status 429. *)
Definition rate_limited (a : PostResult) : bool :=
  match a with
  | Responded r => negb (status_code r =? 200) && (status_code r =? 429)
  | _ => false
  end.

(** The wait [upload_batch] makes on a 429 at turn [attempt]. *)
Definition wait_of (attempt : Z) (a : PostResult) : Z :=
  match a with
  | Responded r =>
      match retry_after r with Seconds s => s | _ => 2 ^ attempt end
  | _ => 2 ^ attempt
  end.

(** A length that [time.sleep] takes. *)
Definition sleepable (seconds : Z) : bool :=
  (0 <=? seconds) && (seconds <=? SLEEP_MAX).

(** An answer that [upload_batch] can wait for at turn [attempt]: its
    [Retry-After], when it is there, is an integer, and the wait is a
    length that [time.sleep] takes. *)
Definition polite (attempt : Z) (a : PostResult) : bool :=
  match a with
  | Responded r =>
      match retry_after r with
      | NotANumber _ => false
      | _ => sleepable (wait_of attempt a)
      end
  | _ => true
  end.

(** The waits of [turns] turns in a row that are all answered 429,
    the first of them being turn [attempt] and post number [p]. *)
Fixpoint rate_waits (remote : Remote) (vectors : list Vector)
    (p : nat) (attempt : Z) (turns : nat) : list Z :=
  match turns with
  | O => []
  | S k =>
      wait_of attempt (remote p vectors)
      :: rate_waits remote vectors (S p) (attempt + 1) k
  end.

(** What any call of [upload_batch] that returns leaves in the
    statistics, against its outcome. *)
Record accounted (w : World) (out : Outcome) (w' : World) : Prop := {
  acc_uploaded :
    vectors_uploaded (stats w') = vectors_uploaded (stats w) + uploaded out;
  acc_failed_mono : batches_failed (stats w) <= batches_failed (stats w');
  acc_completed_mono : batches_completed (stats w) <= batches_completed (stats w');
  acc_success :
    success out = true <-> batches_failed (stats w') = batches_failed (stats w);
  acc_recorded :
    batches_completed (stats w) + batches_failed (stats w)
    < batches_completed (stats w') + batches_failed (stats w');
  acc_error : success out = true -> error out = None;
  acc_manifest : manifest w' = manifest w;
  acc_tokens : uuids w' = uuids w;
  acc_total_vectors : total_vectors (stats w') = total_vectors (stats w);
  acc_total_batches : total_batches (stats w') = total_batches (stats w)
}.

(** [sum(1 for r in results if not r['success'])] *)
Definition failing (results : list Outcome) : Z :=
  len (filter (fun r => negb (success r)) results).

(** A file that gives no record: reading it raises, or no page of it
    has text. *)
Definition unreadable (f : UploadedFile) : bool :=
  match extract_pdf_text f with
  | inl _ => true
  | inr [] => true
  | inr (_ :: _) => false
  end.

(** The entry of the results for such a file. *)
Definition verdict (f : UploadedFile) : FileResult :=
  match extract_pdf_text f with
  | inl e => Errored (name f) e
  | inr _ => Skipped (name f) (lit "no text")
  end.

(** What makes a record of the pipeline well formed, for the file it
    comes from. *)
Definition well_formed_record (file : str) (v : Vector) : Prop :=
  forallb id_char (v_id v) = true
  /\ truthy (v_text v) = true
  /\ md_file (v_metadata v) = file
  /\ md_source (v_metadata v) = lit "pdf_upload"
  /\ 0 <= md_chunk (v_metadata v).

(** The entries the manifest holds for a file. *)
Definition manifest_entries (file : str)
    (m : option (list (str * list ManifestEntry))) : list ManifestEntry :=
  match m with
  | Some d => match dict_get file d with Some xs => xs | None => [] end
  | None => []
  end.

End Uploader.

(* ===================================================================== *)
(** * [UploadStats] under concurrent workers *)
(* ===================================================================== *)

Module Tracker.
Import Py Uploader.

(** A call a worker makes on the shared [UploadStats]. *)
Inductive Op :=
| Complete (vectors_count duration : Z)   (* record_batch_complete *)
| Failed.                                 (* record_batch_failed *)

(** Where a worker stands inside a call.  [x += k] is a read of [x]
    into a register and a write of the register plus [k]; the body of
    [with self._lock] runs between the acquire and the release. *)
Inductive Pc :=
| Outside                       (* waiting to acquire the lock *)
| ReadUploaded                  (* about to read vectors_uploaded *)
| WriteUploaded (reg : Z)
| ReadCompleted                 (* about to read batches_completed *)
| WriteCompleted (reg : Z)
| AppendTime                    (* about to append to batch_times *)
| ReadFailed                    (* about to read batches_failed *)
| WriteFailed (reg : Z)
| Release.                      (* about to leave the [with] block *)

(** A worker: where it stands, and the calls it still has to make, the
    one in progress first. *)
Record Worker := { pc : Pc; todo : list Op }.

Record State := {
  shared : UploadStats;
  locked : bool;
  workers : list Worker
}.

Definition with_uploaded (v : Z) (s : UploadStats) : UploadStats :=
  {| total_vectors := total_vectors s; total_batches := total_batches s;
     batch_size := batch_size s; vectors_uploaded := v;
     batches_completed := batches_completed s;
     batches_failed := batches_failed s; start_time := start_time s;
     batch_times := batch_times s |}.

Definition with_completed (v : Z) (s : UploadStats) : UploadStats :=
  {| total_vectors := total_vectors s; total_batches := total_batches s;
     batch_size := batch_size s; vectors_uploaded := vectors_uploaded s;
     batches_completed := v;
     batches_failed := batches_failed s; start_time := start_time s;
     batch_times := batch_times s |}.

Definition with_failed (v : Z) (s : UploadStats) : UploadStats :=
  {| total_vectors := total_vectors s; total_batches := total_batches s;
     batch_size := batch_size s; vectors_uploaded := vectors_uploaded s;
     batches_completed := batches_completed s;
     batches_failed := v; start_time := start_time s;
     batch_times := batch_times s |}.

Definition with_time (d : Z) (s : UploadStats) : UploadStats :=
  {| total_vectors := total_vectors s; total_batches := total_batches s;
     batch_size := batch_size s; vectors_uploaded := vectors_uploaded s;
     batches_completed := batches_completed s;
     batches_failed := batches_failed s; start_time := start_time s;
     batch_times := batch_times s ++ [d] |}.

(** One step of one worker on the shared object; [None] when the
    worker cannot move: it has nothing left to do, or the lock it waits
    for is held. *)
Definition step_worker (s : UploadStats) (lk : bool) (w : Worker)
    : option (UploadStats * bool * Worker) :=
  match todo w with
  | [] => None
  | op :: rest =>
      let at_ (p : Pc) := {| pc := p; todo := todo w |} in
      match pc w, op with
      | Outside, Complete _ _ =>
          if lk then None else Some (s, true, at_ ReadUploaded)
      | Outside, Failed =>
          if lk then None else Some (s, true, at_ ReadFailed)
      | ReadUploaded, _ => Some (s, lk, at_ (WriteUploaded (vectors_uploaded s)))
      | WriteUploaded r, Complete c _ =>
          Some (with_uploaded (r + c) s, lk, at_ ReadCompleted)
      | ReadCompleted, _ => Some (s, lk, at_ (WriteCompleted (batches_completed s)))
      | WriteCompleted r, _ => Some (with_completed (r + 1) s, lk, at_ AppendTime)
      | AppendTime, Complete _ d => Some (with_time d s, lk, at_ Release)
      | ReadFailed, _ => Some (s, lk, at_ (WriteFailed (batches_failed s)))
      | WriteFailed r, _ => Some (with_failed (r + 1) s, lk, at_ Release)
      | Release, _ => Some (s, false, {| pc := Outside; todo := rest |})
      | _, _ => None
      end
  end.

Fixpoint update {A} (i : nat) (x : A) (l : list A) : list A :=
  match l, i with
  | [], _ => []
  | _ :: l', O => x :: l'
  | y :: l', S i' => y :: update i' x l'
  end.

(** The scheduler lets worker [i] move; a worker that cannot move
    leaves the state as it is. *)
Definition step (i : nat) (st : State) : State :=
  match nth_error (workers st) i with
  | None => st
  | Some w =>
      match step_worker (shared st) (locked st) w with
      | None => st
      | Some (s, lk, w') =>
          {| shared := s; locked := lk; workers := update i w' (workers st) |}
      end
  end.

(** An interleaving is the list of the workers the scheduler picks. *)
Definition exec (schedule : list nat) (st : State) : State :=
  fold_left (fun st i => step i st) schedule st.

(** The workers start outside the lock, each with its list of calls. *)
Definition start (s : UploadStats) (programs : list (list Op)) : State :=
  {| shared := s; locked := false;
     workers := map (fun ops => {| pc := Outside; todo := ops |}) programs |}.

Definition finished (st : State) : Prop :=
  Forall (fun w => todo w = []) (workers st).

(** What the calls of a program add to each counter. *)
Definition adds_uploaded (op : Op) : Z :=
  match op with Complete c _ => c | Failed => 0 end.
Definition adds_completed (op : Op) : Z :=
  match op with Complete _ _ => 1 | Failed => 0 end.
Definition adds_failed (op : Op) : Z :=
  match op with Complete _ _ => 0 | Failed => 1 end.

Definition total (f : Op -> Z) (ops : list Op) : Z :=
  fold_right (fun op acc => f op + acc) 0 ops.

Definition total_all (f : Op -> Z) (programs : list (list Op)) : Z :=
  fold_right (fun ops acc => total f ops + acc) 0 programs.

(** What a worker still owes to each counter: the calls it has not
    started, and the one in progress as long as its write is to come. *)
Definition owes_uploaded (w : Worker) : Z :=
  match pc w, todo w with
  | (ReadCompleted | WriteCompleted _ | AppendTime | Release), _ :: rest =>
      total adds_uploaded rest
  | _, ops => total adds_uploaded ops
  end.

Definition owes_completed (w : Worker) : Z :=
  match pc w, todo w with
  | (AppendTime | Release), _ :: rest => total adds_completed rest
  | _, ops => total adds_completed ops
  end.

Definition owes_failed (w : Worker) : Z :=
  match pc w, todo w with
  | Release, _ :: rest => total adds_failed rest
  | _, ops => total adds_failed ops
  end.

Definition sum_over (f : Worker -> Z) (ws : list Worker) : Z :=
  fold_right (fun w acc => f w + acc) 0 ws.

(** A worker inside the [with] block. *)
Definition inside (w : Worker) : bool :=
  match pc w with Outside => false | _ => true end.

Definition count_inside (ws : list Worker) : nat :=
  List.length (filter inside ws).

(** The program counter fits the call in progress, and a register
    holds what the shared field holds now. *)
Definition coherent (s : UploadStats) (w : Worker) : Prop :=
  match pc w, todo w with
  | Outside, _ => True
  | ReadUploaded, Complete _ _ :: _ => True
  | WriteUploaded r, Complete _ _ :: _ => r = vectors_uploaded s
  | ReadCompleted, Complete _ _ :: _ => True
  | WriteCompleted r, Complete _ _ :: _ => r = batches_completed s
  | AppendTime, Complete _ _ :: _ => True
  | ReadFailed, Failed :: _ => True
  | WriteFailed r, Failed :: _ => r = batches_failed s
  | Release, _ :: _ => True
  | _, _ => False
  end.

(** The invariant of every reachable state, for the totals [u], [c]
    and [f] that the counters must reach. *)
Record invariant (u c f : Z) (st : State) : Prop := {
  inv_uploaded :
    vectors_uploaded (shared st) + sum_over owes_uploaded (workers st) = u;
  inv_completed :
    batches_completed (shared st) + sum_over owes_completed (workers st) = c;
  inv_failed :
    batches_failed (shared st) + sum_over owes_failed (workers st) = f;
  inv_lock :
    count_inside (workers st) = if locked st then 1%nat else 0%nat;
  inv_coherent : Forall (coherent (shared st)) (workers st)
}.

(** ** The schedule that lets the workers run one after the other *)

(** The steps a call takes: acquire, the reads and writes, release. *)
Definition cost (op : Op) : nat :=
  match op with Complete _ _ => 7%nat | Failed => 4%nat end.

Definition solo (i : nat) (ops : list Op) : list nat :=
  concat (map (fun op => repeat i (cost op)) ops).

Fixpoint serial_from (i : nat) (programs : list (list Op)) : list nat :=
  match programs with
  | [] => []
  | ops :: rest => solo i ops ++ serial_from (S i) rest
  end.

Definition serial (programs : list (list Op)) : list nat :=
  serial_from 0 programs.

(** What a call does to the statistics when nothing interferes. *)
Definition apply_op (op : Op) (s : UploadStats) : UploadStats :=
  match op with
  | Complete c d =>
      with_time d
        (with_completed (batches_completed (with_uploaded (vectors_uploaded s + c) s) + 1)
           (with_uploaded (vectors_uploaded s + c) s))
  | Failed => with_failed (batches_failed s + 1) s
  end.

Definition idle (ops : list Op) : Worker := {| pc := Outside; todo := ops |}.

(** The durations a worker still owes to [batch_times]. *)
Definition owes_times (w : Worker) : Z :=
  match pc w, todo w with
  | Release, _ :: rest => total adds_completed rest
  | _, ops => total adds_completed ops
  end.

(** The history of durations only grows, by what the workers no
    longer owe, and the fields set at the start of the upload stay. *)
Record history_invariant (s : UploadStats) (n : Z) (st : State) : Prop := {
  hist_grows :
    exists added,
      batch_times (shared st) = batch_times s ++ added
      /\ len added + sum_over owes_times (workers st) = n;
  hist_total_vectors : total_vectors (shared st) = total_vectors s;
  hist_total_batches : total_batches (shared st) = total_batches s;
  hist_batch_size : batch_size (shared st) = batch_size s;
  hist_start_time : start_time (shared st) = start_time s
}.

End Tracker.

(* ===================================================================== *)
(** * The sequential loader of [chunk_and_upload (1).py] *)
(* ===================================================================== *)

Module Ingest.
Import Py Chunker Uploader.

(** One call of [vectors.upsert_text]. *)
Record Upsert := {
  up_text : str;
  up_model : str;
  up_id : str;
  up_file : str;
  up_page : Z;
  up_chunk : Z;
  up_timestamp : Z
}.

(** The client library: its [n]-th call returns ([None]) or raises. *)
Definition Sdk := nat -> Upsert -> option str.

Record ManifestRow := { row_chunks : Z; row_timestamp : Z }.

(** [now] is the clock; [drawn] counts the random tokens, one per
    call of the client; [upserts] lists the calls that returned;
    [rows] is the content of the manifest file, [None] before it
    exists. *)
Record Disk := {
  now : Z;
  drawn : nat;
  upserts : list Upsert;
  rows : option (list (str * list ManifestRow))
}.

(** [process_pdf] returns, or an exception leaves it, or the fuel of
    the chunker runs out. *)
Inductive ended :=
| Done (d : Disk)
| Aborted (exc : str) (d : Disk)
| Stuck.

Record Meta := { m_file : str; m_page : Z; m_chunk : Z }.

(** [for ci, c in enumerate(chunks)]: what it appends to [all_chunks]
    and to [meta_info]. *)
Fixpoint number_chunks (file : str) (pg : Z) (chunks : list str) (ci : Z)
    : list str * list Meta :=
  match chunks with
  | [] => ([], [])
  | c :: rest =>
      let (cs, ms) := number_chunks file pg rest (ci + 1) in
      (c :: cs, {| m_file := file; m_page := pg; m_chunk := ci |} :: ms)
  end.

(** [for page in pages]: [all_chunks] and [meta_info] at the end. *)
Fixpoint chunk_pages (file : str) (pages : list Page)
    : option (list str * list Meta) :=
  match pages with
  | [] => Some ([], [])
  | p :: rest =>
      match make_chunks (page_text p) with
      | None => None
      | Some chunks =>
          let (cs, ms) := number_chunks file (page p) chunks 0 in
          match chunk_pages file rest with
          | None => None
          | Some (cs', ms') => Some (cs ++ cs', ms ++ ms')
          end
      end
  end.

(** [sanitize_id(f"{file}_p{page}_c{chunk}_{uuid4().hex}")] *)
Definition vector_id (meta : Meta) (token : str) : str :=
  sanitize_id (m_file meta ++ lit "_p" ++ str_of_Z (m_page meta)
               ++ lit "_c" ++ str_of_Z (m_chunk meta) ++ lit "_" ++ token).

(** [for chunk_text, meta in zip(all_chunks, meta_info)] *)
Fixpoint upload_all (sdk : Sdk) (tokens : Tokens)
    (items : list (str * Meta)) (d : Disk) : ended :=
  match items with
  | [] => Done d
  | (chunk, meta) :: rest =>
      let call := {| up_text := chunk; up_model := EMBED_MODEL;
                     up_id := vector_id meta (tokens (drawn d));
                     up_file := m_file meta; up_page := m_page meta;
                     up_chunk := m_chunk meta; up_timestamp := now d |} in
      let d1 := {| now := now d; drawn := S (drawn d);
                   upserts := upserts d; rows := rows d |} in
      match sdk (drawn d) call with
      | Some exc => Aborted exc d1
      | None =>
          upload_all sdk tokens rest
            {| now := now d; drawn := S (drawn d);
               upserts := upserts d ++ [call]; rows := rows d |}
      end
  end.

(** [update_manifest(file_name, chunk_count)] *)
Definition update_manifest (file_name : str) (chunk_count : Z) (d : Disk) : Disk :=
  let old := match rows d with Some m => m | None => [] end in
  {| now := now d; drawn := drawn d; upserts := upserts d;
     rows := Some (dict_append file_name
                     {| row_chunks := chunk_count; row_timestamp := now d |}
                     old) |}.

(** [process_pdf(path)], for the base name of the path and what
    reading the file as a PDF gives. *)
Definition process_pdf (sdk : Sdk) (tokens : Tokens) (raw_name : str)
    (doc : str + list (option str)) (d : Disk) : ended :=
  match doc with
  | inl exc => Aborted exc d
  | inr raw =>
      match extract_pages raw 1 with
      | [] => Done d
      | pages =>
          match chunk_pages (sanitize_id raw_name) pages with
          | None => Stuck
          | Some (all_chunks, meta_info) =>
              match upload_all sdk tokens (combine all_chunks meta_info) d with
              | Done d' => Done (update_manifest raw_name (len all_chunks) d')
              | other => other
              end
          end
      end
  end.

(** The rows the manifest holds for a file. *)
Definition rows_of (file : str) (d : Disk) : list ManifestRow :=
  match rows d with
  | Some m => match dict_get file m with Some xs => xs | None => [] end
  | None => []
  end.

(** The chunks of the pages, in order. *)
Fixpoint all_chunks_of (pages : list Page) : list str :=
  match pages with
  | [] => []
  | p :: rest =>
      match make_chunks (page_text p) with
      | Some chunks => chunks ++ all_chunks_of rest
      | None => all_chunks_of rest
      end
  end.

Definition disk0 : Disk :=
  {| now := 0; drawn := 0; upserts := []; rows := None |}.

(** A client that never raises, and one whose calls raise from the
    [n]-th on. *)
Definition reliable : Sdk := fun _ _ => None.
Definition failing_from (n : nat) : Sdk :=
  fun i _ => if (i <? n)%nat then None else Some (lit "Connection refused").

End Ingest.

(* ===================================================================== *)
(** * Sample runs *)
(* ===================================================================== *)

Module Samples.
Import Py Chunker Uploader.

Definition stats0 : UploadStats :=
  {| total_vectors := 0; total_batches := 0; batch_size := 100;
     vectors_uploaded := 0; batches_completed := 0; batches_failed := 0;
     start_time := 0; batch_times := [] |}.

Definition world0 : World :=
  {| stats := stats0; clock := 0; posts := 0; uuids := 0;
     manifest := None; trace := [] |}.

Definition tokens0 : Tokens := fun n => str_of_Z (Z.of_nat n).

Definition ok (count : Z) : PostResult :=
  Responded {| status_code := 200; text := lit "{}";
               json_count := Some count; json_ids := None;
               retry_after := NoHeader |}.

Definition too_large : PostResult :=
  Responded {| status_code := 413; text := lit "Payload Too Large";
               json_count := None; json_ids := None; retry_after := NoHeader |}.

(** A store that takes every payload whole. *)
Definition accepting : Remote := fun _ payload => ok (len payload).

(** A store that never answers in time. *)
Definition silent : Remote := fun _ _ => Timeout.

(** A store whose payload limit is below the size of one record: it
    rejects every payload that holds a record. *)
Definition rejecting : Remote :=
  fun _ payload => if truthy payload then too_large else ok 0.

(** A store that takes the records of [a.pdf] and does not answer in
    time for anything else. *)
Definition partial_store : Remote :=
  fun _ payload =>
    if forallb (fun v => str_eqb (md_file (v_metadata v)) (lit "a.pdf")) payload
    then ok (len payload) else Timeout.

(** A configuration whose overlap is not smaller than the chunk size. *)
Definition bad_config : Config :=
  {| CHUNK_SIZE := 1; CHUNK_OVERLAP := 1; BATCH_SIZE := 100; MAX_RETRIES := 3 |}.

Definition one_page (file text : string) : UploadedFile :=
  {| name := lit file; content := inr [Some (lit text)] |}.

(** [a.pdf] has 100 short pages, [b.pdf] has one. *)
Definition file_a : UploadedFile :=
  {| name := lit "a.pdf"; content := inr (repeat (Some (lit "alpha")) 100) |}.

Definition file_b : UploadedFile := one_page "b.pdf" "beta".

Definition sample_vector : Vector :=
  {| v_id := lit "a_pdf_0_p1_c0"; v_text := lit "alpha";
     v_metadata := {| md_source := lit "pdf_upload"; md_file := lit "a.pdf";
                      md_page := 1; md_chunk := 0; md_timestamp := 0 |};
     v_model := None |}.

(** A store with a payload limit of [k] records. *)
Definition limited (k : Z) : Remote :=
  fun _ payload => if len payload <=? k then ok (len payload) else too_large.

Definition slow_down (seconds : RetryAfter) : PostResult :=
  Responded {| status_code := 429; text := lit "Too Many Requests";
               json_count := None; json_ids := None;
               retry_after := seconds |}.

(** A store that always asks to wait 5 seconds. *)
Definition busy : Remote := fun _ _ => slow_down (Seconds 5).


(** A store that asks to wait a negative time, and one that gives a
    date to wait for. *)
Definition rude : Remote := fun _ _ => slow_down (Seconds (-1)).
Definition dated : Remote :=
  fun _ _ => slow_down (NotANumber (lit "Wed, 21 Oct 2015 07:28:00 GMT")).

Definition sample_vectors (n : nat) : list Vector := repeat sample_vector n.

(** A file that cannot be read, and one whose pages are blank. *)
Definition broken_file : UploadedFile :=
  {| name := lit "broken.pdf"; content := inl (lit "EOF marker not found") |}.

Definition blank_file : UploadedFile :=
  {| name := lit "blank.pdf"; content := inr [Some (lit "  "); None] |}.

End Samples.

(* ===================================================================== *)
(** * Facts on the Python values *)
(* ===================================================================== *)

Module PyFacts.
Import Py.

Lemma len_nonneg {A} (l : list A) : 0 <= len l.
Proof. unfold len. lia. Qed.

Lemma len_nil {A} : len (@nil A) = 0.
Proof. reflexivity. Qed.

Lemma len_app {A} (l1 l2 : list A) : len (l1 ++ l2) = len l1 + len l2.
Proof. unfold len. rewrite length_app. lia. Qed.

Lemma adjust_inside n i : 0 <= i <= n -> adjust n i = i.
Proof.
  intros H. unfold adjust.
  destruct (Z.ltb_spec i 0); lia.
Qed.

Lemma adjust_beyond n i : 0 <= n <= i -> adjust n i = n.
Proof.
  intros H. unfold adjust.
  destruct (Z.ltb_spec i 0); lia.
Qed.

(** A slice whose bounds lie in the list is the plain sub-list. *)
Lemma slice_inside {A} (l : list A) a b :
  0 <= a <= len l -> 0 <= b <= len l ->
  slice l a b = firstn (Z.to_nat (b - a)) (skipn (Z.to_nat a) l).
Proof.
  intros Ha Hb. unfold slice.
  rewrite !adjust_inside by assumption. reflexivity.
Qed.

Lemma slice_whole {A} (l : list A) : slice l 0 (len l) = l.
Proof.
  rewrite slice_inside by (pose proof (len_nonneg l); lia).
  simpl. rewrite Z.sub_0_r. unfold len. rewrite Nat2Z.id.
  apply firstn_all.
Qed.

Lemma lstrip_head c s : isspace c = false -> lstrip (c :: s) = c :: s.
Proof. intros H. simpl. now rewrite H. Qed.

(** A slice that starts in the list: the upper bound may lie beyond
    the end. *)
Lemma slice_from_inside {A} (l : list A) a b :
  0 <= a <= len l -> a <= b ->
  slice l a b = firstn (Z.to_nat (b - a)) (skipn (Z.to_nat a) l).
Proof.
  intros Ha Hb. unfold slice. rewrite (adjust_inside _ a Ha).
  destruct (Z.le_gt_cases b (len l)).
  - rewrite adjust_inside by lia. reflexivity.
  - rewrite adjust_beyond by lia.
    rewrite !firstn_all2; try reflexivity;
      rewrite length_skipn; unfold len in *; lia.
Qed.

(** ** Words *)

Lemma strip_solid_ends s : solid_ends s -> strip s = s.
Proof.
  intros [Hne [Hhd Hlast]]. unfold strip, rstrip.
  assert (E1 : lstrip s = s).
  { destruct s as [|c s']; [reflexivity|].
    apply lstrip_head, Hhd. reflexivity. }
  rewrite E1.
  assert (E2 : lstrip (rev s) = rev s).
  { destruct (rev s) as [|c r] eqn:E; [reflexivity|].
    apply lstrip_head, Hlast. reflexivity. }
  rewrite E2. apply rev_involutive.
Qed.

Lemma solid_ends_app a m b : solid_ends a -> solid_ends b -> solid_ends (a ++ m ++ b).
Proof.
  intros [Ha [Hah _]] [Hb [_ Hbl]]. split; [|split].
  - destruct a; [congruence | discriminate].
  - intros c. destruct a as [|x a']; [congruence|]. apply Hah.
  - intros c. rewrite !rev_app_distr, <- app_assoc.
    destruct (rev b) as [|x r] eqn:E.
    + apply (f_equal (@rev _)) in E. rewrite rev_involutive in E.
      simpl in E. congruence.
    + apply Hbl.
Qed.

Lemma solid_solid_ends w : solid w -> solid_ends w.
Proof.
  intros [Hne Hall]. rewrite forallb_forall in Hall.
  split; [exact Hne|]. split; intros c Hc.
  - destruct w as [|x w']; [discriminate|]. inversion Hc; subst.
    specialize (Hall c (or_introl eq_refl)).
    now destruct (isspace c).
  - destruct (rev w) as [|x r] eqn:E; [discriminate|]. inversion Hc; subst.
    assert (Hin : In c w) by (apply in_rev; rewrite E; now left).
    specialize (Hall c Hin). now destruct (isspace c).
Qed.

(** Words joined by a separator have no white space at either end. *)
Lemma join_solid_ends sep ws :
  ws <> [] -> Forall solid ws -> solid_ends (join sep ws).
Proof.
  induction ws as [|w rest IH]; intros Hne Hall; [congruence|].
  inversion Hall as [|? ? Hw Hrest]; subst.
  destruct rest as [|w' rest'].
  - simpl. now apply solid_solid_ends.
  - change (join sep (w :: w' :: rest')) with (w ++ sep ++ join sep (w' :: rest')).
    apply solid_ends_app; [now apply solid_solid_ends|].
    apply IH; [discriminate | exact Hrest].
Qed.

Lemma rev_solid x cur :
  forallb (fun c => negb (isspace c)) (x :: cur) = true ->
  solid (rev (x :: cur)).
Proof.
  intros Hcur. split.
  - intros E. apply (f_equal (@List.length _)) in E.
    rewrite length_rev in E. discriminate.
  - rewrite forallb_forall in *. intros y Hy. apply Hcur.
    now apply in_rev.
Qed.

Lemma split_from_solid s :
  forall cur, forallb (fun c => negb (isspace c)) cur = true ->
  Forall solid (split_from s cur).
Proof.
  induction s as [|c s IH]; intros cur Hcur.
  - simpl. destruct cur as [|x cur']; [constructor|].
    constructor; [|constructor]. now apply rev_solid.
  - cbn [split_from]. destruct (isspace c) eqn:Ec.
    + destruct cur as [|x cur']; cbn [truthy].
      * now apply IH.
      * constructor; [now apply rev_solid | now apply IH].
    + apply IH. simpl. now rewrite Ec.
Qed.

(** [split] gives words. *)
Lemma split_solid s : Forall solid (split s).
Proof. now apply split_from_solid. Qed.

Lemma split_from_word w :
  forallb (fun c => negb (isspace c)) w = true ->
  forall t cur, split_from (w ++ t) cur = split_from t (rev w ++ cur).
Proof.
  induction w as [|c w IH]; intros Hw t cur; [reflexivity|].
  simpl in Hw. apply andb_prop in Hw. destruct Hw as [Hc Hw].
  simpl. destruct (isspace c); [discriminate|].
  rewrite IH by assumption. now rewrite <- app_assoc.
Qed.

(** Splitting words joined by one space gives the words back. *)
Lemma split_join ws : Forall solid ws -> split (join (lit " ") ws) = ws.
Proof.
  unfold split. induction 1 as [|w rest [Hne Hw] Hrest IH]; [reflexivity|].
  assert (Hrev : rev w <> []).
  { intros E. apply (f_equal (@rev _)) in E. rewrite rev_involutive in E.
    simpl in E. congruence. }
  destruct rest as [|w' rest'].
  - simpl join. pose proof (split_from_word w Hw [] []) as Hs.
    rewrite !app_nil_r in Hs. rewrite Hs. cbn [split_from].
    destruct (rev w) eqn:E; [congruence|].
    cbn [truthy]. now rewrite <- E, rev_involutive.
  - change (join (lit " ") (w :: w' :: rest'))
      with (w ++ lit " " ++ join (lit " ") (w' :: rest')).
    pose proof (split_from_word w Hw
                  (lit " " ++ join (lit " ") (w' :: rest')) []) as Hs.
    rewrite app_nil_r in Hs. rewrite Hs.
    change (lit " " ++ join (lit " ") (w' :: rest'))
      with (32%N :: join (lit " ") (w' :: rest')).
    cbn [split_from].
    change (isspace 32%N) with true. cbv iota.
    destruct (rev w) eqn:E; [congruence|].
    cbn [truthy]. rewrite <- E, rev_involutive. f_equal. exact IH.
Qed.

Lemma In_firstn {A} (x : A) n l : In x (firstn n l) -> In x l.
Proof.
  intros H. rewrite <- (firstn_skipn n l). apply in_or_app. now left.
Qed.

Lemma In_skipn {A} (x : A) n l : In x (skipn n l) -> In x l.
Proof.
  intros H. rewrite <- (firstn_skipn n l). apply in_or_app. now right.
Qed.

Lemma slice_Forall {A} (P : A -> Prop) (l : list A) a b :
  Forall P l -> Forall P (slice l a b).
Proof.
  intros H. unfold slice. rewrite Forall_forall in *.
  intros x Hx. apply H.
  apply In_firstn in Hx. now apply In_skipn in Hx.
Qed.

Lemma slice_len {A} (l : list A) a b :
  0 <= a <= b -> b <= len l -> len (slice l a b) = b - a.
Proof.
  intros Ha Hb. rewrite slice_inside by lia.
  unfold len in *. rewrite length_firstn, length_skipn. lia.
Qed.

(** ** Trimming *)

Lemma lstrip_length s : (length (lstrip s) <= length s)%nat.
Proof.
  induction s as [|c s IH]; simpl; [lia|].
  destruct (isspace c); simpl; lia.
Qed.

Lemma lstrip_In x s : In x (lstrip s) -> In x s.
Proof.
  induction s as [|c s IH]; simpl; [tauto|].
  destruct (isspace c); [intros H; right; now apply IH | tauto].
Qed.

(** What is left after [lstrip] starts with a character that is not
    white space. *)
Lemma lstrip_starts_solid s c t : lstrip s = c :: t -> isspace c = false.
Proof.
  induction s as [|x s IH]; simpl; [discriminate|].
  destruct (isspace x) eqn:E; [exact IH|].
  intros H. inversion H; subst. exact E.
Qed.

Lemma lstrip_keeps_last s c :
  isspace c = false -> lstrip (s ++ [c]) = lstrip s ++ [c].
Proof.
  intros H. induction s as [|x s IH]; simpl.
  - now rewrite H.
  - destruct (isspace x); [exact IH | reflexivity].
Qed.

(** Trimming a string that starts with a character that is not white
    space keeps that character in front. *)
Lemma strip_keeps_head c t :
  isspace c = false -> strip (c :: t) = c :: rev (lstrip (rev t)).
Proof.
  intros H. unfold strip, rstrip. rewrite (lstrip_head c t H).
  cbn [rev]. rewrite (lstrip_keeps_last _ c H), rev_app_distr.
  reflexivity.
Qed.

(** A trimmed string is empty or has no white space at either end. *)
Lemma strip_ends s : strip s = [] \/ solid_ends (strip s).
Proof.
  destruct (lstrip s) as [|c t] eqn:E.
  { left. unfold strip. now rewrite E. }
  right. pose proof (lstrip_starts_solid s c t E) as Hc.
  assert (Es : strip s = strip (c :: t)).
  { unfold strip. now rewrite E, (lstrip_head c t Hc). }
  rewrite Es, (strip_keeps_head c t Hc).
  split; [discriminate|]. split; intros x Hx.
  - inversion Hx; subst. exact Hc.
  - cbn [rev] in Hx. rewrite rev_involutive in Hx.
    destruct (lstrip (rev t)) as [|y u] eqn:Eu.
    + inversion Hx; subst. exact Hc.
    + inversion Hx; subst. now apply (lstrip_starts_solid (rev t) x u).
Qed.

Lemma strip_idempotent s : strip (strip s) = strip s.
Proof.
  destruct (strip_ends s) as [E|E]; [now rewrite E | now apply strip_solid_ends].
Qed.

Lemma strip_length s : (length (strip s) <= length s)%nat.
Proof.
  unfold strip, rstrip. rewrite length_rev.
  pose proof (lstrip_length (rev (lstrip s))) as H1.
  pose proof (lstrip_length s) as H2. rewrite length_rev in H1. lia.
Qed.

Lemma strip_In x s : In x (strip s) -> In x s.
Proof.
  unfold strip, rstrip. intros H.
  apply in_rev, lstrip_In, in_rev in H. now apply lstrip_In.
Qed.

(** ** Decimal numerals *)

Lemma lit_cons c s : lit (String c s) = N_of_ascii c :: lit s.
Proof. reflexivity. Qed.

(** The characters of [str(n)] are digits, after a minus sign when
    [n] is negative. *)
Lemma str_of_Z_chars (P : char -> bool) :
  (forall c, In c (lit "0123456789-") -> P c = true) ->
  forall n, forallb P (str_of_Z n) = true.
Proof.
  intros HP.
  assert (Hd : forall d, forallb P (lit (NilEmpty.string_of_uint d)) = true).
  { induction d; cbn [NilEmpty.string_of_uint]; try reflexivity;
      rewrite lit_cons; cbn [forallb]; rewrite IHd, andb_true_r;
      apply HP; vm_compute; tauto. }
  assert (Hz : forall d, forallb P (lit (NilZero.string_of_uint d)) = true).
  { intros d. unfold NilZero.string_of_uint.
    destruct d; try apply Hd.
    cbn. rewrite andb_true_r. apply HP. vm_compute; tauto. }
  intros n. unfold str_of_Z, NilZero.string_of_int.
  destruct (Z.to_int n) as [d|d]; [apply Hz|].
  rewrite lit_cons. cbn [forallb]. rewrite Hz, andb_true_r.
  apply HP. vm_compute; tauto.
Qed.

End PyFacts.

(* ===================================================================== *)
(** * Facts on the chunkers *)
(* ===================================================================== *)

Module ChunkerFacts.
Import Py Chunker PyFacts.

(** ** Identifiers *)

Lemma id_char_underscore : id_char underscore = true.
Proof. reflexivity. Qed.

Lemma sanitize_char_fixed c :
  id_char (if id_char c then c else underscore) = true.
Proof. destruct (id_char c) eqn:E; [exact E | reflexivity]. Qed.

(** Every character of a sanitized identifier is in the class. *)
Lemma sanitize_id_class s : forallb id_char (sanitize_id s) = true.
Proof.
  induction s as [|c s IH]; simpl; [reflexivity|].
  now rewrite sanitize_char_fixed, IH.
Qed.

(** A string made of characters of the class is left as it is. *)
Lemma sanitize_id_fixed s : forallb id_char s = true -> sanitize_id s = s.
Proof.
  induction s as [|c s IH]; simpl; [reflexivity|].
  intros H. apply andb_prop in H. destruct H as [Hc Hs].
  rewrite Hc. f_equal. now apply IH.
Qed.

(** C10. Sanitizing an identifier twice is sanitizing it once: the
    output of [sanitize_id] holds only characters of [[a-zA-Z0-9_-]],
    and each of them is mapped to itself. *)
Theorem sanitize_id_idempotent (s : str) :
  sanitize_id (sanitize_id s) = sanitize_id s
  /\ forallb id_char (sanitize_id s) = true.
Proof.
  split.
  - apply sanitize_id_fixed, sanitize_id_class.
  - apply sanitize_id_class.
Qed.

(** ** Short texts *)

(** One turn of the loop of [chunk_text]. *)
Lemma chunk_text_loop_turn fuel text size overlap start chunks :
  chunk_text_loop (S fuel) text size overlap start chunks =
  if start <? len text then
    if Z.min (start + size) (len text) =? len text
    then Some (chunks ++ [strip (slice text start (Z.min (start + size) (len text)))])
    else chunk_text_loop fuel text size overlap
           (Z.min (start + size) (len text) - overlap)
           (chunks ++ [strip (slice text start (Z.min (start + size) (len text)))])
  else Some chunks.
Proof. reflexivity. Qed.

(** A text no longer than the window is one window: the loop runs one
    turn. *)
Lemma chunk_text_loop_short fuel text size overlap :
  len text <= size ->
  chunk_text_loop (S fuel) text size overlap 0 [] =
  Some (if truthy text then [strip text] else []).
Proof.
  intros Hle. rewrite chunk_text_loop_turn.
  destruct text as [|c text'] eqn:E; [reflexivity|].
  rewrite <- E in *.
  assert (Hpos : 0 < len text) by (subst text; unfold len; simpl; lia).
  destruct (Z.ltb_spec 0 (len text)) as [_|]; [|lia].
  replace (Z.min (0 + size) (len text)) with (len text) by lia.
  rewrite Z.eqb_refl, slice_whole. subst text. reflexivity.
Qed.

Lemma chunk_text_short fuel text size overlap :
  len text <= size ->
  chunk_text (S fuel) text size overlap = Some (filter truthy [strip text]).
Proof.
  intros Hle. unfold chunk_text.
  rewrite chunk_text_loop_short by assumption.
  destruct text; reflexivity.
Qed.

(** C7, as the code has it. The empty string gives no chunk; a string
    no longer than [size] gives exactly one chunk, the trimmed input,
    when the trimmed input is not empty, and no chunk when it is. *)
Theorem chunk_text_at_most_size (text : str) (size overlap : Z) (fuel : nat)
    (Hle : len text <= size) :
  chunk_text (S fuel) [] size overlap = Some []
  /\ (truthy (strip text) = true ->
      chunk_text (S fuel) text size overlap = Some [strip text])
  /\ (truthy (strip text) = false ->
      chunk_text (S fuel) text size overlap = Some []).
Proof.
  split; [reflexivity|].
  rewrite (chunk_text_short fuel text size overlap Hle). simpl.
  split; intros H; now rewrite H.
Qed.

Lemma chunk_text_at_most_size_witness :
  len (lit " ab ") <= 1200
  /\ chunk_text 1 (lit " ab ") 1200 150 = Some [lit "ab"].
Proof.
  split; [vm_compute; discriminate|].
  apply (chunk_text_at_most_size (lit " ab ") 1200 150 0).
  - vm_compute; discriminate.
  - reflexivity.
Defined.

(** C7, as the spec words it, fails on a text of white space: it is
    not longer than [size], and it gives no chunk at all. *)
Lemma blank_text_gives_no_chunk :
  lit " " <> [] /\ len (lit " ") <= 1200
  /\ chunk_text 1 (lit " ") 1200 150 = Some []
  /\ chunk_text 1 (lit " ") 1200 150 <> Some [strip (lit " ")].
Proof.
  repeat split; try (vm_compute; discriminate).
Qed.

(** ** Overlap not smaller than the size *)

(** Once the cursor is at 0 or before it, with a text longer than the
    window and an overlap that takes the whole window back, the loop
    never leaves. *)
Lemma chunk_text_loop_stalls fuel text size overlap :
  0 < size <= overlap -> size < len text ->
  forall start chunks, start <= 0 ->
  chunk_text_loop fuel text size overlap start chunks = None.
Proof.
  intros Hso Hlen. induction fuel as [|fuel IH]; intros start chunks Hstart.
  - reflexivity.
  - rewrite chunk_text_loop_turn.
    destruct (Z.ltb_spec start (len text)); [|lia].
    destruct (Z.eqb_spec (Z.min (start + size) (len text)) (len text)); [lia|].
    apply IH. lia.
Qed.

(** C2, as the code has it. Nothing validates the chunk size and the
    overlap. With [0 < size <= overlap], [chunk_text] returns as usual
    on every text no longer than [size], and never returns on a longer
    one; no error is raised. The constants the pipeline is shipped
    with, 1200 and 150, satisfy [0 <= overlap < size]. *)
Theorem chunk_text_unvalidated (text : str) (size overlap : Z)
    (Hbad : 0 < size <= overlap) :
  0 <= CHUNK_OVERLAP < CHUNK_SIZE
  /\ (len text <= size ->
      forall fuel,
        chunk_text (S fuel) text size overlap = Some (filter truthy [strip text]))
  /\ (size < len text ->
      forall fuel, chunk_text fuel text size overlap = None).
Proof.
  split; [unfold CHUNK_OVERLAP, CHUNK_SIZE; lia|]. split.
  - intros Hle fuel. now apply chunk_text_short.
  - intros Hlt fuel. unfold chunk_text.
    rewrite chunk_text_loop_stalls by (assumption || lia). reflexivity.
Qed.

Lemma chunk_text_unvalidated_witness :
  chunk_text 1 (lit "a") 1 1 = Some [lit "a"]
  /\ forall fuel, chunk_text fuel (lit "ab") 1 1 = None.
Proof.
  pose proof (chunk_text_unvalidated (lit "a") 1 1 ltac:(lia)) as [_ [Ha _]].
  pose proof (chunk_text_unvalidated (lit "ab") 1 1 ltac:(lia)) as [_ [_ Hb]].
  split.
  - apply (Ha ltac:(vm_compute; discriminate) 0%nat).
  - apply Hb. reflexivity.
Defined.

(** ** Valid size and overlap *)

Section Windows.
Variables (size overlap : Z).
Hypothesis valid : 0 <= overlap < size.

Lemma chunk_spans_from_turn fuel n start :
  chunk_spans_from (S fuel) n size overlap start =
  if start <? n then
    if Z.min (start + size) n =? n then Some [(start, Z.min (start + size) n)]
    else option_map (cons (start, Z.min (start + size) n))
           (chunk_spans_from fuel n size overlap (Z.min (start + size) n - overlap))
  else Some [].
Proof. reflexivity. Qed.

(** The loop of [chunk_text] trims the windows of its cursor. *)
Lemma chunk_text_loop_spans text fuel :
  forall start chunks,
  chunk_text_loop fuel text size overlap start chunks =
  option_map (fun sp => chunks ++ map (fun se => strip (window text se)) sp)
    (chunk_spans_from fuel (len text) size overlap start).
Proof.
  induction fuel as [|fuel IH]; intros start chunks; [reflexivity|].
  rewrite chunk_text_loop_turn, chunk_spans_from_turn.
  destruct (start <? len text); [|simpl; now rewrite app_nil_r].
  destruct (Z.min (start + size) (len text) =? len text); [reflexivity|].
  rewrite IH.
  destruct (chunk_spans_from fuel (len text) size overlap _); simpl; [|reflexivity].
  now rewrite <- app_assoc.
Qed.

(** More fuel does not change what the cursor does. *)
Lemma chunk_spans_from_more fuel n :
  forall start spans,
  chunk_spans_from fuel n size overlap start = Some spans ->
  chunk_spans_from (S fuel) n size overlap start = Some spans.
Proof.
  induction fuel as [|fuel IH]; intros start spans H; [discriminate|].
  rewrite chunk_spans_from_turn in H. rewrite chunk_spans_from_turn.
  destruct (start <? n); [|exact H].
  destruct (Z.min (start + size) n =? n); [exact H|].
  destruct (chunk_spans_from fuel n size overlap _) as [sp|] eqn:E;
    [|discriminate].
  now rewrite (IH _ _ E).
Qed.

Lemma chunk_spans_from_mono fuel fuel' n start spans :
  (fuel <= fuel')%nat ->
  chunk_spans_from fuel n size overlap start = Some spans ->
  chunk_spans_from fuel' n size overlap start = Some spans.
Proof.
  intros Hle H. induction Hle; [exact H|].
  now apply chunk_spans_from_more.
Qed.

(** The cursor strictly increases, so one turn for each character that
    lies after it, and one more, is fuel enough. *)
Lemma chunk_spans_from_terminates n fuel :
  forall start, 0 <= start ->
  (Z.to_nat (n - start) < fuel)%nat ->
  exists spans, chunk_spans_from fuel n size overlap start = Some spans.
Proof.
  induction fuel as [|fuel IH]; intros start H0 Hfuel; [lia|].
  rewrite chunk_spans_from_turn.
  destruct (Z.ltb_spec start n); [|now eexists].
  destruct (Z.eqb_spec (Z.min (start + size) n) n); [now eexists|].
  destruct (IH (Z.min (start + size) n - overlap)) as [sp Hsp]; [lia|lia|].
  rewrite Hsp. now eexists.
Qed.

(** The first window starts at the cursor, and the starts increase. *)
Lemma chunk_spans_from_increasing n fuel :
  forall start spans, 0 <= start ->
  chunk_spans_from fuel n size overlap start = Some spans ->
  increasing (map fst spans)
  /\ (forall se rest, spans = se :: rest -> fst se = start).
Proof.
  induction fuel as [|fuel IH]; intros start spans H0 H; [discriminate|].
  rewrite chunk_spans_from_turn in H.
  destruct (Z.ltb_spec start n).
  2:{ inversion H; subst. split; [exact I | discriminate]. }
  destruct (Z.eqb_spec (Z.min (start + size) n) n).
  { inversion H; subst. split; [exact I|]. intros se rest E. now inversion E. }
  destruct (chunk_spans_from fuel n size overlap _) as [sp|] eqn:E;
    [|discriminate].
  inversion H; subst; clear H.
  assert (Hge : 0 <= Z.min (start + size) n - overlap) by lia.
  destruct (IH _ _ Hge E) as [Hinc Hfirst].
  split.
  - simpl. destruct sp as [|se' sp']; [exact I|].
    split; [|exact Hinc].
    rewrite (Hfirst se' sp' eq_refl). lia.
  - intros se rest Eq. now inversion Eq.
Qed.

Lemma stitch_from_cons k w rest :
  stitch_from k overlap (w :: rest) =
  skipn (Z.to_nat k) w ++ concat (map (skipn (Z.to_nat overlap)) rest).
Proof. reflexivity. Qed.

(** The windows from a cursor on, the first without its first [k]
    characters and the others without their overlap, are the text from
    position [start + k] on. *)
Lemma chunk_spans_from_stitch text fuel :
  forall start k spans,
  0 <= start -> 0 <= k < size -> start + k <= len text ->
  chunk_spans_from fuel (len text) size overlap start = Some spans ->
  stitch_from k overlap (map (window text) spans) =
  skipn (Z.to_nat (start + k)) text.
Proof.
  induction fuel as [|fuel IH]; intros start k spans H0 Hk Hsk H;
    [discriminate|].
  rewrite chunk_spans_from_turn in H.
  destruct (Z.ltb_spec start (len text)).
  2:{ inversion H; subst. simpl. symmetry. apply skipn_all2.
      unfold len in *. lia. }
  assert (Hwin : forall e, start + k <= e <= len text ->
            skipn (Z.to_nat k) (window text (start, e)) =
            firstn (Z.to_nat (e - (start + k))) (skipn (Z.to_nat (start + k)) text)).
  { intros e He. unfold window. simpl fst. simpl snd.
    rewrite slice_inside by lia.
    rewrite skipn_firstn_comm, skipn_skipn.
    f_equal; [lia|]. f_equal. lia. }
  destruct (Z.eqb_spec (Z.min (start + size) (len text)) (len text)) as [Ee|Ee].
  - inversion H; subst; clear H. rewrite map_cons, stitch_from_cons.
    simpl map. simpl concat.
    rewrite app_nil_r, Hwin by lia.
    apply firstn_all2. rewrite length_skipn. unfold len in *. lia.
  - destruct (chunk_spans_from fuel (len text) size overlap _) as [sp|] eqn:E;
      [|discriminate].
    inversion H; subst; clear H.
    assert (Hend : Z.min (start + size) (len text) = start + size) by lia.
    rewrite Hend in *.
    pose proof (IH (start + size - overlap) overlap sp
                  ltac:(lia) ltac:(lia) ltac:(lia) E) as Hrest.
    rewrite map_cons, stitch_from_cons, Hwin by lia.
    transitivity (firstn (Z.to_nat (start + size - (start + k)))
                    (skipn (Z.to_nat (start + k)) text)
                  ++ skipn (Z.to_nat (start + size - overlap + overlap)) text).
    + f_equal. rewrite <- Hrest.
      destruct sp as [|se sp']; reflexivity.
    + replace (Z.to_nat (start + size - overlap + overlap))
        with (Z.to_nat (start + size - (start + k)) + Z.to_nat (start + k))%nat
        by lia.
      rewrite <- skipn_skipn. apply firstn_skipn.
Qed.

End Windows.

(** C5, as the code has it. For [0 <= overlap < size] chunking any
    text terminates: the cursor strictly increases, and one turn per
    character and one more is fuel enough. The windows the cursor
    takes, before they are trimmed, cover the text with no gap: the
    first whole, followed by every later one without its first
    [overlap] characters, is the text. The chunks emitted are these
    windows trimmed, the empty ones left out. *)
Theorem chunk_text_terminates_and_covers (text : str) (size overlap : Z)
    (valid : 0 <= overlap < size) :
  exists spans,
    (forall fuel, (length text < fuel)%nat ->
       chunk_spans fuel text size overlap = Some spans
       /\ chunk_text fuel text size overlap =
          Some (filter truthy (map (fun se => strip (window text se)) spans)))
    /\ increasing (map fst spans)
    /\ stitch overlap (map (window text) spans) = text.
Proof.
  destruct (chunk_spans_from_terminates size overlap valid (len text)
              (S (length text)) 0 ltac:(lia)) as [spans Hsp].
  { unfold len. lia. }
  exists spans. split; [|split].
  - intros fuel Hfuel.
    assert (Hf : chunk_spans_from fuel (len text) size overlap 0 = Some spans)
      by (apply (chunk_spans_from_mono size overlap (S (length text))); [lia|exact Hsp]).
    split; [exact Hf|].
    unfold chunk_text. rewrite chunk_text_loop_spans, Hf. reflexivity.
  - now apply (chunk_spans_from_increasing size overlap valid (len text)
                 (S (length text)) 0 spans ltac:(lia) Hsp).
  - unfold stitch.
    rewrite (chunk_spans_from_stitch size overlap valid text
               (S (length text)) 0 0 spans
               ltac:(lia) ltac:(lia) ltac:(pose proof (len_nonneg text); lia) Hsp).
    reflexivity.
Qed.

Lemma chunk_text_terminates_and_covers_witness :
  exists spans,
    (forall fuel, (length (lit "hello world foo") < fuel)%nat ->
       chunk_spans fuel (lit "hello world foo") 6 2 = Some spans
       /\ chunk_text fuel (lit "hello world foo") 6 2 =
          Some (filter truthy
                  (map (fun se => strip (window (lit "hello world foo") se)) spans)))
    /\ increasing (map fst spans)
    /\ stitch 2 (map (window (lit "hello world foo")) spans) = lit "hello world foo".
Proof.
  apply (chunk_text_terminates_and_covers (lit "hello world foo") 6 2).
  lia.
Defined.

(** C5, as the spec words it, fails on the emitted chunks: trimming
    takes the white space at the edge of a window away, so the chunks
    of ["a b"] for windows of 2 characters and no overlap are ["a"] and
    ["b"], and they do not make ["a b"] again. *)
Lemma chunks_do_not_cover :
  0 <= 0 < 2
  /\ chunk_text 4 (lit "a b") 2 0 = Some [lit "a"; lit "b"]
  /\ stitch 0 [lit "a"; lit "b"] <> lit "a b".
Proof.
  repeat split; try lia; vm_compute; discriminate.
Qed.

(** ** Windows of words *)

Lemma make_chunks_loop_turn fuel words size overlap start chunks :
  make_chunks_loop (S fuel) words size overlap start chunks =
  if start <? len words then
    let end_ := Z.min (start + size) (len words) in
    let chunk := strip (join (lit " ") (slice words start end_)) in
    let chunks := if truthy chunk then chunks ++ [chunk] else chunks in
    if len words <=? end_ then Some chunks
    else make_chunks_loop fuel words size overlap (end_ - overlap) chunks
  else Some chunks.
Proof. reflexivity. Qed.

(** A window of words, joined, is a chunk as it stands: nothing to
    trim, and not empty. *)
Lemma joined_window words a b :
  Forall solid words -> 0 <= a < b -> b <= len words ->
  strip (join (lit " ") (slice words a b)) = join (lit " ") (slice words a b)
  /\ truthy (join (lit " ") (slice words a b)) = true.
Proof.
  intros Hw Hab Hb.
  assert (Hends : solid_ends (join (lit " ") (slice words a b))).
  { apply join_solid_ends; [|now apply slice_Forall].
    intros E. apply (f_equal len) in E.
    rewrite slice_len in E by lia. rewrite len_nil in E. lia. }
  split; [now apply strip_solid_ends|].
  destruct Hends as [Hne _].
  destruct (join (lit " ") (slice words a b)); [congruence | reflexivity].
Qed.

(** One turn of [make_chunks] on the words of a text. *)
Lemma make_chunks_loop_words fuel words size overlap start chunks :
  Forall solid words -> 0 <= start < len words -> 0 < size ->
  make_chunks_loop (S fuel) words size overlap start chunks =
  let end_ := Z.min (start + size) (len words) in
  let chunks := chunks ++ [join (lit " ") (slice words start end_)] in
  if len words <=? end_ then Some chunks
  else make_chunks_loop fuel words size overlap (end_ - overlap) chunks.
Proof.
  intros Hw Hstart Hsize. rewrite make_chunks_loop_turn.
  destruct (Z.ltb_spec start (len words)); [|lia].
  cbv zeta.
  destruct (joined_window words start (Z.min (start + size) (len words)) Hw)
    as [Hstrip Htruthy]; [lia|lia|].
  rewrite Hstrip, Htruthy. reflexivity.
Qed.

(** A text of 2500 words, chunked by [make_chunks] with its chunk
    size of 1200 words and its overlap of 150 words, gives exactly 3
    chunks: the words 0 to 1199, the words 1050 to 2249 and the words
    2100 to 2499, each window joined by single spaces. The first two
    are full windows of 1200 words, the last 150 words of the first
    being the first 150 words of the second, and the third is the
    shorter tail of 400 words. *)
Lemma make_chunks_three_windows (text : str) (H : len (split text) = 2500) :
  let words := split text in
  let w1 := slice words 0 1200 in
  let w2 := slice words 1050 2250 in
  let w3 := slice words 2100 2500 in
  make_chunks text =
    Some [join (lit " ") w1; join (lit " ") w2; join (lit " ") w3]
  /\ split (join (lit " ") w1) = w1
  /\ split (join (lit " ") w2) = w2
  /\ split (join (lit " ") w3) = w3
  /\ len w1 = 1200 /\ len w2 = 1200 /\ len w3 = 400
  /\ slice w1 1050 1200 = slice w2 0 150.
Proof.
  intros words w1 w2 w3.
  pose proof (split_solid text) as Hw. fold words in Hw, H.
  split.
  { unfold make_chunks, make_chunks_with, CHUNK_SIZE, CHUNK_OVERLAP.
    fold words.
    assert (Hfuel : S (length words) = S (S (S (length words - 2))))
      by (unfold len in H; lia).
    rewrite Hfuel.
    rewrite make_chunks_loop_words by (assumption || lia).
    cbv zeta. rewrite H.
    change (Z.min (0 + 1200) 2500) with 1200.
    change (2500 <=? 1200) with false. cbv iota.
    change (1200 - 150) with 1050.
    rewrite make_chunks_loop_words by (assumption || lia).
    cbv zeta. rewrite H.
    change (Z.min (1050 + 1200) 2500) with 2250.
    change (2500 <=? 2250) with false. cbv iota.
    change (2250 - 150) with 2100.
    rewrite make_chunks_loop_words by (assumption || lia).
    cbv zeta. rewrite H.
    change (Z.min (2100 + 1200) 2500) with 2500.
    change (2500 <=? 2500) with true. cbv iota.
    reflexivity. }
  repeat split.
  - apply split_join. now apply slice_Forall.
  - apply split_join. now apply slice_Forall.
  - apply split_join. now apply slice_Forall.
  - unfold w1. rewrite slice_len; lia.
  - unfold w2. rewrite slice_len; lia.
  - unfold w3. rewrite slice_len; lia.
  - assert (L1 : len w1 = 1200) by (unfold w1; rewrite slice_len; lia).
    assert (L2 : len w2 = 1200) by (unfold w2; rewrite slice_len; lia).
    rewrite (slice_inside w1) by lia. rewrite (slice_inside w2) by lia.
    unfold w1, w2. rewrite !slice_inside by lia.
    change (Z.to_nat 0) with 0%nat. rewrite !skipn_O.
    rewrite skipn_firstn_comm, firstn_firstn, firstn_firstn.
    f_equal; lia.
Qed.

(** For the windows of characters of [chunk_text], a text of 2500
    characters has the same three windows, and [chunk_text] gives them
    trimmed, the empty ones left out. *)
Lemma chunk_text_2500_characters (text : str) (fuel : nat) :
  len text = 2500 ->
  chunk_spans (S (S (S fuel))) text 1200 150 =
    Some [(0, 1200); (1050, 2250); (2100, 2500)]
  /\ chunk_text (S (S (S fuel))) text 1200 150 =
     Some (filter truthy [strip (slice text 0 1200);
                          strip (slice text 1050 2250);
                          strip (slice text 2100 2500)]).
Proof.
  intros H.
  assert (Hs : chunk_spans_from (S (S (S fuel))) (len text) 1200 150 0 =
               Some [(0, 1200); (1050, 2250); (2100, 2500)])
    by (rewrite H; reflexivity).
  split; [exact Hs|].
  unfold chunk_text. rewrite chunk_text_loop_spans, Hs. reflexivity.
Qed.

(** C4, as the code has it. Each chunker takes three windows on a
    text of 2500 of its own units, with the chunk size 1200 and the
    overlap 150. [make_chunks] counts words: a text of 2500 words gives
    exactly 3 chunks, the words 0 to 1199, 1050 to 2249 and 2100 to
    2499 joined by single spaces, two full windows that share 150
    words and a tail of 400 words. [chunk_text] counts characters: a
    text of 2500 characters has the windows of the characters 0 to
    1199, 1050 to 2249 and 2100 to 2499, and its chunks are these
    three windows trimmed, the empty ones left out. *)
Theorem chunks_of_2500_units (by_words by_chars : str) (fuel : nat)
    (Hwords : len (split by_words) = 2500)
    (Hchars : len by_chars = 2500) :
  (let words := split by_words in
   let w1 := slice words 0 1200 in
   let w2 := slice words 1050 2250 in
   let w3 := slice words 2100 2500 in
   make_chunks by_words =
     Some [join (lit " ") w1; join (lit " ") w2; join (lit " ") w3]
   /\ split (join (lit " ") w1) = w1
   /\ split (join (lit " ") w2) = w2
   /\ split (join (lit " ") w3) = w3
   /\ len w1 = 1200 /\ len w2 = 1200 /\ len w3 = 400
   /\ slice w1 1050 1200 = slice w2 0 150)
  /\ chunk_spans (S (S (S fuel))) by_chars 1200 150 =
       Some [(0, 1200); (1050, 2250); (2100, 2500)]
  /\ chunk_text (S (S (S fuel))) by_chars 1200 150 =
       Some (filter truthy [strip (slice by_chars 0 1200);
                            strip (slice by_chars 1050 2250);
                            strip (slice by_chars 2100 2500)]).
Proof.
  split.
  - now apply make_chunks_three_windows.
  - now apply chunk_text_2500_characters.
Qed.

Lemma chunks_of_2500_units_witness :
  len (split text_2500) = 2500
  /\ len chars_2500 = 2500
  /\ (exists c1 c2 c3, make_chunks text_2500 = Some [c1; c2; c3])
  /\ (exists c1 c2 c3, chunk_text 3 chars_2500 1200 150 = Some [c1; c2; c3]).
Proof.
  split; [vm_compute; reflexivity|].
  split; [vm_compute; reflexivity|].
  destruct (chunks_of_2500_units text_2500 chars_2500 0) as (Hm & _ & Hc).
  - vm_compute; reflexivity.
  - vm_compute; reflexivity.
  - cbv zeta in Hm. destruct Hm as [Hm _]. split; [eauto|].
    rewrite Hc. vm_compute. eauto.
Defined.

(** C4, as the spec words it, fails for [chunk_text], whose windows
    are of characters: a text of 2500 words of two letters is 7500
    characters long and gives 7 chunks, not 3. *)
Lemma chunk_text_2500_words_not_three :
  len (split text_2500) = 2500
  /\ len text_2500 = 7500
  /\ exists chunks,
       chunk_text 8 text_2500 1200 150 = Some chunks /\ len chunks = 7.
Proof.
  split; [vm_compute; reflexivity|].
  split; [vm_compute; reflexivity|].
  eexists. split; vm_compute; reflexivity.
Qed.

(** ** What the chunks look like *)

Section Chunks.
Variables (size overlap : Z).
Hypothesis valid : 0 <= overlap < size.

(** Every window lies in the text, is not empty, and is at most
    [size] long. *)
Lemma chunk_spans_from_bounds n fuel :
  forall start spans, 0 <= start ->
  chunk_spans_from fuel n size overlap start = Some spans ->
  Forall (fun se => 0 <= fst se < snd se /\ snd se <= n
                    /\ snd se - fst se <= size) spans.
Proof.
  induction fuel as [|fuel IH]; intros start spans H0 H; [discriminate|].
  rewrite chunk_spans_from_turn in H.
  destruct (Z.ltb_spec start n); [|inversion H; constructor].
  destruct (Z.eqb_spec (Z.min (start + size) n) n).
  { inversion H; subst. constructor; [simpl; lia | constructor]. }
  destruct (chunk_spans_from fuel n size overlap _) as [sp|] eqn:E;
    [|discriminate].
  inversion H; subst; clear H.
  constructor; [simpl; lia|].
  apply (IH (Z.min (start + size) n - overlap)); [lia | exact E].
Qed.

(** The first window starts where the cursor is. *)
Lemma chunk_spans_from_first n fuel start spans :
  start < n ->
  chunk_spans_from (S fuel) n size overlap start = Some spans ->
  exists rest, spans = (start, Z.min (start + size) n) :: rest.
Proof.
  intros Hlt H. rewrite chunk_spans_from_turn in H.
  destruct (Z.ltb_spec start n); [|lia].
  destruct (Z.min (start + size) n =? n).
  - inversion H. now eexists.
  - destruct (chunk_spans_from fuel n size overlap _); [|discriminate].
    inversion H. now eexists.
Qed.

Lemma window_length text se :
  0 <= fst se <= snd se -> snd se <= len text ->
  len (window text se) = snd se - fst se.
Proof. intros H1 H2. unfold window. apply slice_len; lia. Qed.

Lemma trimmed_chunks text spans :
  Forall (fun se => 0 <= fst se < snd se /\ snd se <= len text
                    /\ snd se - fst se <= size) spans ->
  Forall (fun c => truthy c = true /\ strip c = c /\ len c <= size)
    (filter truthy (map (fun se => strip (window text se)) spans)).
Proof.
  intros H. apply Forall_forall. intros c Hc.
  apply filter_In in Hc. destruct Hc as [Hin Ht].
  apply in_map_iff in Hin. destruct Hin as (se & <- & Hse).
  rewrite Forall_forall in H. destruct (H se Hse) as (H1 & H2 & H3).
  split; [exact Ht|]. split; [apply strip_idempotent|].
  pose proof (strip_length (window text se)) as Hl.
  pose proof (window_length text se ltac:(lia) H2) as Hw.
  unfold len in *. lia.
Qed.

End Chunks.

(** For [0 <= overlap < size], every chunk that [chunk_text] emits is
    not empty, has no white space left to trim, and is at most [size]
    characters long. *)
Theorem chunk_text_chunks_trimmed (text : str) (size overlap : Z) (fuel : nat)
    (valid : 0 <= overlap < size) (enough : (length text < fuel)%nat) :
  exists chunks,
    chunk_text fuel text size overlap = Some chunks
    /\ Forall (fun c => truthy c = true /\ strip c = c /\ len c <= size) chunks.
Proof.
  destruct (chunk_spans_from_terminates size overlap valid (len text) fuel 0)
    as [spans Hsp]; [lia | unfold len; lia|].
  exists (filter truthy (map (fun se => strip (window text se)) spans)).
  split.
  - unfold chunk_text. now rewrite chunk_text_loop_spans, Hsp.
  - apply (trimmed_chunks size text spans).
    now apply (chunk_spans_from_bounds size overlap valid (len text) fuel 0).
Qed.

Lemma chunk_text_chunks_trimmed_witness :
  exists chunks,
    chunk_text 16 (lit "hello world foo") 6 2 = Some chunks
    /\ Forall (fun c => truthy c = true /\ strip c = c /\ len c <= 6) chunks.
Proof.
  apply (chunk_text_chunks_trimmed (lit "hello world foo") 6 2 16).
  - lia.
  - vm_compute. lia.
Defined.

(** A text that is not empty and has no white space at either end, as
    the pages of the extractor are, always gives a first chunk, and
    that chunk starts with the first character of the text. *)
Theorem chunk_text_first_chunk (text : str) (size overlap : Z) (fuel : nat)
    (valid : 0 <= overlap < size) (enough : (length text < fuel)%nat)
    (trimmed : solid_ends text) :
  exists c rest,
    chunk_text fuel text size overlap = Some (c :: rest)
    /\ hd_error c = hd_error text.
Proof.
  destruct trimmed as (Hne & Hhead & _).
  destruct text as [|x text'] eqn:Et; [congruence|]. rewrite <- Et in *.
  assert (Hx : isspace x = false) by (apply Hhead; now rewrite Et).
  destruct fuel as [|fuel]; [lia|].
  destruct (chunk_spans_from_terminates size overlap valid (len text) (S fuel) 0)
    as [spans Hsp]; [lia | unfold len; lia|].
  assert (Hlen : 0 < len text) by (rewrite Et; unfold len; simpl; lia).
  destruct (chunk_spans_from_first size overlap (len text) fuel 0 spans Hlen Hsp)
    as [rest Hrest].
  unfold chunk_text. rewrite chunk_text_loop_spans, Hsp, Hrest.
  cbn [option_map app map].
  assert (Hw : exists t, window text (0, Z.min (0 + size) (len text)) = x :: t).
  { unfold window. cbn [fst snd]. rewrite slice_inside by lia.
    cbn [Z.to_nat skipn]. rewrite Z.sub_0_r.
    destruct (Z.to_nat (Z.min (0 + size) (len text))) as [|k] eqn:Ek; [lia|].
    rewrite Et. cbn [firstn]. now eexists. }
  destruct Hw as [t Hw]. rewrite Hw, (strip_keeps_head x t Hx).
  cbn [filter truthy]. eexists _, _. split; [reflexivity|].
  now rewrite Et.
Qed.

Lemma chunk_text_first_chunk_witness :
  exists c rest,
    chunk_text 16 (lit "hello world foo") 6 2 = Some (c :: rest)
    /\ hd_error c = hd_error (lit "hello world foo").
Proof.
  apply (chunk_text_first_chunk (lit "hello world foo") 6 2 16).
  - lia.
  - vm_compute. lia.
  - split; [discriminate|]. split; intros c Hc; vm_compute in Hc;
      inversion Hc; reflexivity.
Defined.

(** ** More on identifiers *)

(** [sanitize_id] keeps the length of the name, and leaves a name as
    it is exactly when all its characters are in [[a-zA-Z0-9_-]]. *)
Theorem sanitize_id_length_and_fixpoints (s : str) :
  len (sanitize_id s) = len s
  /\ (sanitize_id s = s <-> forallb id_char s = true).
Proof.
  split; [unfold len, sanitize_id; now rewrite length_map|].
  split; [|apply sanitize_id_fixed].
  intros H. rewrite <- H. apply sanitize_id_class.
Qed.

(** ** [make_chunks] on any text *)

Section Cover.
Context {A : Type}.
Variables (size overlap : Z).
Hypothesis valid : 0 <= overlap < size.
Variable items : list A.

(** The windows of a cursor over any sequence, the first without its
    first [k] items and the others without their overlap, are the
    sequence from position [start + k] on. *)
Lemma spans_cover fuel :
  forall start k spans,
  0 <= start -> 0 <= k < size -> start + k <= len items ->
  chunk_spans_from fuel (len items) size overlap start = Some spans ->
  match map (fun se => slice items (fst se) (snd se)) spans with
  | [] => []
  | w :: rest =>
      skipn (Z.to_nat k) w ++ concat (map (skipn (Z.to_nat overlap)) rest)
  end = skipn (Z.to_nat (start + k)) items.
Proof.
  induction fuel as [|fuel IH]; intros start k spans H0 Hk Hsk H;
    [discriminate|].
  rewrite chunk_spans_from_turn in H.
  destruct (Z.ltb_spec start (len items)).
  2:{ inversion H; subst. simpl. symmetry. apply skipn_all2.
      unfold len in *. lia. }
  assert (Hwin : forall e, start + k <= e <= len items ->
            skipn (Z.to_nat k) (slice items start e) =
            firstn (Z.to_nat (e - (start + k)))
              (skipn (Z.to_nat (start + k)) items)).
  { intros e He. rewrite slice_inside by lia.
    rewrite skipn_firstn_comm, skipn_skipn.
    f_equal; [lia|]. f_equal. lia. }
  destruct (Z.eqb_spec (Z.min (start + size) (len items)) (len items)) as [Ee|Ee].
  - inversion H; subst; clear H. cbn [map fst snd concat].
    rewrite app_nil_r, Hwin by lia.
    apply firstn_all2. rewrite length_skipn. unfold len in *. lia.
  - destruct (chunk_spans_from fuel (len items) size overlap _) as [sp|] eqn:E;
      [|discriminate].
    inversion H; subst; clear H.
    assert (Hend : Z.min (start + size) (len items) = start + size) by lia.
    rewrite Hend in *.
    pose proof (IH (start + size - overlap) overlap sp
                  ltac:(lia) ltac:(lia) ltac:(lia) E) as Hrest.
    cbn [map fst snd]. rewrite Hwin by lia.
    transitivity (firstn (Z.to_nat (start + size - (start + k)))
                    (skipn (Z.to_nat (start + k)) items)
                  ++ skipn (Z.to_nat (start + size - overlap + overlap)) items).
    + f_equal. rewrite <- Hrest.
      destruct sp as [|se sp']; reflexivity.
    + replace (Z.to_nat (start + size - overlap + overlap))
        with (Z.to_nat (start + size - (start + k)) + Z.to_nat (start + k))%nat
        by lia.
      rewrite <- skipn_skipn. apply firstn_skipn.
Qed.

End Cover.

(** On the words of a text, the loop of [make_chunks] joins the
    windows of its cursor. *)
Lemma make_chunks_loop_spans words size overlap fuel :
  Forall solid words -> 0 <= overlap < size ->
  forall start chunks, 0 <= start ->
  make_chunks_loop fuel words size overlap start chunks =
  option_map
    (fun sp => chunks ++ map (fun se => join (lit " ")
                                          (slice words (fst se) (snd se))) sp)
    (chunk_spans_from fuel (len words) size overlap start).
Proof.
  intros Hw Hvalid. induction fuel as [|fuel IH]; intros start chunks H0;
    [reflexivity|].
  rewrite chunk_spans_from_turn.
  destruct (Z.ltb_spec start (len words)) as [Hlt|Hge].
  - rewrite make_chunks_loop_words by (assumption || lia). cbv zeta.
    destruct (Z.eqb_spec (Z.min (start + size) (len words)) (len words)) as [E|E].
    + destruct (Z.leb_spec (len words) (Z.min (start + size) (len words)));
        [reflexivity | lia].
    + destruct (Z.leb_spec (len words) (Z.min (start + size) (len words)));
        [lia|].
      rewrite IH by lia.
      destruct (chunk_spans_from fuel (len words) size overlap _);
        cbn [option_map]; [|reflexivity].
      now rewrite <- app_assoc.
  - rewrite make_chunks_loop_turn.
    destruct (Z.ltb_spec start (len words)); [lia|].
    cbn [option_map map]. now rewrite app_nil_r.
Qed.

Lemma make_chunks_returns (text : str) :
  exists chunks, make_chunks text = Some chunks.
Proof.
  pose proof (split_solid text) as Hw.
  assert (Hvalid : 0 <= CHUNK_OVERLAP < CHUNK_SIZE)
    by (unfold CHUNK_OVERLAP, CHUNK_SIZE; lia).
  destruct (chunk_spans_from_terminates CHUNK_SIZE CHUNK_OVERLAP Hvalid
              (len (split text)) (S (length (split text))) 0) as [spans Hsp];
    [lia | unfold len; lia|].
  unfold make_chunks, make_chunks_with.
  rewrite make_chunks_loop_spans by (assumption || lia).
  rewrite Hsp. now eexists.
Qed.

(** [make_chunks] returns on every text, and loses no word: its
    chunks, split into words again and put end to end without the 150
    words each one repeats from the one before, are the words of the
    text. Every chunk is not empty, has nothing to trim, and holds at
    most 1200 words. *)
Theorem make_chunks_keeps_words (text : str) :
  exists chunks,
    make_chunks text = Some chunks
    /\ stitch_lists CHUNK_OVERLAP (map split chunks) = split text
    /\ Forall (fun c => truthy c = true /\ strip c = c
                        /\ 1 <= len (split c) <= CHUNK_SIZE) chunks.
Proof.
  pose proof (split_solid text) as Hw.
  assert (Hvalid : 0 <= CHUNK_OVERLAP < CHUNK_SIZE)
    by (unfold CHUNK_OVERLAP, CHUNK_SIZE; lia).
  set (words := split text) in *.
  destruct (chunk_spans_from_terminates CHUNK_SIZE CHUNK_OVERLAP Hvalid
              (len words) (S (length words)) 0) as [spans Hsp];
    [lia | unfold len; lia|].
  pose proof (chunk_spans_from_bounds CHUNK_SIZE CHUNK_OVERLAP Hvalid
                (len words) _ 0 spans ltac:(lia) Hsp) as Hb.
  exists (map (fun se => join (lit " ") (slice words (fst se) (snd se))) spans).
  split; [|split].
  - unfold make_chunks, make_chunks_with. fold words.
    rewrite make_chunks_loop_spans by (assumption || lia).
    now rewrite Hsp.
  - rewrite map_map.
    assert (Hsplit : map (fun se => split (join (lit " ")
                                             (slice words (fst se) (snd se)))) spans
                     = map (fun se => slice words (fst se) (snd se)) spans).
    { apply map_ext. intros se. apply split_join. now apply slice_Forall. }
    rewrite Hsplit.
    pose proof (spans_cover CHUNK_SIZE CHUNK_OVERLAP Hvalid words
                  (S (length words)) 0 0 spans
                  ltac:(lia) ltac:(lia)
                  ltac:(pose proof (len_nonneg words); lia) Hsp) as Hc.
    unfold stitch_lists.
    destruct (map (fun se => slice words (fst se) (snd se)) spans); exact Hc.
  - apply Forall_forall. intros c Hc. apply in_map_iff in Hc.
    destruct Hc as (se & <- & Hse).
    rewrite Forall_forall in Hb. destruct (Hb se Hse) as (H1 & H2 & H3).
    destruct (joined_window words (fst se) (snd se) Hw) as [Hs Ht]; [lia|lia|].
    split; [exact Ht|]. split; [exact Hs|].
    rewrite split_join by now apply slice_Forall.
    rewrite slice_len by lia. lia.
Qed.

End ChunkerFacts.

(* ===================================================================== *)
(** * Facts on the uploader *)
(* ===================================================================== *)

Module UploaderFacts.
Import Py Chunker Uploader Samples PyFacts.

(** ** Batch planning *)

Section Plan.
Context {A : Type}.
Variables (records : list A) (batch_size : Z).
Hypothesis positive : 0 < batch_size.

(** The batches cut from position [s] on, when [count] of them are
    what it takes to reach the end. *)
Lemma batches_from count :
  forall s, 0 <= s <= len records ->
  Z.of_nat count * batch_size - batch_size < len records - s
    <= Z.of_nat count * batch_size ->
  let batches := map (batch_at batch_size records)
                   (range_count s batch_size count) in
  concat batches = skipn (Z.to_nat s) records
  /\ full_but_last batch_size batches.
Proof.
  induction count as [|k IH]; intros s Hs Hcount.
  - simpl. split; [|exact I].
    symmetry. apply skipn_all2. unfold len in *. lia.
  - cbn [range_count map]. cbv zeta.
    assert (Hhead : batch_at batch_size records s =
              firstn (Z.to_nat batch_size) (skipn (Z.to_nat s) records)).
    { unfold batch_at. rewrite slice_from_inside by lia.
      f_equal. lia. }
    destruct k as [|k'].
    + (* the last batch *)
      simpl. rewrite app_nil_r, Hhead.
      assert (Hall : firstn (Z.to_nat batch_size) (skipn (Z.to_nat s) records)
                     = skipn (Z.to_nat s) records).
      { apply firstn_all2. rewrite length_skipn. unfold len in *. lia. }
      rewrite Hall. split; [reflexivity|].
      unfold len. rewrite length_skipn. unfold len in *. lia.
    + (* a full batch, and more to come *)
      destruct (IH (s + batch_size)) as [Hcat Hfull]; [lia|lia|].
      cbv zeta in Hcat, Hfull. split.
      * cbn [concat]. rewrite Hcat, Hhead.
        replace (Z.to_nat (s + batch_size))
          with (Z.to_nat batch_size + Z.to_nat s)%nat by lia.
        rewrite <- skipn_skipn. apply firstn_skipn.
      * remember (S k') as k. cbn [full_but_last].
        destruct (map (batch_at batch_size records)
                    (range_count (s + batch_size) batch_size k))
          as [|b rest] eqn:E.
        { subst k. discriminate. }
        split; [|exact Hfull].
        rewrite Hhead. unfold len. rewrite length_firstn, length_skipn.
        unfold len in *. lia.
Qed.

Lemma total_len_concat (batches : list (list A)) :
  total_len batches = len (concat batches).
Proof.
  induction batches as [|b rest IH]; [reflexivity|].
  cbn [total_len fold_right concat]. rewrite len_app.
  unfold total_len in IH. now rewrite IH.
Qed.

End Plan.

(** C6. For every sequence of records and every [batch_size > 0] the
    batches are planned, they are contiguous groups of exactly
    [batch_size] records but the last, which holds at least one record
    and at most [batch_size], and the batches put end to end are the
    records: none is dropped, moved or repeated, and the sizes of the
    batches add up to the number of records. *)
Theorem plan_batches_partitions {A} (records : list A) (batch_size : Z)
    (positive : 0 < batch_size) :
  exists batches,
    plan_batches batch_size records = Ret batches
    /\ concat batches = records
    /\ full_but_last batch_size batches
    /\ total_len batches = len records.
Proof.
  unfold plan_batches, range_step.
  destruct (Z.eqb_spec batch_size 0); [lia|].
  destruct (Z.ltb_spec batch_size 0); [lia|].
  eexists. split; [reflexivity|].
  pose proof (len_nonneg records) as Hn.
  set (q := (len records + batch_size - 1) / batch_size).
  assert (Hq1 : batch_size * q <= len records + batch_size - 1)
    by (apply Z.mul_div_le; lia).
  assert (Hq2 : len records + batch_size - 1 < batch_size * Z.succ q)
    by (apply Z.mul_succ_div_gt; lia).
  assert (Hq0 : 0 <= q) by (apply Z.div_pos; lia).
  destruct (batches_from records batch_size positive (Z.to_nat q) 0)
    as [Hcat Hfull]; [lia|rewrite Z2Nat.id by lia; lia|].
  cbv zeta in Hcat, Hfull.
  split; [exact Hcat|]. split; [exact Hfull|].
  rewrite total_len_concat. now rewrite Hcat.
Qed.

Lemma plan_batches_partitions_witness :
  exists batches,
    plan_batches 2 [1; 2; 3; 4; 5] = Ret batches
    /\ concat batches = [1; 2; 3; 4; 5]
    /\ full_but_last 2 batches
    /\ total_len batches = len [1; 2; 3; 4; 5].
Proof.
  apply (plan_batches_partitions [1; 2; 3; 4; 5] 2). lia.
Defined.

(** ** The retry loop *)

Lemma backoff_delays_capped attempt count :
  Forall (fun d => d <= 30) (backoff_delays attempt count).
Proof.
  unfold backoff_delays. revert attempt.
  induction count as [|k IH]; intros attempt; simpl; constructor.
  - lia.
  - apply IH.
Qed.

(** [time.sleep] returns on a length it takes. *)
Lemma sleep_returns seconds w :
  sleepable seconds = true -> sleep seconds w = Ret (advance seconds w).
Proof.
  unfold sleepable, sleep. intros H. apply andb_true_iff in H.
  destruct H as [H0 H1].
  destruct (Z.ltb_spec seconds 0); [lia|].
  destruct (Z.ltb_spec SLEEP_MAX seconds); [lia|]. reflexivity.
Qed.

(** The sleep of the backoff is between 0 and 30 seconds. *)
Lemma backoff_sleepable attempt : sleepable (Z.min (2 ^ attempt) 30) = true.
Proof.
  unfold sleepable. apply andb_true_iff.
  assert (H : 0 <= 2 ^ attempt) by (apply Z.pow_nonneg; lia).
  assert (Hmax : 30 <= SLEEP_MAX) by (vm_compute; discriminate).
  split; lia.
Qed.

(** A sleep that returns has advanced the clock. *)
Lemma sleep_inv seconds w w' :
  sleep seconds w = Ret w' -> w' = advance seconds w.
Proof.
  unfold sleep. destruct (seconds <? 0); [discriminate|].
  destruct (SLEEP_MAX <? seconds); [discriminate|]. now inversion 1.
Qed.

Lemma bind_ret {A B} (m : run A) (k : A -> run B) b :
  bind m k = Ret b -> exists a, m = Ret a /\ k a = Ret b.
Proof. destruct m as [a| |]; try discriminate. intros H. now exists a. Qed.

(** The backoff always goes on to the next turn. *)
Lemma backoff_step {A} (last : bool) attempt w (k : World -> run A) :
  bind (if last then sleep (Z.min (2 ^ attempt) 30) w else Ret w) k
  = k (if last then advance (Z.min (2 ^ attempt) 30) w else w).
Proof.
  destruct last; [|reflexivity].
  now rewrite sleep_returns by apply backoff_sleepable.
Qed.

Section Transient.
Variables (cfg : Config) (remote : Remote).
Variable self : list Vector -> Z -> World -> run (Outcome * World).
Variables (vectors : list Vector) (batch started : Z).
Hypothesis always_transient : forall n payload, transient (remote n payload) = true.

(** A turn that fails adds its post, and its sleep when another turn
    follows, in front of what the later turns leave. *)
Lemma exhausted_turn attempt k le le' w out w' evs :
  attempt + Z.of_nat (S k) = MAX_RETRIES cfg ->
  (match k with O => le' = error_of (remote (posts w) vectors) | S _ => True end) ->
  exhausted remote vectors (attempt + 1) k le'
    (if attempt <? MAX_RETRIES cfg - 1
     then advance (Z.min (2 ^ attempt) 30) (snd (post remote vectors w))
     else snd (post remote vectors w)) out w' evs ->
  exhausted remote vectors attempt (S k) le w out w'
    (EPost vectors (remote (posts w) vectors)
     :: (if attempt <? MAX_RETRIES cfg - 1
         then [ESleep (Z.min (2 ^ attempt) 30)] else []) ++ evs).
Proof.
  intros Hturn Hle [Htr Hposts Hpin Hsl Hf Hc Hbf Hbc Hvu Hs Hu He].
  destruct (Z.ltb_spec attempt (MAX_RETRIES cfg - 1)) as [Hlt|Hge];
    cbn [post advance log snd trace posts stats] in *.
  - destruct k as [|j]; [lia|].
    constructor; try assumption.
    + rewrite Htr, <- !app_assoc. reflexivity.
    + lia.
    + unfold posts_in in *. simpl. now rewrite Hpin.
    + cbn [app sleeps_in]. rewrite Hsl. cbn [Nat.sub].
      rewrite Nat.sub_0_r. reflexivity.
    + rewrite He. do 2 f_equal. lia.
  - destruct k as [|j]; [|lia].
    constructor; try assumption.
    + rewrite Htr, <- !app_assoc. reflexivity.
    + lia.
    + unfold posts_in in *. simpl. now rewrite Hpin.
    + rewrite He, Hle. do 2 f_equal. lia.
Qed.

(** When every answer is a transient error the loop uses all its
    turns and ends on the failure record. *)
Lemma attempts_transient turns :
  forall attempt last_error w,
  attempt + Z.of_nat turns = MAX_RETRIES cfg ->
  exists out w' evs,
    attempts cfg remote self vectors batch started turns attempt last_error w
      = Ret (out, w')
    /\ exhausted remote vectors attempt turns last_error w out w' evs.
Proof.
  induction turns as [|k IH]; intros attempt last_error w Hturn.
  - eexists _, _, [ERecordFailed]. cbn [attempts].
    split; [reflexivity|].
    constructor; try reflexivity. simpl. lia.
  - assert (Hnext : forall le,
      (match k with O => le = error_of (remote (posts w) vectors) | S _ => True end) ->
      exists out w' evs,
        attempts cfg remote self vectors batch started k (attempt + 1) le
          (if attempt <? MAX_RETRIES cfg - 1
           then advance (Z.min (2 ^ attempt) 30) (snd (post remote vectors w))
           else snd (post remote vectors w)) = Ret (out, w')
        /\ exhausted remote vectors attempt (S k) last_error w out w' evs).
    { intros le Hle.
      destruct (IH (attempt + 1) le
                  (if attempt <? MAX_RETRIES cfg - 1
                   then advance (Z.min (2 ^ attempt) 30) (snd (post remote vectors w))
                   else snd (post remote vectors w)))
        as (out & w' & evs & Hrun & Hex); [lia|].
      eexists out, w', _. split; [exact Hrun|].
      eapply exhausted_turn; eassumption. }
    cbn [attempts].
    pose proof (always_transient (posts w) vectors) as Htrans.
    destruct (post remote vectors w) as [answer w1] eqn:Epost.
    assert (Eans : answer = remote (posts w) vectors)
      by (unfold post in Epost; now inversion Epost).
    cbn [snd] in Hnext.
    destruct answer as [r| |msg].
    + rewrite <- Eans in Htrans. cbn [transient] in Htrans.
      destruct (status_code r =? 200); [discriminate|].
      destruct (status_code r =? 429); [discriminate|].
      destruct (status_code r =? 413); [discriminate|].
      rewrite backoff_step.
      apply Hnext. destruct k; [|exact I]. now rewrite <- Eans.
    + rewrite backoff_step.
      apply Hnext. destruct k; [|exact I]. now rewrite <- Eans.
    + rewrite backoff_step.
      apply Hnext. destruct k; [|exact I]. now rewrite <- Eans.
Qed.

End Transient.

(** C8. When every attempt of a batch ends in a transient error (a
    time-out, a connection error, or a status that is neither 200, 429
    nor 413), [upload_batch] returns after exactly [MAX_RETRIES] posts,
    sleeping [min(2 ** attempt, 30)] after every attempt but the last,
    records the failure exactly once and no success, and its outcome
    has [success = false] and carries the message of the last answer. *)
Theorem upload_batch_exhausts_retries (cfg : Config) (remote : Remote)
    (vectors : list Vector) (batch : Z) (w : World) (fuel : nat)
    (Hretries : 1 <= MAX_RETRIES cfg)
    (Htransient : forall n payload, transient (remote n payload) = true) :
  exists out w' evs,
    upload_batch (S fuel) cfg remote vectors batch w = Ret (out, w')
    /\ trace w' = trace w ++ evs
    /\ posts_in evs = Z.to_nat (MAX_RETRIES cfg)
    /\ sleeps_in evs = backoff_delays 0 (Z.to_nat (MAX_RETRIES cfg) - 1)
    /\ Forall (fun d => d <= 30) (sleeps_in evs)
    /\ failures_in evs = 1%nat
    /\ completions_in evs = 0%nat
    /\ batches_failed (stats w') = batches_failed (stats w) + 1
    /\ success out = false
    /\ error out =
       error_of (remote (posts w + (Z.to_nat (MAX_RETRIES cfg) - 1))%nat vectors).
Proof.
  cbn [upload_batch].
  destruct (attempts_transient cfg remote (upload_batch fuel cfg remote)
              vectors batch (clock w) Htransient
              (Z.to_nat (MAX_RETRIES cfg)) 0 None w)
    as (out & w' & evs & Hrun & Hex); [lia|].
  exists out, w', evs.
  destruct Hex as [Htr Hposts Hpin Hsl Hf Hc Hbf Hbc Hvu Hs Hu He].
  repeat split; try assumption.
  - rewrite Hsl. apply backoff_delays_capped.
  - rewrite He.
    destruct (Z.to_nat (MAX_RETRIES cfg)) as [|k] eqn:E; [lia|].
    do 2 f_equal. lia.
Qed.

Lemma upload_batch_exhausts_retries_witness :
  exists out w' evs,
    upload_batch 1 default_config silent [sample_vector] 1 world0 = Ret (out, w')
    /\ trace w' = trace world0 ++ evs
    /\ posts_in evs = Z.to_nat (MAX_RETRIES default_config)
    /\ sleeps_in evs = backoff_delays 0 (Z.to_nat (MAX_RETRIES default_config) - 1)
    /\ Forall (fun d => d <= 30) (sleeps_in evs)
    /\ failures_in evs = 1%nat
    /\ completions_in evs = 0%nat
    /\ batches_failed (stats w') = batches_failed (stats world0) + 1
    /\ success out = false
    /\ error out =
       error_of (silent (posts world0 + (Z.to_nat (MAX_RETRIES default_config) - 1))%nat
                   [sample_vector]).
Proof.
  apply (upload_batch_exhausts_retries default_config silent [sample_vector] 1 world0 0).
  - vm_compute. discriminate.
  - intros n payload. reflexivity.
Defined.

(** With the shipped constants: three posts, sleeps of 1 and 2
    seconds, one failure record, and the message of the time-out. *)
Example silent_store_run :
  exists out w',
    upload_batch 1 default_config silent [sample_vector] 1 world0 = Ret (out, w')
    /\ trace w' = [EPost [sample_vector] Timeout; ESleep 1;
                   EPost [sample_vector] Timeout; ESleep 2;
                   EPost [sample_vector] Timeout; ERecordFailed]
    /\ success out = false
    /\ error out = Some (lit "Request timeout").
Proof. eexists _, _. repeat split. Qed.

(** ** Splitting a payload that is too large *)

(** A batch of two records or more is split in two batches that are
    both smaller. *)
Lemma halves_smaller (vectors : list Vector) :
  2 <= len vectors ->
  0 < len (slice_to vectors (len vectors / 2)) < len vectors
  /\ 0 < len (slice_from vectors (len vectors / 2)) < len vectors.
Proof.
  intros H. unfold slice_to, slice_from.
  assert (Hmid : 0 < len vectors / 2 < len vectors).
  { split; [apply Z.div_str_pos; lia | apply Z.div_lt; lia]. }
  rewrite !slice_len by lia. lia.
Qed.

(** A batch of one record is split in the empty batch and itself. *)
Lemma halves_of_one (v : Vector) :
  slice_to [v] (len [v] / 2) = [] /\ slice_from [v] (len [v] / 2) = [v].
Proof. split; reflexivity. Qed.

Section Oversize.
Variables (cfg : Config) (remote : Remote) (v : Vector).
Hypothesis retries : 1 <= MAX_RETRIES cfg.
Hypothesis rejected :
  forall n, exists r, remote n [v] = Responded r /\ status_code r = 413.

(** The first turn on a batch of one record that is rejected as too
    large: the two calls on the halves, which are the empty batch and
    the batch itself. *)
Lemma oversize_turn fuel batch w :
  upload_batch (S fuel) cfg remote [v] batch w =
    ' (r1, w1) <- upload_batch fuel cfg remote [] batch
                    (snd (post remote [v] w)) ;;
    ' (r2, w2) <- upload_batch fuel cfg remote [v] batch w1 ;;
    Ret ({| success := success r1 && success r2;
            batch_num := batch;
            uploaded := uploaded r1 + uploaded r2;
            duration := clock w2 - clock w;
            error := or_else (error r1) (error r2) |}, w2).
Proof.
  cbn [upload_batch].
  destruct (Z.to_nat (MAX_RETRIES cfg)) as [|k] eqn:E; [lia|].
  cbn [attempts post snd].
  destruct (rejected (posts w)) as (r & Hr & H413).
  rewrite Hr, H413.
  change (413 =? 200) with false. change (413 =? 429) with false.
  change (413 =? 413) with true. cbv iota.
  destruct (halves_of_one v) as [E1 E2]. rewrite E1, E2.
  reflexivity.
Qed.

(** Whatever the store does with the empty batch, the call on the
    batch of one record never returns. *)
Lemma oversize_single_record_never_returns fuel :
  forall batch w out w',
  upload_batch fuel cfg remote [v] batch w <> Ret (out, w').
Proof.
  induction fuel as [|fuel IH]; intros batch w out w'; [discriminate|].
  rewrite oversize_turn.
  destruct (upload_batch fuel cfg remote [] batch (snd (post remote [v] w)))
    as [[r1 w1]| |]; cbn [bind]; try discriminate.
  destruct (upload_batch fuel cfg remote [v] batch w1) as [[r2 w2]| |] eqn:E2;
    cbn [bind]; try discriminate.
  now apply IH in E2.
Qed.

Hypothesis empty_accepted :
  forall n, exists r, remote n [] = Responded r /\ status_code r = 200.

(** The empty batch is accepted at its first post. *)
Lemma empty_batch_returns fuel batch w :
  exists out w', upload_batch (S fuel) cfg remote [] batch w = Ret (out, w').
Proof.
  cbn [upload_batch].
  destruct (Z.to_nat (MAX_RETRIES cfg)) as [|k] eqn:E; [lia|].
  cbn [attempts post].
  destruct (empty_accepted (posts w)) as (r & Hr & H200).
  rewrite Hr, H200. change (200 =? 200) with true. cbv iota.
  eexists _, _. reflexivity.
Qed.

(** When the store accepts the empty batch, the call on the batch of
    one record uses up any fuel: the depth of the calls has no bound. *)
Lemma oversize_single_record_diverges fuel :
  forall batch w, upload_batch fuel cfg remote [v] batch w = OutOfFuel.
Proof.
  induction fuel as [|fuel IH]; intros batch w; [reflexivity|].
  rewrite oversize_turn.
  destruct fuel as [|fuel']; [reflexivity|].
  destruct (empty_batch_returns fuel' batch (snd (post remote [v] w)))
    as (r1 & w1 & E1).
  rewrite E1. cbn [bind]. now rewrite IH.
Qed.

End Oversize.

(** C1, on the code. A batch of one record that the store rejects as
    too large is split in the empty batch and itself, and uploaded
    again: [upload_batch] does not return, whatever the fuel, and no
    failure is ever recorded. *)
Theorem oversize_single_record_never_ends (fuel : nat) (v : Vector)
    (batch : Z) (w : World) :
  upload_batch fuel default_config rejecting [v] batch w = OutOfFuel.
Proof.
  apply oversize_single_record_diverges.
  - unfold default_config. cbn [MAX_RETRIES]. lia.
  - intros n. eexists. split; reflexivity.
  - intros n. eexists. split; reflexivity.
Qed.

(** ** The manifest stage *)

(** C3, on the code. [a.pdf] gives 100 records and [b.pdf] one; the
    store accepts the batch of the records of [a.pdf] and does not
    answer in time for the batch that holds the record of [b.pdf],
    which is given up and recorded as failed. The run still reports
    [b.pdf] as a success and appends its manifest entry, though no
    request that carried its record was accepted: the stage that
    updates the manifest "for successful files" tests the result of
    the whole upload, not what was accepted of each file. *)
Theorem manifest_entry_without_acceptance :
  exists results w',
    process_and_upload_pdfs 2 default_config partial_store tokens0
      [file_a; file_b] world0 = Ret (results, w')
    /\ results = [Succeeded (lit "a.pdf") 100; Succeeded (lit "b.pdf") 1]
    /\ manifest_appended (lit "b.pdf") (trace w') = true
    /\ file_accepted (lit "b.pdf") (trace w') = false
    /\ file_accepted (lit "a.pdf") (trace w') = true
    /\ batches_failed (stats w') = 1
    /\ vectors_uploaded (stats w') = 100.
Proof.
  eexists _, _. split; [vm_compute; reflexivity|].
  repeat split; vm_compute; reflexivity.
Qed.

(** ** No validation of the chunk size and the overlap *)

(** C2, as the spec words it, fails: with an overlap equal to the
    chunk size the run raises no error; it chunks the page, posts the
    record and writes the manifest. *)
Lemma invalid_overlap_reaches_upload :
  CHUNK_SIZE bad_config <= CHUNK_OVERLAP bad_config
  /\ exists results w',
       process_and_upload_pdfs 2 bad_config accepting tokens0
         [one_page "a.pdf" "a"] world0 = Ret (results, w')
       /\ posts w' = 1%nat
       /\ results = [Succeeded (lit "a.pdf") 1].
Proof.
  split; [vm_compute; discriminate|].
  eexists _, _. split; [vm_compute; reflexivity|].
  split; reflexivity.
Qed.

(** ** The outcome against the statistics *)

Lemma accounted_from w0 w out w' :
  stats w = stats w0 -> manifest w = manifest w0 -> uuids w = uuids w0 ->
  accounted w out w' -> accounted w0 out w'.
Proof.
  intros Hs Hm Hu [A1 A2 A3 A4 A5 A6 A7 A8 A9 A10].
  constructor; rewrite <- ?Hs, <- ?Hm, <- ?Hu; assumption.
Qed.

Lemma accounted_merge w r1 w1 r2 w2 batch d :
  accounted w r1 w1 -> accounted w1 r2 w2 ->
  accounted w
    {| success := success r1 && success r2; batch_num := batch;
       uploaded := uploaded r1 + uploaded r2; duration := d;
       error := or_else (error r1) (error r2) |} w2.
Proof.
  intros [A1 A2 A3 A4 A5 A6 A7 A8 A9 A10] [B1 B2 B3 B4 B5 B6 B7 B8 B9 B10].
  constructor; cbn [success uploaded error]; try lia; try congruence.
  - rewrite andb_true_iff. split.
    + intros [H1 H2]. apply A4 in H1. apply B4 in H2. lia.
    + intros H. split; [apply A4 | apply B4]; lia.
  - intros H. apply andb_true_iff in H. destruct H as [H1 H2].
    now rewrite (A6 H1), (B6 H2).
Qed.

Lemma attempts_accounted cfg remote self vectors batch started :
  (forall vs b w out w', self vs b w = Ret (out, w') -> accounted w out w') ->
  forall turns attempt last_error w out w',
  attempts cfg remote self vectors batch started turns attempt last_error w
    = Ret (out, w') ->
  accounted w out w'.
Proof.
  intros Hself. induction turns as [|k IH]; intros attempt last_error w out w' H.
  - cbn [attempts] in H. inversion H; subst; clear H.
    constructor;
      cbn [record_batch_failed log set_stats stats manifest uuids success
           uploaded batches_failed batches_completed vectors_uploaded error
           total_vectors total_batches];
      try lia; try reflexivity; try discriminate.
  - cbn [attempts] in H.
    destruct (post remote vectors w) as [answer w1] eqn:Epost.
    assert (Hbooks : stats w1 = stats w /\ manifest w1 = manifest w
                     /\ uuids w1 = uuids w).
    { unfold post in Epost. inversion Epost; subst. repeat split. }
    destruct Hbooks as (Hs & Hm & Hu).
    assert (Hback : forall le,
      attempts cfg remote self vectors batch started k (attempt + 1) le
        (if attempt <? MAX_RETRIES cfg - 1
         then advance (Z.min (2 ^ attempt) 30) w1 else w1) = Ret (out, w') ->
      accounted w out w').
    { intros le Hrun. apply IH in Hrun.
      apply (accounted_from w _ out w') in Hrun; [exact Hrun | | |];
        destruct (attempt <? MAX_RETRIES cfg - 1); cbn [advance log stats manifest uuids];
        assumption. }
    destruct answer as [r| |msg];
      try (rewrite backoff_step in H; now apply Hback in H).
    destruct (status_code r =? 200).
    { inversion H; subst; clear H.
      apply (accounted_from w w1); try assumption.
      constructor;
        cbn [record_batch_complete log set_stats stats manifest uuids success
             uploaded batches_failed batches_completed vectors_uploaded error
             total_vectors total_batches];
        try lia; try reflexivity; try (split; reflexivity). }
    destruct (status_code r =? 429).
    { destruct (retry_after r) as [|s|raw]; try discriminate;
        apply bind_ret in H; destruct H as (w2 & Hslept & H);
        apply sleep_inv in Hslept; subst w2; apply IH in H;
        (apply (accounted_from w _ out w') in H; [exact H | | |]);
        cbn [advance log stats manifest uuids]; assumption. }
    destruct (status_code r =? 413);
      [|rewrite backoff_step in H; now apply Hback in H].
    destruct (self (slice_to vectors (len vectors / 2)) batch w1)
      as [[r1 w2]| |] eqn:E1; cbn [bind] in H; try discriminate.
    destruct (self (slice_from vectors (len vectors / 2)) batch w2)
      as [[r2 w3]| |] eqn:E2; cbn [bind] in H; try discriminate.
    inversion H; subst; clear H.
    apply (accounted_from w w1); try assumption.
    apply (accounted_merge w1 r1 w2 r2 w');
      [now apply Hself in E1 | now apply Hself in E2].
Qed.

Lemma upload_batch_accounted fuel cfg remote :
  forall vectors batch w out w',
  upload_batch fuel cfg remote vectors batch w = Ret (out, w') ->
  accounted w out w'.
Proof.
  induction fuel as [|fuel IH]; intros vectors batch w out w' H; [discriminate|].
  cbn [upload_batch] in H. eapply attempts_accounted; eassumption.
Qed.



(** ** A store with a payload limit *)

Lemma failures_in_app a b :
  failures_in (a ++ b) = (failures_in a + failures_in b)%nat.
Proof. unfold failures_in. now rewrite filter_app, length_app. Qed.

Lemma sleeps_in_app a b : sleeps_in (a ++ b) = sleeps_in a ++ sleeps_in b.
Proof.
  induction a as [|e a IH]; [reflexivity|].
  destruct e; simpl; now rewrite IH.
Qed.

Lemma accepted_payloads_app a b :
  accepted_payloads (a ++ b) = accepted_payloads a ++ accepted_payloads b.
Proof.
  induction a as [|e a IH]; [reflexivity|].
  destruct e as [payload [r| |]| | | |]; cbn [app accepted_payloads];
    try exact IH.
  destruct (status_code r =? 200); [|exact IH].
  now rewrite IH, app_assoc.
Qed.

(** The two halves of a batch, put end to end, are the batch. *)
Lemma halves_join {A} (l : list A) m :
  0 <= m <= len l -> slice_to l m ++ slice_from l m = l.
Proof.
  intros H. unfold slice_to, slice_from.
  rewrite !slice_inside by lia.
  cbn [Z.to_nat skipn]. rewrite Z.sub_0_r.
  rewrite (firstn_all2 (skipn (Z.to_nat m) l))
    by (rewrite length_skipn; unfold len in *; lia).
  apply firstn_skipn.
Qed.

Lemma ok_count n : 0 <= n -> accepted_count
  {| status_code := 200; text := lit "{}"; json_count := Some n;
     json_ids := None; retry_after := NoHeader |} = n.
Proof.
  intros H. unfold accepted_count. cbn [json_count json_ids].
  destruct (Z.eqb_spec n 0); lia.
Qed.

(** What a delivery leaves: everything accepted, in order, without a
    failure or a sleep. *)
Lemma limited_delivers cfg k :
  1 <= k -> 1 <= MAX_RETRIES cfg ->
  forall fuel vectors batch w, (length vectors < fuel)%nat ->
  exists out w' evs,
    upload_batch fuel cfg (limited k) vectors batch w = Ret (out, w')
    /\ trace w' = trace w ++ evs
    /\ success out = true
    /\ uploaded out = len vectors
    /\ failures_in evs = 0%nat
    /\ sleeps_in evs = []
    /\ accepted_payloads evs = vectors.
Proof.
  intros Hk Hmax. induction fuel as [|fuel IH]; intros vectors batch w Hfuel;
    [lia|].
  cbn [upload_batch].
  destruct (Z.to_nat (MAX_RETRIES cfg)) as [|t] eqn:Et; [lia|].
  cbn [attempts post].
  assert (Hans : forall n, limited k n vectors =
            if len vectors <=? k then ok (len vectors) else too_large)
    by reflexivity.
  rewrite !Hans. clear Hans.
  destruct (Z.leb_spec (len vectors) k) as [Hfit|Hbig].
  - unfold ok. cbn [status_code]. change (200 =? 200) with true. cbv iota.
    eexists _, _, [_; _]. split; [reflexivity|].
    cbn [record_batch_complete log set_stats trace success uploaded].
    rewrite <- app_assoc.
    repeat split; try reflexivity.
    + apply ok_count, len_nonneg.
    + cbn [accepted_payloads status_code]. change (200 =? 200) with true.
      cbv iota. apply app_nil_r.
  - unfold too_large. cbn [status_code].
    change (413 =? 200) with false. change (413 =? 429) with false.
    change (413 =? 413) with true. cbv iota.
    assert (Hmid : 0 < len vectors / 2 < len vectors).
    { split; [apply Z.div_str_pos; lia | apply Z.div_lt; lia]. }
    set (w1 := log _ _).
    destruct (IH (slice_to vectors (len vectors / 2)) batch w1)
      as (r1 & w2 & e1 & R1 & T1 & S1 & U1 & F1 & Z1 & P1).
    { unfold slice_to.
      pose proof (slice_len vectors 0 (len vectors / 2) ltac:(lia) ltac:(lia)).
      unfold len in *. lia. }
    destruct (IH (slice_from vectors (len vectors / 2)) batch w2)
      as (r2 & w3 & e2 & R2 & T2 & S2 & U2 & F2 & Z2 & P2).
    { unfold slice_from.
      pose proof (slice_len vectors (len vectors / 2) (len vectors)
                    ltac:(lia) ltac:(lia)).
      unfold len in *. lia. }
    rewrite R1. cbn [bind]. rewrite R2. cbn [bind].
    eexists _, w3, (EPost vectors _ :: e1 ++ e2).
    split; [reflexivity|].
    cbn [success uploaded]. rewrite T2, T1. subst w1. cbn [log trace].
    rewrite <- !app_assoc.
    repeat split.
    + now rewrite S1, S2.
    + rewrite U1, U2. unfold slice_to, slice_from.
      rewrite !slice_len by lia. lia.
    + change (EPost vectors ?a :: e1 ++ e2) with ([EPost vectors a] ++ e1 ++ e2).
      rewrite !failures_in_app, F1, F2. reflexivity.
    + cbn [sleeps_in]. now rewrite sleeps_in_app, Z1, Z2.
    + cbn [accepted_payloads status_code]. change (413 =? 200) with false.
      cbv iota. rewrite accepted_payloads_app, P1, P2.
      apply halves_join. lia.
Qed.

(** With a store that takes at most [k >= 1] records in a payload,
    [upload_batch] returns for every batch: it splits the batch until
    the pieces fit, and every record is accepted exactly once, in
    order. The outcome is a success with the whole count, no failure
    is recorded and nothing waits. *)
Theorem upload_batch_splits_until_accepted (cfg : Config) (k : Z)
    (fuel : nat) (vectors : list Vector) (batch : Z) (w : World)
    (limit : 1 <= k) (retries : 1 <= MAX_RETRIES cfg)
    (enough : (length vectors < fuel)%nat) :
  exists out w' evs,
    upload_batch fuel cfg (limited k) vectors batch w = Ret (out, w')
    /\ trace w' = trace w ++ evs
    /\ accepted_payloads evs = vectors
    /\ success out = true /\ uploaded out = len vectors /\ error out = None
    /\ failures_in evs = 0%nat /\ sleeps_in evs = []
    /\ vectors_uploaded (stats w') = vectors_uploaded (stats w) + len vectors
    /\ batches_failed (stats w') = batches_failed (stats w).
Proof.
  destruct (limited_delivers cfg k limit retries fuel vectors batch w enough)
    as (out & w' & evs & Hrun & Htr & Hs & Hu & Hf & Hz & Hp).
  destruct (upload_batch_accounted _ _ _ _ _ _ _ _ Hrun)
    as [A1 A2 A3 A4 A5 A6 A7 A8 A9 A10].
  exists out, w', evs.
  repeat split; try assumption.
  - now apply A6.
  - now rewrite A1, Hu.
  - now apply A4.
Qed.

Lemma upload_batch_splits_until_accepted_witness :
  exists out w' evs,
    upload_batch 21 default_config (limited 10) (sample_vectors 20) 1 world0
      = Ret (out, w')
    /\ trace w' = trace world0 ++ evs
    /\ accepted_payloads evs = sample_vectors 20
    /\ success out = true /\ uploaded out = len (sample_vectors 20)
    /\ error out = None
    /\ failures_in evs = 0%nat /\ sleeps_in evs = []
    /\ vectors_uploaded (stats w')
       = vectors_uploaded (stats world0) + len (sample_vectors 20)
    /\ batches_failed (stats w') = batches_failed (stats world0).
Proof.
  apply (upload_batch_splits_until_accepted default_config 10 21
           (sample_vectors 20) 1 world0).
  - lia.
  - vm_compute. discriminate.
  - vm_compute. lia.
Defined.

(** ** Rate limiting *)

Lemma rate_limited_answer a :
  rate_limited a = true ->
  exists r, a = Responded r
            /\ (status_code r =? 200) = false /\ (status_code r =? 429) = true.
Proof.
  destruct a as [r| |msg]; try discriminate. cbn [rate_limited].
  intros H. apply andb_true_iff in H. destruct H as [H1 H2].
  exists r. split; [reflexivity|]. split; [|exact H2].
  now destruct (status_code r =? 200).
Qed.

Lemma rate_waits_length remote vectors turns :
  forall p attempt, length (rate_waits remote vectors p attempt turns) = turns.
Proof.
  induction turns as [|k IH]; intros p attempt; [reflexivity|].
  cbn [rate_waits length]. now rewrite IH.
Qed.

(** A turn answered 429 by an answer that can be waited for sleeps
    and goes on. *)
Lemma rate_limited_step {A} attempt r w (k : World -> run A) :
  polite attempt (Responded r) = true ->
  match retry_after r with
  | NoHeader => bind (sleep (2 ^ attempt) w) k
  | Seconds s => bind (sleep s w) k
  | NotANumber raw => Raise (int_error raw)
  end = k (advance (wait_of attempt (Responded r)) w).
Proof.
  unfold polite, wait_of.
  destruct (retry_after r) as [|s|raw]; intros H; try discriminate;
    now rewrite (sleep_returns _ _ H).
Qed.

Section RateLimited.
Variables (cfg : Config) (remote : Remote).
Variable self : list Vector -> Z -> World -> run (Outcome * World).
Variables (vectors : list Vector) (batch started : Z).

(** A turn answered 429 sleeps and goes to the next turn, the last
    turn as well. *)
Lemma attempts_all_rate_limited turns :
  (forall n, rate_limited (remote n vectors) = true) ->
  forall attempt last_error w,
  (forall i, (i < turns)%nat ->
     polite (attempt + Z.of_nat i) (remote (posts w + i)%nat vectors) = true) ->
  exists out w' evs,
    attempts cfg remote self vectors batch started turns attempt last_error w
      = Ret (out, w')
    /\ trace w' = trace w ++ evs
    /\ posts_in evs = turns
    /\ sleeps_in evs = rate_waits remote vectors (posts w) attempt turns
    /\ failures_in evs = 1%nat
    /\ completions_in evs = 0%nat
    /\ success out = false /\ uploaded out = 0 /\ error out = last_error.
Proof.
  intros Hall. induction turns as [|k IH]; intros attempt last_error w Hpol.
  - eexists _, _, [ERecordFailed]. cbn [attempts].
    repeat split; reflexivity.
  - cbn [attempts post].
    destruct (rate_limited_answer _ (Hall (posts w))) as (r & Hr & H200 & H429).
    assert (Hp0 : polite attempt (Responded r) = true).
    { rewrite <- Hr. specialize (Hpol 0%nat ltac:(lia)).
      now rewrite Z.add_0_r, Nat.add_0_r in Hpol. }
    rewrite Hr, H200, H429, (rate_limited_step _ _ _ _ Hp0).
    match goal with
    | |- exists _ _ _, attempts _ _ _ _ _ _ _ _ _ ?w2 = _ /\ _ =>
        destruct (IH (attempt + 1) last_error w2)
          as (out & w' & evs & Hrun & Htr & Hp & Hsl & Hf & Hc & Hrest)
    end.
    { intros i Hi. cbn [advance log posts].
      replace (S (posts w) + i)%nat with (posts w + S i)%nat by lia.
      replace (attempt + 1 + Z.of_nat i) with (attempt + Z.of_nat (S i)) by lia.
      apply Hpol. lia. }
    exists out, w',
      (EPost vectors (Responded r)
       :: ESleep (wait_of attempt (Responded r)) :: evs).
    split; [exact Hrun|].
    cbn [advance log trace posts] in Htr, Hsl.
    rewrite Htr, <- !app_assoc. split; [reflexivity|].
    split; [unfold posts_in in *; simpl; now rewrite Hp|].
    split.
    { cbn [sleeps_in rate_waits]. rewrite Hsl, Hr. reflexivity. }
    split; [exact Hf|]. split; [exact Hc | exact Hrest].
Qed.


(** A 429 whose [Retry-After] is not an integer, or gives a wait that
    [time.sleep] refuses, ends the call on the exception. *)
Lemma attempts_rate_limited_raises turns attempt last_error w r :
  remote (posts w) vectors = Responded r ->
  status_code r = 429 ->
  polite attempt (Responded r) = false ->
  exists exc,
    attempts cfg remote self vectors batch started (S turns) attempt last_error w
      = Raise exc.
Proof.
  intros Hr H429 Hrude. cbn [attempts post]. rewrite Hr, H429.
  change (429 =? 200) with false. change (429 =? 429) with true. cbv iota.
  unfold polite, wait_of, sleepable in Hrude. unfold sleep.
  destruct (retry_after r) as [|s|raw].
  - apply andb_false_iff in Hrude.
    destruct (Z.ltb_spec (2 ^ attempt) 0) as [Hneg|Hpos]; [eexists; reflexivity|].
    destruct (Z.ltb_spec SLEEP_MAX (2 ^ attempt)) as [Hlong|Hfits];
      [eexists; reflexivity|].
    destruct Hrude as [H|H]; apply Z.leb_gt in H; lia.
  - apply andb_false_iff in Hrude.
    destruct (Z.ltb_spec s 0) as [Hneg|Hpos]; [eexists; reflexivity|].
    destruct (Z.ltb_spec SLEEP_MAX s) as [Hlong|Hfits]; [eexists; reflexivity|].
    destruct Hrude as [H|H]; apply Z.leb_gt in H; lia.
  - eexists. reflexivity.
Qed.

End RateLimited.

(** A batch whose every attempt is answered 429, with a [Retry-After]
    that is missing or an integer, and a wait that [time.sleep] takes,
    is given up after [MAX_RETRIES] posts: each answer, the last one
    too, is followed by a sleep of its [Retry-After], or of
    [2 ** attempt] when the header is missing; the failure is recorded
    once; and the outcome carries no error message. *)
Theorem upload_batch_always_rate_limited (cfg : Config) (remote : Remote)
    (vectors : list Vector) (batch : Z) (w : World) (fuel : nat)
    (Hbusy : forall n, rate_limited (remote n vectors) = true)
    (Hpolite : forall i, (i < Z.to_nat (MAX_RETRIES cfg))%nat ->
       polite (Z.of_nat i) (remote (posts w + i)%nat vectors) = true) :
  exists out w' evs,
    upload_batch (S fuel) cfg remote vectors batch w = Ret (out, w')
    /\ trace w' = trace w ++ evs
    /\ posts_in evs = Z.to_nat (MAX_RETRIES cfg)
    /\ sleeps_in evs =
       rate_waits remote vectors (posts w) 0 (Z.to_nat (MAX_RETRIES cfg))
    /\ length (sleeps_in evs) = Z.to_nat (MAX_RETRIES cfg)
    /\ failures_in evs = 1%nat
    /\ completions_in evs = 0%nat
    /\ success out = false /\ uploaded out = 0 /\ error out = None.
Proof.
  cbn [upload_batch].
  destruct (attempts_all_rate_limited cfg remote (upload_batch fuel cfg remote)
              vectors batch (clock w) (Z.to_nat (MAX_RETRIES cfg)) Hbusy 0 None w
              Hpolite)
    as (out & w' & evs & Hrun & Htr & Hp & Hsl & Hrest).
  exists out, w', evs.
  split; [exact Hrun|]. split; [exact Htr|]. split; [exact Hp|].
  split; [exact Hsl|]. split; [|exact Hrest].
  rewrite Hsl. apply rate_waits_length.
Qed.

Lemma upload_batch_always_rate_limited_witness :
  exists out w' evs,
    upload_batch 1 default_config busy [sample_vector] 1 world0 = Ret (out, w')
    /\ trace w' = trace world0 ++ evs
    /\ posts_in evs = Z.to_nat (MAX_RETRIES default_config)
    /\ sleeps_in evs =
       rate_waits busy [sample_vector] (posts world0) 0
         (Z.to_nat (MAX_RETRIES default_config))
    /\ length (sleeps_in evs) = Z.to_nat (MAX_RETRIES default_config)
    /\ failures_in evs = 1%nat
    /\ completions_in evs = 0%nat
    /\ success out = false /\ uploaded out = 0 /\ error out = None.
Proof.
  apply (upload_batch_always_rate_limited default_config busy [sample_vector]
           1 world0 0).
  - intros n. reflexivity.
  - intros i Hi. reflexivity.
Defined.



(** A batch whose first answer is a 429 that cannot be waited for (a
    [Retry-After] that is not an integer, as a date is, or one that is
    negative or too long for [time.sleep]) does not give an outcome:
    [upload_batch] ends on the exception of [int] or of [time.sleep],
    which it does not catch. *)
Theorem upload_batch_rate_limit_raises (cfg : Config) (remote : Remote)
    (vectors : list Vector) (batch : Z) (w : World) (fuel : nat)
    (r : HttpResponse)
    (Hretries : 1 <= MAX_RETRIES cfg)
    (Hfirst : remote (posts w) vectors = Responded r)
    (H429 : status_code r = 429)
    (Hrude : polite 0 (Responded r) = false) :
  exists exc, upload_batch (S fuel) cfg remote vectors batch w = Raise exc.
Proof.
  cbn [upload_batch].
  destruct (Z.to_nat (MAX_RETRIES cfg)) as [|k] eqn:E; [lia|].
  now apply (attempts_rate_limited_raises cfg remote (upload_batch fuel cfg remote)
               vectors batch (clock w) k 0 None w r).
Qed.

Lemma upload_batch_rate_limit_raises_witness :
  (exists exc,
     upload_batch 1 default_config rude [sample_vector] 1 world0 = Raise exc)
  /\ (exists exc,
        upload_batch 1 default_config dated [sample_vector] 1 world0 = Raise exc).
Proof.
  split.
  - apply (upload_batch_rate_limit_raises default_config rude [sample_vector]
             1 world0 0
             {| status_code := 429; text := lit "Too Many Requests";
                json_count := None; json_ids := None;
                retry_after := Seconds (-1) |});
      [vm_compute; discriminate | reflexivity | reflexivity | reflexivity].
  - apply (upload_batch_rate_limit_raises default_config dated [sample_vector]
             1 world0 0
             {| status_code := 429; text := lit "Too Many Requests";
                json_count := None; json_ids := None;
                retry_after :=
                  NotANumber (lit "Wed, 21 Oct 2015 07:28:00 GMT") |});
      [vm_compute; discriminate | reflexivity | reflexivity | reflexivity].
Defined.

(** ** The summary of [upsert_chunks] *)

Lemma failing_cons r rs :
  failing (r :: rs) = (if success r then 0 else 1) + failing rs.
Proof.
  unfold failing, len. cbn [filter].
  destruct (success r); cbn [negb length]; lia.
Qed.

Lemma failing_nonneg rs : 0 <= failing rs.
Proof. apply len_nonneg. Qed.

Lemma failing_at_most rs : failing rs <= len rs.
Proof.
  unfold failing, len.
  pose proof (filter_length_le (fun r => negb (success r)) rs). lia.
Qed.

(** The batches of a run against the statistics: the failures that
    the summary counts are among those the statistics count, and there
    is none exactly when the statistics count none. *)
Lemma run_batches_accounted fuel cfg remote batches :
  forall i w results w',
  run_batches fuel cfg remote batches i w = Ret (results, w') ->
  length results = length batches
  /\ batches_failed (stats w) + failing results <= batches_failed (stats w')
  /\ (failing results = 0 <->
      batches_failed (stats w') = batches_failed (stats w))
  /\ manifest w' = manifest w
  /\ total_vectors (stats w') = total_vectors (stats w)
  /\ total_batches (stats w') = total_batches (stats w).
Proof.
  induction batches as [|b rest IH]; intros i w results w' H.
  - inversion H; subst. cbn. repeat split; lia.
  - cbn [run_batches] in H.
    destruct (upload_batch fuel cfg remote b (i + 1) w) as [[r w1]| |] eqn:E1;
      cbn [bind] in H; try discriminate.
    destruct (run_batches fuel cfg remote rest (i + 1) w1) as [[rs w2]| |] eqn:E2;
      cbn [bind] in H; try discriminate.
    inversion H; subst; clear H.
    destruct (upload_batch_accounted _ _ _ _ _ _ _ _ E1)
      as [A1 A2 A3 A4 A5 A6 A7 A8 A9 A10].
    destruct (IH _ _ _ _ E2) as (L & M & Z0 & Hm & Tv & Tb).
    rewrite failing_cons. pose proof (failing_nonneg rs) as Hn.
    cbn [length]. split; [lia|].
    split; [|split; [|repeat split; congruence]].
    + destruct (success r) eqn:Es; [|lia].
      assert (batches_failed (stats w1) = batches_failed (stats w))
        by (now apply A4). lia.
    + destruct (success r) eqn:Es.
      * assert (batches_failed (stats w1) = batches_failed (stats w))
          by (now apply A4).
        split; intros H0; [apply Z0 in H0; lia | apply Z0; lia].
      * assert (batches_failed (stats w1) <> batches_failed (stats w)).
        { intros Heq. apply A4 in Heq. congruence. }
        split; intros H0; lia.
Qed.

(** When [upsert_chunks] returns, its summary agrees with the
    statistics it leaves: the vectors uploaded are those the
    statistics count, [success] holds exactly when no batch of the
    summary failed, which is exactly when the statistics recorded no
    failure, and the failed batches of the summary are never more than
    the failures recorded or than the batches planned. *)
Theorem upsert_chunks_summary (fuel : nat) (cfg : Config) (remote : Remote)
    (vectors : list Vector) (w : World) (ur : UpsertResult) (w' : World)
    (Hrun : upsert_chunks fuel cfg remote vectors w = Ret (ur, w')) :
  ur_total_vectors ur = len vectors
  /\ ur_vectors_uploaded ur = vectors_uploaded (stats w')
  /\ (ur_success ur = true <-> ur_failed_batches ur = 0)
  /\ (ur_success ur = true <-> batches_failed (stats w') = 0)
  /\ 0 <= ur_failed_batches ur <= batches_failed (stats w')
  /\ ur_failed_batches ur <= total_batches (stats w')
  /\ manifest w' = manifest w.
Proof.
  unfold upsert_chunks in Hrun.
  destruct (plan_batches (BATCH_SIZE cfg) (map (set_model EMBED_MODEL) vectors))
    as [batches| |] eqn:Ep; cbn [bind] in Hrun; try discriminate.
  match type of Hrun with
  | context [run_batches _ _ _ _ _ ?w0] => set (w1 := w0) in *
  end.
  destruct (run_batches fuel cfg remote batches 0 w1) as [[results w2]| |] eqn:Er;
    cbn [bind] in Hrun; try discriminate.
  inversion Hrun; subst ur w'; clear Hrun.
  cbn [ur_total_vectors ur_vectors_uploaded ur_success ur_failed_batches].
  destruct (run_batches_accounted _ _ _ _ _ _ _ _ Er)
    as (L & M & Z0 & Hm & Tv & Tb).
  fold (failing results) in *.
  pose proof (failing_nonneg results) as Hn.
  pose proof (failing_at_most results) as Hle.
  assert (F0 : batches_failed (stats w1) = 0) by reflexivity.
  assert (Hlen : len results = len batches) by (unfold len; now rewrite L).
  rewrite Tv, Tb. subst w1.
  cbn [set_stats stats total_vectors total_batches manifest] in *.
  repeat split; try lia.
  - unfold len. now rewrite length_map.
  - exact Hm.
Qed.

Lemma upsert_chunks_summary_witness :
  exists ur w',
    upsert_chunks 4 default_config partial_store
      (sample_vectors 3 ++ [set_model (lit "m") sample_vector]) world0
      = Ret (ur, w')
    /\ ur_total_vectors ur
       = len (sample_vectors 3 ++ [set_model (lit "m") sample_vector])
    /\ ur_vectors_uploaded ur = vectors_uploaded (stats w')
    /\ (ur_success ur = true <-> ur_failed_batches ur = 0)
    /\ (ur_success ur = true <-> batches_failed (stats w') = 0)
    /\ 0 <= ur_failed_batches ur <= batches_failed (stats w')
    /\ ur_failed_batches ur <= total_batches (stats w')
    /\ manifest w' = manifest world0.
Proof.
  destruct (upsert_chunks 4 default_config partial_store
              (sample_vectors 3 ++ [set_model (lit "m") sample_vector]) world0)
    as [[ur w']| |] eqn:E.
  - exists ur, w'. split; [reflexivity|].
    apply (upsert_chunks_summary 4 default_config partial_store _ world0 ur w' E).
  - vm_compute in E. discriminate.
  - vm_compute in E. discriminate.
Defined.

(** ** A whole upload to a store with a payload limit *)

Lemma plan_batches_concat {A} (records : list A) (batch_size : Z) :
  0 < batch_size ->
  exists batches,
    plan_batches batch_size records = Ret batches
    /\ concat batches = records.
Proof.
  intros positive. unfold plan_batches, range_step.
  destruct (Z.eqb_spec batch_size 0); [lia|].
  destruct (Z.ltb_spec batch_size 0); [lia|].
  eexists. split; [reflexivity|].
  pose proof (len_nonneg records) as Hn.
  set (q := (len records + batch_size - 1) / batch_size).
  assert (Hq1 : batch_size * q <= len records + batch_size - 1)
    by (apply Z.mul_div_le; lia).
  assert (Hq2 : len records + batch_size - 1 < batch_size * Z.succ q)
    by (apply Z.mul_succ_div_gt; lia).
  assert (Hq0 : 0 <= q) by (apply Z.div_pos; lia).
  destruct (batches_from records batch_size positive (Z.to_nat q) 0)
    as [Hcat _]; [lia | rewrite Z2Nat.id by lia; lia|].
  exact Hcat.
Qed.

Lemma concat_member_length {A} (b : list A) bs :
  In b bs -> (length b <= length (concat bs))%nat.
Proof.
  induction bs as [|x bs IH]; [intros []|].
  intros [->|Hin]; cbn [concat]; rewrite length_app; [lia|].
  specialize (IH Hin). lia.
Qed.

Lemma run_batches_limited fuel cfg k :
  1 <= k -> 1 <= MAX_RETRIES cfg ->
  forall batches i w,
  Forall (fun b => (length b < fuel)%nat) batches ->
  exists results w' evs,
    run_batches fuel cfg (limited k) batches i w = Ret (results, w')
    /\ trace w' = trace w ++ evs
    /\ accepted_payloads evs = concat batches
    /\ failures_in evs = 0%nat
    /\ failing results = 0
    /\ vectors_uploaded (stats w')
       = vectors_uploaded (stats w) + len (concat batches)
    /\ total_vectors (stats w') = total_vectors (stats w).
Proof.
  intros Hk Hmax. induction batches as [|b rest IH]; intros i w Hfuel.
  - exists [], w, []. cbn. rewrite app_nil_r. repeat split; lia.
  - inversion Hfuel as [|? ? Hb Hrest]; subst.
    destruct (limited_delivers cfg k Hk Hmax fuel b (i + 1) w Hb)
      as (r & w1 & e1 & R1 & T1 & S1 & U1 & F1 & _ & P1).
    destruct (IH (i + 1) w1 Hrest)
      as (rs & w2 & e2 & R2 & T2 & P2 & F2 & G2 & V2 & Tv2).
    destruct (upload_batch_accounted _ _ _ _ _ _ _ _ R1)
      as [A1 A2 A3 A4 A5 A6 A7 A8 A9 A10].
    exists (r :: rs), w2, (e1 ++ e2).
    cbn [run_batches]. rewrite R1. cbn [bind]. rewrite R2. cbn [bind].
    split; [reflexivity|].
    rewrite T2, T1, <- app_assoc. split; [reflexivity|].
    rewrite accepted_payloads_app, P1, P2, failures_in_app, F1, F2.
    rewrite failing_cons, S1, G2.
    cbn [concat]. rewrite len_app. repeat split; try lia; congruence.
Qed.

(** With a positive batch size and a store that takes at most
    [k >= 1] records in a payload, [upsert_chunks] returns, and every
    record, with the embedding model set, is accepted exactly once and
    in order; the summary is a success with no failed batch and all
    the vectors uploaded. *)
Theorem upsert_chunks_delivers_all (cfg : Config) (k : Z) (fuel : nat)
    (vectors : list Vector) (w : World)
    (positive : 0 < BATCH_SIZE cfg) (retries : 1 <= MAX_RETRIES cfg)
    (limit : 1 <= k) (enough : (length vectors < fuel)%nat) :
  exists ur w' evs,
    upsert_chunks fuel cfg (limited k) vectors w = Ret (ur, w')
    /\ trace w' = trace w ++ evs
    /\ accepted_payloads evs = map (set_model EMBED_MODEL) vectors
    /\ failures_in evs = 0%nat
    /\ ur_success ur = true /\ ur_failed_batches ur = 0
    /\ ur_vectors_uploaded ur = len vectors
    /\ ur_total_vectors ur = len vectors.
Proof.
  unfold upsert_chunks.
  destruct (plan_batches_concat (map (set_model EMBED_MODEL) vectors)
              (BATCH_SIZE cfg) positive) as (batches & Hplan & Hcat).
  rewrite Hplan. cbn [bind].
  assert (Hsmall : Forall (fun b => (length b < fuel)%nat) batches).
  { apply Forall_forall. intros b Hb.
    pose proof (concat_member_length b batches Hb) as Hl.
    rewrite Hcat, length_map in Hl. lia. }
  match goal with
  | |- context [run_batches _ _ _ _ _ ?w0] => set (w1 := w0)
  end.
  destruct (run_batches_limited fuel cfg k limit retries batches 0 w1 Hsmall)
    as (results & w2 & evs & R & T & P & F & G & V & Tv).
  rewrite R. cbn [bind]. fold (failing results). rewrite G.
  eexists _, w2, evs. split; [reflexivity|].
  cbn [ur_success ur_failed_batches ur_vectors_uploaded ur_total_vectors].
  rewrite V, Tv, Hcat. subst w1.
  cbn [set_stats stats trace vectors_uploaded total_vectors] in *.
  assert (Hl : len (map (set_model EMBED_MODEL) vectors) = len vectors)
    by (unfold len; now rewrite length_map).
  repeat split; try assumption; try reflexivity; try lia.
  congruence.
Qed.

Lemma upsert_chunks_delivers_all_witness :
  exists ur w' evs,
    upsert_chunks 6 default_config (limited 2) (sample_vectors 5) world0
      = Ret (ur, w')
    /\ trace w' = trace world0 ++ evs
    /\ accepted_payloads evs = map (set_model EMBED_MODEL) (sample_vectors 5)
    /\ failures_in evs = 0%nat
    /\ ur_success ur = true /\ ur_failed_batches ur = 0
    /\ ur_vectors_uploaded ur = len (sample_vectors 5)
    /\ ur_total_vectors ur = len (sample_vectors 5).
Proof.
  apply (upsert_chunks_delivers_all default_config 2 6 (sample_vectors 5) world0).
  - vm_compute. reflexivity.
  - vm_compute. discriminate.
  - lia.
  - vm_compute. lia.
Defined.

(** ** The manifest keeps what it has *)

Lemma str_eqb_eq a b : str_eqb a b = true <-> a = b.
Proof.
  unfold str_eqb. destruct (list_eq_dec N.eq_dec a b); split;
    congruence || discriminate.
Qed.

Lemma str_eqb_neq a b : a <> b -> str_eqb a b = false.
Proof.
  intros H. destruct (str_eqb a b) eqn:E; [|reflexivity].
  now apply str_eqb_eq in E.
Qed.

Lemma str_eqb_refl a : str_eqb a a = true.
Proof. now apply str_eqb_eq. Qed.

Lemma dict_get_append_same {V} k (x : V) d :
  dict_get k (dict_append k x d) =
  Some (match dict_get k d with Some xs => xs | None => [] end ++ [x]).
Proof.
  induction d as [|[k' xs] d IH]; cbn [dict_append dict_get].
  - now rewrite str_eqb_refl.
  - destruct (str_eqb k k') eqn:E; cbn [dict_get]; rewrite E; [reflexivity|].
    exact IH.
Qed.

Lemma dict_get_append_other {V} k g (x : V) d :
  g <> k -> dict_get g (dict_append k x d) = dict_get g d.
Proof.
  intros Hne. induction d as [|[k' xs] d IH]; cbn [dict_append dict_get].
  - now rewrite (str_eqb_neq g k Hne).
  - destruct (str_eqb k k') eqn:E; cbn [dict_get].
    + apply str_eqb_eq in E. subst k'. now rewrite (str_eqb_neq g k Hne).
    + now rewrite IH.
Qed.

Lemma update_manifest_same file_name chunks w :
  manifest_entries file_name (manifest (update_manifest file_name chunks w))
  = manifest_entries file_name (manifest w)
    ++ [{| me_chunks := chunks; me_last_updated := clock w |}].
Proof.
  cbn [update_manifest log manifest manifest_entries].
  rewrite dict_get_append_same. now destruct (manifest w).
Qed.

Lemma update_manifest_other file_name chunks w other :
  other <> file_name ->
  manifest_entries other (manifest (update_manifest file_name chunks w))
  = manifest_entries other (manifest w).
Proof.
  intros Hne. cbn [update_manifest log manifest manifest_entries].
  rewrite dict_get_append_other by assumption. now destruct (manifest w).
Qed.

(** [update_manifest] only appends: the file gets one more entry
    after those it had, with the chunk count given, and the entries of
    every other file stay as they were. This holds whether the
    manifest file existed or not. *)
Theorem update_manifest_appends (file_name : str) (chunks : Z) (w : World) :
  manifest_entries file_name (manifest (update_manifest file_name chunks w))
    = manifest_entries file_name (manifest w)
      ++ [{| me_chunks := chunks; me_last_updated := clock w |}]
  /\ forall other, other <> file_name ->
       manifest_entries other (manifest (update_manifest file_name chunks w))
       = manifest_entries other (manifest w).
Proof.
  split; [apply update_manifest_same|].
  intros other Hne. now apply update_manifest_other.
Qed.

Lemma update_manifest_appends_witness :
  manifest_entries (lit "a.pdf")
    (manifest (update_manifest (lit "a.pdf") 3
                 (update_manifest (lit "b.pdf") 5 world0)))
  = manifest_entries (lit "a.pdf")
      (manifest (update_manifest (lit "b.pdf") 5 world0))
    ++ [{| me_chunks := 3; me_last_updated := 0 |}]
  /\ manifest_entries (lit "b.pdf")
       (manifest (update_manifest (lit "a.pdf") 3
                    (update_manifest (lit "b.pdf") 5 world0)))
     = manifest_entries (lit "b.pdf")
         (manifest (update_manifest (lit "b.pdf") 5 world0)).
Proof.
  destruct (update_manifest_appends (lit "a.pdf") 3
              (update_manifest (lit "b.pdf") 5 world0)) as [H1 H2].
  split; [exact H1|]. apply H2. discriminate.
Defined.

(** ** Files that give nothing *)

Lemma extract_all_unreadable fuel cfg tokens files :
  forallb unreadable files = true ->
  forall all_vectors counts results w,
  extract_all fuel cfg tokens files all_vectors counts results w
  = Ret (all_vectors, counts, results ++ map verdict files, w).
Proof.
  induction files as [|f rest IH]; intros Hall all_vectors counts results w.
  - cbn. now rewrite app_nil_r.
  - cbn [forallb] in Hall. apply andb_true_iff in Hall. destruct Hall as [Hf Hrest].
    cbn [extract_all map]. unfold unreadable, verdict in *.
    destruct (extract_pdf_text f) as [e|[|p ps]]; try discriminate;
      rewrite IH by assumption; now rewrite <- app_assoc.
Qed.

(** When no file gives a page with text (reading it raises, or its
    pages are blank), the run returns without a post and without
    touching the manifest, whatever the fuel, and its results hold one
    entry per file, in order: the error for a file that could not be
    read, "no text" for the others. *)
Theorem nothing_to_upload (fuel : nat) (cfg : Config) (remote : Remote)
    (tokens : Tokens) (files : list UploadedFile) (w : World)
    (Hnone : forallb unreadable files = true) :
  process_and_upload_pdfs fuel cfg remote tokens files w
  = Ret (map verdict files, w).
Proof.
  unfold process_and_upload_pdfs.
  rewrite extract_all_unreadable by assumption. reflexivity.
Qed.

Lemma nothing_to_upload_witness :
  process_and_upload_pdfs 0 default_config accepting tokens0
    [broken_file; blank_file] world0
  = Ret ([Errored (lit "broken.pdf") (lit "EOF marker not found");
          Skipped (lit "blank.pdf") (lit "no text")], world0).
Proof.
  apply (nothing_to_upload 0 default_config accepting tokens0
           [broken_file; blank_file] world0).
  reflexivity.
Defined.

(** ** The pages of the extractor *)

Lemma remove_char_absent c s : ~ In c (remove_char c s).
Proof.
  unfold remove_char. intros H. apply filter_In in H. destruct H as [_ H].
  now rewrite N.eqb_refl in H.
Qed.

Lemma extract_pages_bounds raw :
  forall i p, In p (extract_pages raw i) ->
  i <= page p < i + len raw
  /\ solid_ends (page_text p)
  /\ ~ In 0%N (page_text p).
Proof.
  induction raw as [|r raw IH]; intros i p Hin; [destruct Hin|].
  cbn [extract_pages] in Hin.
  assert (Hlen : len (r :: raw) = 1 + len raw) by (unfold len; cbn [length]; lia).
  pose proof (len_nonneg raw) as Hn.
  set (t := strip (remove_char 0%N (match r with Some t => t | None => [] end))) in *.
  assert (Hrest : In p (extract_pages raw (i + 1)) ->
            i <= page p < i + len (r :: raw)
            /\ solid_ends (page_text p) /\ ~ In 0%N (page_text p)).
  { intros H. destruct (IH _ _ H) as (B & S & Z0).
    split; [lia|]. now split. }
  destruct (truthy t) eqn:Et; [|now apply Hrest].
  destruct Hin as [<-|Hin]; [|now apply Hrest].
  cbn [page page_text]. split; [lia|]. split.
  - subst t. destruct (strip_ends (remove_char 0%N
                         (match r with Some t => t | None => [] end))) as [E|E];
      [rewrite E in Et; discriminate | exact E].
  - intros H0. subst t. apply strip_In in H0.
    now apply remove_char_absent in H0.
Qed.

Lemma extract_pages_increasing raw :
  forall i, increasing (map page (extract_pages raw i)).
Proof.
  induction raw as [|r raw IH]; intros i; [exact I|].
  cbn [extract_pages].
  destruct (truthy _); [|apply IH].
  cbn [map page]. specialize (IH (i + 1)).
  destruct (extract_pages raw (i + 1)) as [|q rest] eqn:E; [exact I|].
  cbn [map increasing]. split; [|exact IH].
  destruct (extract_pages_bounds raw (i + 1) q) as [B _];
    [rewrite E; now left | lia].
Qed.

(** The pages [extract_pdf_text] keeps have text that is not empty,
    has no white space at either end and no NUL character; their
    numbers are positions in the document, counted from 1, and they
    come in strictly increasing order. *)
Theorem extract_pdf_text_pages (f : UploadedFile) (raw : list (option str))
    (pages : list Page)
    (Hraw : content f = inr raw)
    (Hpages : extract_pdf_text f = inr pages) :
  Forall (fun p => 1 <= page p <= len raw
                   /\ solid_ends (page_text p)
                   /\ ~ In 0%N (page_text p)) pages
  /\ increasing (map page pages).
Proof.
  unfold extract_pdf_text in Hpages. rewrite Hraw in Hpages.
  inversion Hpages; subst pages; clear Hpages. split.
  - apply Forall_forall. intros p Hp.
    destruct (extract_pages_bounds raw 1 p Hp) as (B & S & Z0).
    split; [lia|]. now split.
  - apply extract_pages_increasing.
Qed.

Lemma extract_pdf_text_pages_witness :
  Forall (fun p => 1 <= page p <= len [Some (lit " a "); None; Some (lit "b")]
                   /\ solid_ends (page_text p)
                   /\ ~ In 0%N (page_text p))
    [{| page := 1; page_text := lit "a" |}; {| page := 3; page_text := lit "b" |}]
  /\ increasing (map page
       [{| page := 1; page_text := lit "a" |}; {| page := 3; page_text := lit "b" |}]).
Proof.
  apply (extract_pdf_text_pages
           {| name := lit "x.pdf";
              content := inr [Some (lit " a "); None; Some (lit "b")] |}
           [Some (lit " a "); None; Some (lit "b")]).
  - reflexivity.
  - reflexivity.
Defined.

(** ** The records of a file *)

Lemma forallb_app_true {A} (P : A -> bool) a b :
  forallb P a = true -> forallb P b = true -> forallb P (a ++ b) = true.
Proof. intros Ha Hb. rewrite forallb_app, Ha, Hb. reflexivity. Qed.

Lemma str_of_Z_id_chars n : forallb id_char (str_of_Z n) = true.
Proof.
  apply str_of_Z_chars. intros c Hc.
  repeat (destruct Hc as [<-|Hc]; [reflexivity|]). destruct Hc.
Qed.

Section Records.
Variables (tokens : Tokens) (safe_file file : str).
Hypothesis hex_tokens : forall n, forallb id_char (tokens n) = true.
Hypothesis safe : forallb id_char safe_file = true.

Lemma chunk_vectors_records pg chunks :
  forall idx w, 0 <= idx ->
  Forall (fun c => truthy c = true) chunks ->
  let (vs, w') := chunk_vectors tokens safe_file file pg chunks idx w in
  Forall (well_formed_record file) vs
  /\ map v_text vs = chunks
  /\ uuids w' = (uuids w + length vs)%nat
  /\ trace w' = trace w
  /\ manifest w' = manifest w.
Proof.
  induction chunks as [|c rest IH]; intros idx w Hidx Hc.
  - cbn. repeat split; try constructor; lia.
  - inversion Hc as [|? ? Hc1 Hc2]; subst.
    cbn [chunk_vectors draw].
    match goal with
    | |- context [chunk_vectors _ _ _ _ _ _ ?w1] =>
        specialize (IH (idx + 1) w1 ltac:(lia) Hc2);
        destruct (chunk_vectors tokens safe_file file pg rest (idx + 1) w1)
          as [vs w2]
    end.
    destruct IH as (Hwf & Ht & Hu & Htr & Hm).
    cbn [uuids trace manifest] in Hu, Htr, Hm.
    repeat split; try assumption.
    + constructor; [|exact Hwf].
      unfold well_formed_record. cbn [v_id v_text v_metadata md_file md_source md_chunk].
      repeat split; try assumption; try reflexivity.
      repeat apply forallb_app_true; try reflexivity;
        auto using str_of_Z_id_chars.
    + cbn [map v_text]. now rewrite Ht.
    + cbn [length]. lia.
Qed.

Lemma filter_truthy_all (l : list str) :
  Forall (fun c => truthy c = true) (filter truthy l).
Proof.
  apply Forall_forall. intros c Hc. now apply filter_In in Hc.
Qed.

Lemma chunk_text_truthy fuel text size overlap chunks :
  chunk_text fuel text size overlap = Some chunks ->
  Forall (fun c => truthy c = true) chunks.
Proof.
  unfold chunk_text.
  destruct (chunk_text_loop fuel text size overlap 0 []); [|discriminate].
  intros H. inversion H; subst. apply filter_truthy_all.
Qed.

Lemma file_vectors_records fuel cfg pages :
  forall w vs w',
  file_vectors fuel cfg tokens safe_file file pages w = Ret (vs, w') ->
  Forall (well_formed_record file) vs
  /\ uuids w' = (uuids w + length vs)%nat
  /\ trace w' = trace w
  /\ manifest w' = manifest w.
Proof.
  induction pages as [|p rest IH]; intros w vs w' H.
  - inversion H; subst. repeat split; try constructor; cbn; lia.
  - cbn [file_vectors] in H.
    destruct (chunk_text fuel (page_text p) (CHUNK_SIZE cfg) (CHUNK_OVERLAP cfg))
      as [chunks|] eqn:Ec; [|discriminate].
    pose proof (chunk_vectors_records (page p) chunks 0 w ltac:(lia)
                  (chunk_text_truthy _ _ _ _ _ Ec)) as Hcv.
    destruct (chunk_vectors tokens safe_file file (page p) chunks 0 w)
      as [vs1 w1].
    destruct Hcv as (Hwf & _ & Hu & Htr & Hm).
    destruct (file_vectors fuel cfg tokens safe_file file rest w1)
      as [[vs2 w2]| |] eqn:E2; cbn [bind] in H; try discriminate.
    inversion H; subst; clear H.
    destruct (IH _ _ _ E2) as (Hwf2 & Hu2 & Htr2 & Hm2).
    rewrite length_app. repeat split; try congruence; try lia.
    apply Forall_app. now split.
Qed.

End Records.

(** When the random tokens are made of characters of [[a-zA-Z0-9_-]],
    as the hexadecimal tokens of [uuid4] are, every record built for a
    file has an identifier made of such characters only, a text that
    is not empty, the name of the file as given in its metadata, and
    the source tag ["pdf_upload"]; building the records draws one
    token per record and has no other effect. *)
Theorem records_well_formed (fuel : nat) (cfg : Config) (tokens : Tokens)
    (file : str) (pages : list Page) (w : World)
    (vs : list Vector) (w' : World)
    (hex_tokens : forall n, forallb id_char (tokens n) = true)
    (Hrun : file_vectors fuel cfg tokens (sanitize_id file) file pages w
            = Ret (vs, w')) :
  Forall (well_formed_record file) vs
  /\ uuids w' = (uuids w + length vs)%nat
  /\ trace w' = trace w
  /\ manifest w' = manifest w.
Proof.
  apply (file_vectors_records tokens (sanitize_id file) file hex_tokens
           (ChunkerFacts.sanitize_id_class file) fuel cfg pages w vs w' Hrun).
Qed.

Lemma records_well_formed_witness :
  exists vs w',
    file_vectors 6 default_config tokens0 (sanitize_id (lit "my file.pdf"))
      (lit "my file.pdf")
      [{| page := 1; page_text := lit "alpha" |};
       {| page := 4; page_text := lit "beta" |}] world0 = Ret (vs, w')
    /\ Forall (well_formed_record (lit "my file.pdf")) vs
    /\ uuids w' = (uuids world0 + length vs)%nat
    /\ trace w' = trace world0
    /\ manifest w' = manifest world0.
Proof.
  destruct (file_vectors 6 default_config tokens0 (sanitize_id (lit "my file.pdf"))
              (lit "my file.pdf")
              [{| page := 1; page_text := lit "alpha" |};
               {| page := 4; page_text := lit "beta" |}] world0)
    as [[vs w']| |] eqn:E.
  - exists vs, w'. split; [reflexivity|].
    apply (records_well_formed 6 default_config tokens0 (lit "my file.pdf")
             [{| page := 1; page_text := lit "alpha" |};
              {| page := 4; page_text := lit "beta" |}] world0 vs w').
    + intros n. apply str_of_Z_id_chars.
    + exact E.
  - vm_compute in E. discriminate.
  - vm_compute in E. discriminate.
Defined.

(** ** Every page gives a record *)

Lemma file_vectors_one_per_page fuel cfg tokens safe_file file pages :
  0 <= CHUNK_OVERLAP cfg < CHUNK_SIZE cfg ->
  Forall (fun p => solid_ends (page_text p)
                   /\ (length (page_text p) < fuel)%nat) pages ->
  forall w, exists vs w',
    file_vectors fuel cfg tokens safe_file file pages w = Ret (vs, w')
    /\ (length pages <= length vs)%nat.
Proof.
  intros Hvalid. induction pages as [|p rest IH]; intros Hall w.
  - exists [], w. split; [reflexivity | cbn; lia].
  - inversion Hall as [|? ? [Hsolid Hfuel] Hrest]; subst.
    destruct Hsolid as (Hne & Hhead & Hlast).
    destruct (page_text p) as [|x t] eqn:Et; [congruence|].
    assert (Hx : isspace x = false) by (apply Hhead; reflexivity).
    destruct fuel as [|fuel]; [cbn in Hfuel; lia|].
    destruct (ChunkerFacts.chunk_spans_from_terminates (CHUNK_SIZE cfg)
                (CHUNK_OVERLAP cfg) Hvalid (len (x :: t)) (S fuel) 0)
      as [spans Hsp]; [lia | unfold len; lia|].
    assert (Hlen : 0 < len (x :: t)) by (unfold len; cbn [length]; lia).
    destruct (ChunkerFacts.chunk_spans_from_first (CHUNK_SIZE cfg)
                (CHUNK_OVERLAP cfg) (len (x :: t)) fuel 0 spans Hlen Hsp)
      as [more Hmore].
    cbn [file_vectors]. rewrite Et. unfold chunk_text.
    rewrite ChunkerFacts.chunk_text_loop_spans, Hsp, Hmore.
    cbn [option_map app map].
    assert (Hw : exists u, window (x :: t)
                   (0, Z.min (0 + CHUNK_SIZE cfg) (len (x :: t))) = x :: u).
    { unfold window. cbn [fst snd]. rewrite slice_inside by lia.
      cbn [Z.to_nat skipn]. rewrite Z.sub_0_r.
      destruct (Z.to_nat (Z.min (0 + CHUNK_SIZE cfg) (len (x :: t))))
        as [|k] eqn:Ek; [lia|].
      cbn [firstn]. now eexists. }
    destruct Hw as [u Hw]. rewrite Hw, (strip_keeps_head x u Hx).
    cbn [filter truthy chunk_vectors draw].
    match goal with
    | |- context [chunk_vectors ?a ?b ?c ?d ?e ?f ?g] =>
        destruct (chunk_vectors a b c d e f g) as [vs1 w1]
    end.
    destruct (IH Hrest w1) as (vs2 & w2 & R2 & L2).
    rewrite R2. cbn [bind]. eexists _, w2. split; [reflexivity|].
    cbn [app length]. rewrite length_app. lia.
Qed.

(** With [0 <= overlap < size], a file whose extraction gave pages
    always gives records, at least one per page: the pipeline's "no
    chunks" verdict cannot be reached with the constants it is
    shipped with. *)
Theorem extracted_pages_give_records (fuel : nat) (cfg : Config)
    (tokens : Tokens) (safe_file file : str) (raw : list (option str))
    (w : World)
    (valid : 0 <= CHUNK_OVERLAP cfg < CHUNK_SIZE cfg)
    (enough : Forall (fun p => (length (page_text p) < fuel)%nat)
                (extract_pages raw 1)) :
  exists vs w',
    file_vectors fuel cfg tokens safe_file file (extract_pages raw 1) w
      = Ret (vs, w')
    /\ (length (extract_pages raw 1) <= length vs)%nat.
Proof.
  apply file_vectors_one_per_page; [exact valid|].
  apply Forall_forall. intros p Hp. split.
  - now destruct (extract_pages_bounds raw 1 p Hp) as (_ & S & _).
  - rewrite Forall_forall in enough. now apply enough.
Qed.

Lemma extracted_pages_give_records_witness :
  exists vs w',
    file_vectors 6 default_config tokens0 (lit "x_pdf") (lit "x.pdf")
      (extract_pages [Some (lit " a "); None; Some (lit "b")] 1) world0
      = Ret (vs, w')
    /\ (length (extract_pages [Some (lit " a "); None; Some (lit "b")] 1)
        <= length vs)%nat.
Proof.
  apply (extracted_pages_give_records 6 default_config tokens0 (lit "x_pdf")
           (lit "x.pdf") [Some (lit " a "); None; Some (lit "b")] world0).
  - unfold default_config, Chunker.CHUNK_OVERLAP, Chunker.CHUNK_SIZE.
    cbn [CHUNK_OVERLAP CHUNK_SIZE]. lia.
  - vm_compute. repeat constructor.
Defined.

(** ** What a run does to the manifest *)

Lemma dict_set_keys {V} k (v : V) d g :
  In g (map fst (dict_set k v d)) <-> g = k \/ In g (map fst d).
Proof.
  induction d as [|[k' v'] d IH]; cbn [dict_set map fst In].
  - intuition congruence.
  - destruct (str_eqb k k') eqn:E; cbn [map fst In].
    + apply str_eqb_eq in E. subst k'. split; intros H; intuition congruence.
    + rewrite IH. tauto.
Qed.

Lemma dict_set_nodup {V} k (v : V) d :
  NoDup (map fst d) -> NoDup (map fst (dict_set k v d)).
Proof.
  induction d as [|[k' v'] d IH]; intros H; cbn [dict_set map fst].
  - constructor; [intros [] | constructor].
  - inversion H as [|? ? Hnot Hrest]; subst.
    destruct (str_eqb k k') eqn:E; cbn [map fst].
    + now constructor.
    + constructor; [|now apply IH].
      rewrite dict_set_keys. intros [->|Hin]; [|contradiction].
      now rewrite str_eqb_refl in E.
Qed.

Lemma dict_get_absent {V} k (d : list (str * V)) :
  ~ In k (map fst d) -> dict_get k d = None.
Proof.
  induction d as [|[k' v'] d IH]; intros H; [reflexivity|].
  cbn [dict_get]. cbn [map fst In] in H.
  rewrite str_eqb_neq by (intros ->; tauto). apply IH. tauto.
Qed.

Lemma chunk_vectors_manifest tokens safe_file file pg chunks :
  forall idx w,
  manifest (snd (chunk_vectors tokens safe_file file pg chunks idx w))
  = manifest w.
Proof.
  induction chunks as [|c rest IH]; intros idx w; [reflexivity|].
  cbn [chunk_vectors draw].
  match goal with
  | |- context [chunk_vectors ?a ?b ?c ?d ?e ?f ?g] =>
      specialize (IH f g); destruct (chunk_vectors a b c d e f g) as [vs w2]
  end.
  exact IH.
Qed.

Lemma file_vectors_manifest fuel cfg tokens safe_file file pages :
  forall w vs w',
  file_vectors fuel cfg tokens safe_file file pages w = Ret (vs, w') ->
  manifest w' = manifest w.
Proof.
  induction pages as [|p rest IH]; intros w vs w' H.
  - now inversion H.
  - cbn [file_vectors] in H.
    destruct (chunk_text _ _ _ _) as [chunks|]; [|discriminate].
    pose proof (chunk_vectors_manifest tokens safe_file file (page p) chunks 0 w)
      as Hm.
    destruct (chunk_vectors tokens safe_file file (page p) chunks 0 w)
      as [vs1 w1].
    destruct (file_vectors fuel cfg tokens safe_file file rest w1)
      as [[vs2 w2]| |] eqn:E2; cbn [bind] in H; try discriminate.
    inversion H; subst. rewrite (IH _ _ _ E2). exact Hm.
Qed.

Lemma extract_all_books fuel cfg tokens files :
  forall all_vectors counts results w all_vectors' counts' results' w',
  NoDup (map fst counts) ->
  extract_all fuel cfg tokens files all_vectors counts results w
    = Ret (all_vectors', counts', results', w') ->
  NoDup (map fst counts') /\ manifest w' = manifest w.
Proof.
  induction files as [|f rest IH];
    intros all_vectors counts results w av' counts' results' w' Hnd H.
  - inversion H; subst. now split.
  - cbn [extract_all] in H.
    destruct (extract_pdf_text f) as [e|[|p ps]].
    + eapply IH; eassumption.
    + eapply IH; eassumption.
    + destruct (file_vectors fuel cfg tokens (sanitize_id (name f)) (name f)
                  (p :: ps) w) as [[vs w1]| |] eqn:Ef;
        cbn [bind] in H; try discriminate.
      pose proof (file_vectors_manifest _ _ _ _ _ _ _ _ _ Ef) as Hm.
      destruct (truthy vs).
      * destruct (IH _ _ _ _ _ _ _ _ (dict_set_nodup _ _ _ Hnd) H) as [N M].
        split; [exact N | congruence].
      * destruct (IH _ _ _ _ _ _ _ _ Hnd H) as [N M].
        split; [exact N | congruence].
Qed.

Lemma manifest_stage_entries ur counts :
  NoDup (map fst counts) ->
  forall results w file,
  manifest_entries file (manifest (snd (manifest_stage ur counts results w)))
  = manifest_entries file (manifest w)
    ++ (if ur_success ur || (0 <? ur_vectors_uploaded ur)
        then match dict_get file counts with
             | Some c => [{| me_chunks := c; me_last_updated := clock w |}]
             | None => []
             end
        else []).
Proof.
  induction counts as [|[k c] rest IH]; intros Hnd results w file.
  - cbn. destruct (_ || _); now rewrite app_nil_r.
  - inversion Hnd as [|? ? Hnot Hrest]; subst.
    cbn [manifest_stage].
    destruct (ur_success ur || (0 <? ur_vectors_uploaded ur)) eqn:G.
    + rewrite IH by assumption. rewrite ?G.
      cbn [dict_get clock update_manifest log].
      destruct (str_eqb file k) eqn:E.
      * apply str_eqb_eq in E. subst file.
        rewrite update_manifest_same, (dict_get_absent k rest Hnot), app_nil_r.
        reflexivity.
      * rewrite update_manifest_other; [reflexivity|].
        intros ->. now rewrite str_eqb_refl in E.
    + rewrite IH by assumption. now rewrite ?G.
Qed.

(** A run that returns leaves the manifest as it was, or with entries
    added: for every file name, the entries the manifest held are
    still there, in front and unchanged, and at most one entry has
    been added after them. *)
Theorem run_keeps_manifest_entries (fuel : nat) (cfg : Config)
    (remote : Remote) (tokens : Tokens) (files : list UploadedFile)
    (w : World) (results : list FileResult) (w' : World) (file : str)
    (Hrun : process_and_upload_pdfs fuel cfg remote tokens files w
            = Ret (results, w')) :
  exists added,
    manifest_entries file (manifest w')
    = manifest_entries file (manifest w) ++ added
    /\ (length added <= 1)%nat.
Proof.
  unfold process_and_upload_pdfs in Hrun.
  destruct (extract_all fuel cfg tokens files [] [] [] w)
    as [[[[all_vectors counts] results1] w1]| |] eqn:E1;
    cbn [bind] in Hrun; try discriminate.
  destruct (extract_all_books fuel cfg tokens files [] [] [] w
              all_vectors counts results1 w1 (NoDup_nil _) E1)
    as [Hnd Hm1].
  destruct (truthy all_vectors).
  - destruct (upsert_chunks fuel cfg remote all_vectors w1)
      as [[ur w2]| |] eqn:E2; cbn [bind] in Hrun; try discriminate.
    assert (Hm2 : manifest w2 = manifest w1).
    { unfold upsert_chunks in E2.
      destruct (plan_batches _ _) as [batches| |]; cbn [bind] in E2;
        try discriminate.
      destruct (run_batches _ _ _ _ _ _) as [[rs w3]| |] eqn:Er;
        cbn [bind] in E2; try discriminate.
      inversion E2; subst.
      now destruct (run_batches_accounted _ _ _ _ _ _ _ _ Er)
        as (_ & _ & _ & Hm & _). }
    inversion Hrun as [Hpair].
    pose proof (manifest_stage_entries ur counts Hnd results1 w2 file) as Hst.
    rewrite Hpair in Hst. cbn [snd] in Hst.
    rewrite Hst, Hm2, Hm1. eexists. split; [reflexivity|].
    destruct (_ || _); [|cbn; lia].
    destruct (dict_get file counts); cbn; lia.
  - inversion Hrun; subst. exists []. rewrite app_nil_r, Hm1.
    split; [reflexivity | cbn; lia].
Qed.

Lemma run_keeps_manifest_entries_witness :
  exists results w' added,
    process_and_upload_pdfs 2 default_config accepting tokens0
      [one_page "a.pdf" "alpha"; one_page "a.pdf" "again"]
      (update_manifest (lit "a.pdf") 7 world0) = Ret (results, w')
    /\ manifest_entries (lit "a.pdf") (manifest w')
       = manifest_entries (lit "a.pdf")
           (manifest (update_manifest (lit "a.pdf") 7 world0)) ++ added
    /\ (length added <= 1)%nat.
Proof.
  destruct (process_and_upload_pdfs 2 default_config accepting tokens0
              [one_page "a.pdf" "alpha"; one_page "a.pdf" "again"]
              (update_manifest (lit "a.pdf") 7 world0))
    as [[results w']| |] eqn:E.
  - destruct (run_keeps_manifest_entries 2 default_config accepting tokens0
                [one_page "a.pdf" "alpha"; one_page "a.pdf" "again"]
                (update_manifest (lit "a.pdf") 7 world0) results w'
                (lit "a.pdf") E) as (added & H1 & H2).
    exists results, w', added. split; [reflexivity|]. now split.
  - vm_compute in E. discriminate.
  - vm_compute in E. discriminate.
Defined.

End UploaderFacts.

(* ===================================================================== *)
(** * Facts on the statistics under concurrent workers *)
(* ===================================================================== *)

Module TrackerFacts.
Import Py Uploader Tracker Samples.

(** ** Lists of workers *)

Lemma sum_over_app f a b : sum_over f (a ++ b) = sum_over f a + sum_over f b.
Proof.
  induction a as [|w a IH]; simpl; [reflexivity|]. rewrite IH. lia.
Qed.

Lemma count_inside_app a b :
  count_inside (a ++ b) = (count_inside a + count_inside b)%nat.
Proof. unfold count_inside. now rewrite filter_app, length_app. Qed.

Lemma count_inside_cons w l :
  count_inside (w :: l) = ((if inside w then 1 else 0) + count_inside l)%nat.
Proof. unfold count_inside. simpl. now destruct (inside w). Qed.

Lemma update_middle {A} (l1 : list A) w x l2 :
  update (length l1) x (l1 ++ w :: l2) = l1 ++ x :: l2.
Proof. induction l1 as [|y l1 IH]; simpl; [reflexivity | now rewrite IH]. Qed.

(** A worker outside the lock holds no register: it is coherent with
    any value of the shared fields. *)
Lemma outside_coherent s l :
  count_inside l = 0%nat -> Forall (coherent s) l.
Proof.
  induction l as [|w l IH]; intros H; constructor.
  - rewrite count_inside_cons in H.
    unfold coherent. unfold inside in H.
    destruct (pc w); try exact I; simpl in H; lia.
  - apply IH. rewrite count_inside_cons in H. lia.
Qed.

(** ** One step of one worker *)

(** A step keeps, for each counter, the sum of what the counter holds
    and what the worker owes; it keeps the worker coherent; and the
    lock is held after the step exactly when the worker is inside. *)
Lemma step_worker_sound s lk w s' lk' w' :
  step_worker s lk w = Some (s', lk', w') ->
  coherent s w ->
  (inside w = true -> lk = true) ->
  vectors_uploaded s' + owes_uploaded w' = vectors_uploaded s + owes_uploaded w
  /\ batches_completed s' + owes_completed w' = batches_completed s + owes_completed w
  /\ batches_failed s' + owes_failed w' = batches_failed s + owes_failed w
  /\ coherent s' w'
  /\ lk' = inside w'
  /\ (inside w = false -> lk = false).
Proof.
  destruct w as [p ops]. unfold step_worker. cbn [todo pc].
  destruct ops as [|op rest]; [discriminate|].
  intros Hstep Hcoh Hlock.
  destruct p, op; cbn [coherent pc todo] in Hcoh; try contradiction;
    try discriminate;
    try (destruct lk; [discriminate|]);
    inversion Hstep; subst; clear Hstep;
    unfold owes_uploaded, owes_completed, owes_failed, coherent, inside;
    cbn [pc todo total fold_right adds_uploaded adds_completed adds_failed
         with_uploaded with_completed with_failed with_time
         vectors_uploaded batches_completed batches_failed];
    repeat split; try reflexivity; try lia; try discriminate;
    try (intros _; apply Hlock; reflexivity);
    try (apply Hlock; reflexivity);
    try (unfold total; lia).
Qed.

(** ** The invariant *)

Lemma invariant_step u c f i st :
  invariant u c f st -> invariant u c f (step i st).
Proof.
  intros Hinv. unfold step.
  destruct (nth_error (workers st) i) as [w|] eqn:Enth; [|exact Hinv].
  destruct (step_worker (shared st) (locked st) w) as [[[s' lk'] w']|] eqn:Estep;
    [|exact Hinv].
  destruct (nth_error_split _ _ Enth) as (l1 & l2 & Hsplit & Hlen).
  destruct Hinv as [Hu Hc Hf Hlock Hcoh].
  rewrite Hsplit in *. subst i. rewrite update_middle.
  rewrite count_inside_app, count_inside_cons in Hlock.
  pose proof (Forall_elt _ _ _ Hcoh) as Hw.
  assert (Hheld : inside w = true -> locked st = true).
  { intros Hin. rewrite Hin in Hlock. destruct (locked st); [reflexivity | lia]. }
  destruct (step_worker_sound _ _ _ _ _ _ Estep Hw Hheld)
    as (Su & Sc & Sf & Scoh & Slk & Sfree).
  assert (Hothers : count_inside l1 = 0%nat /\ count_inside l2 = 0%nat).
  { destruct (inside w) eqn:Hin.
    - destruct (locked st); lia.
    - rewrite (Sfree eq_refl) in Hlock. lia. }
  destruct Hothers as [H1 H2].
  rewrite !sum_over_app in *. cbn [sum_over fold_right] in *.
  constructor; cbn [shared locked workers].
  - rewrite !sum_over_app. cbn [sum_over fold_right]. fold (sum_over owes_uploaded l2).
    fold (sum_over owes_uploaded l2) in Hu. lia.
  - rewrite !sum_over_app. cbn [sum_over fold_right]. fold (sum_over owes_completed l2).
    fold (sum_over owes_completed l2) in Hc. lia.
  - rewrite !sum_over_app. cbn [sum_over fold_right]. fold (sum_over owes_failed l2).
    fold (sum_over owes_failed l2) in Hf. lia.
  - rewrite count_inside_app, count_inside_cons, H1, H2, Slk.
    now destruct (inside w').
  - apply Forall_app. split; [now apply outside_coherent|].
    constructor; [exact Scoh | now apply outside_coherent].
Qed.

Lemma invariant_exec u c f schedule :
  forall st, invariant u c f st -> invariant u c f (exec schedule st).
Proof.
  unfold exec. induction schedule as [|i rest IH]; intros st Hinv; [exact Hinv|].
  simpl. apply IH. now apply invariant_step.
Qed.

Lemma owes_at_start (g : Op -> Z) (owes : Worker -> Z) programs :
  (forall ops, owes {| pc := Outside; todo := ops |} = total g ops) ->
  sum_over owes (map (fun ops => {| pc := Outside; todo := ops |}) programs)
  = total_all g programs.
Proof.
  intros H. induction programs as [|ops rest IH]; [reflexivity|].
  cbn [map sum_over fold_right total_all].
  fold (sum_over owes (map (fun ops => {| pc := Outside; todo := ops |}) rest)).
  fold (total_all g rest). now rewrite H, IH.
Qed.

Lemma invariant_start s programs :
  invariant (vectors_uploaded s + total_all adds_uploaded programs)
            (batches_completed s + total_all adds_completed programs)
            (batches_failed s + total_all adds_failed programs)
            (start s programs).
Proof.
  constructor; cbn [start shared locked workers].
  - now rewrite (owes_at_start adds_uploaded).
  - now rewrite (owes_at_start adds_completed).
  - now rewrite (owes_at_start adds_failed).
  - unfold count_inside. induction programs; [reflexivity | exact IHprograms].
  - apply Forall_forall. intros w Hin. apply in_map_iff in Hin.
    destruct Hin as (ops & <- & _). exact I.
Qed.

(** A worker that has made all its calls owes nothing. *)
Lemma finished_owes_nothing (g : Op -> Z) (owes : Worker -> Z) ws :
  (forall p, owes {| pc := p; todo := [] |} = 0) ->
  Forall (fun w => todo w = []) ws -> sum_over owes ws = 0.
Proof.
  intros H. induction 1 as [|w ws Hw _ IH]; [reflexivity|].
  cbn [sum_over fold_right]. fold (sum_over owes ws).
  destruct w as [p ops]. cbn [todo] in Hw. subst ops. rewrite H, IH. reflexivity.
Qed.

(** C9. Workers that call [record_batch_complete] and
    [record_batch_failed] on one [UploadStats], each call taking the
    lock around its reads and writes, lose no update: in whatever
    order the scheduler lets them move, once all the calls are made
    [batches_completed] has grown by the number of
    [record_batch_complete] calls, [batches_failed] by the number of
    [record_batch_failed] calls, and [vectors_uploaded] by the sum of
    the vector counts of the calls. *)
Theorem no_lost_update (s : UploadStats) (programs : list (list Op))
    (schedule : list nat)
    (Hdone : finished (exec schedule (start s programs))) :
  let final := shared (exec schedule (start s programs)) in
  batches_completed final = batches_completed s + total_all adds_completed programs
  /\ batches_failed final = batches_failed s + total_all adds_failed programs
  /\ vectors_uploaded final = vectors_uploaded s + total_all adds_uploaded programs.
Proof.
  pose proof (invariant_exec _ _ _ schedule _ (invariant_start s programs))
    as [Hu Hc Hf _ _].
  unfold finished in Hdone. cbv zeta.
  rewrite (finished_owes_nothing adds_uploaded) in Hu;
    [|intros p; now destruct p | exact Hdone].
  rewrite (finished_owes_nothing adds_completed) in Hc;
    [|intros p; now destruct p | exact Hdone].
  rewrite (finished_owes_nothing adds_failed) in Hf;
    [|intros p; now destruct p | exact Hdone].
  lia.
Qed.

(** ** Some interleaving lets every call be made *)

Lemma exec_app a b st : exec (a ++ b) st = exec b (exec a st).
Proof. unfold exec. apply fold_left_app. Qed.

(** One call of the worker at position [length l1], alone on the
    processor, from a state where the lock is free. *)
Lemma exec_one_call s l1 op rest l2 :
  exec (repeat (length l1) (cost op))
    {| shared := s; locked := false; workers := l1 ++ idle (op :: rest) :: l2 |}
  = {| shared := apply_op op s; locked := false;
       workers := l1 ++ idle rest :: l2 |}.
Proof.
  assert (Hstep : forall s lk w,
    step (length l1) {| shared := s; locked := lk; workers := l1 ++ w :: l2 |}
    = match step_worker s lk w with
      | None => {| shared := s; locked := lk; workers := l1 ++ w :: l2 |}
      | Some (s', lk', w') =>
          {| shared := s'; locked := lk'; workers := l1 ++ w' :: l2 |}
      end).
  { intros s0 lk w. unfold step. cbn [workers shared locked].
    rewrite nth_error_app2, Nat.sub_diag by lia. cbn [nth_error].
    destruct (step_worker s0 lk w) as [[[s' lk'] w']|]; [|reflexivity].
    now rewrite update_middle. }
  destruct op; unfold exec, idle; cbn [cost repeat fold_left];
    repeat (rewrite Hstep; cbn [step_worker todo pc]); reflexivity.
Qed.

Lemma exec_solo l1 l2 ops :
  forall s, exists s',
  exec (solo (length l1) ops)
    {| shared := s; locked := false; workers := l1 ++ idle ops :: l2 |}
  = {| shared := s'; locked := false; workers := l1 ++ idle [] :: l2 |}.
Proof.
  induction ops as [|op rest IH]; intros s.
  - exists s. reflexivity.
  - destruct (IH (apply_op op s)) as [s' Hs'].
    exists s'. unfold solo in *. cbn [map concat].
    now rewrite exec_app, exec_one_call.
Qed.

Lemma exec_serial programs :
  forall done s, exists s',
  exec (serial_from (length done) programs)
    {| shared := s; locked := false; workers := done ++ map idle programs |}
  = {| shared := s'; locked := false;
       workers := done ++ map (fun _ => idle []) programs |}.
Proof.
  induction programs as [|ops rest IH]; intros done s.
  - exists s. reflexivity.
  - cbn [serial_from map].
    destruct (exec_solo done (map idle rest) ops s) as [s1 H1].
    destruct (IH (done ++ [idle []]) s1) as [s2 H2].
    exists s2. rewrite exec_app, H1.
    rewrite length_app, Nat.add_1_r in H2.
    rewrite <- !app_assoc in H2. exact H2.
Qed.

(** The serial schedule makes every call: the hypothesis of the
    theorem above can always be met. *)
Lemma serial_finishes (s : UploadStats) (programs : list (list Op)) :
  finished (exec (serial programs) (start s programs)).
Proof.
  destruct (exec_serial programs [] s) as [s' H].
  unfold serial, start. cbn [length app] in H.
  change (map (fun ops => {| pc := Outside; todo := ops |}) programs)
    with (map idle programs).
  rewrite H. unfold finished. cbn [workers].
  apply Forall_forall. intros w Hin. apply in_map_iff in Hin.
  destruct Hin as (ops & <- & _). reflexivity.
Qed.

Lemma no_lost_update_witness :
  let programs := [[Complete 5 1; Failed]; [Failed; Complete 7 2; Complete 1 1]] in
  let schedule := concat (repeat [0; 1; 1; 0; 1]%nat 12) in
  let final := shared (exec schedule (start stats0 programs)) in
  finished (exec schedule (start stats0 programs))
  /\ batches_completed final = 3
  /\ batches_failed final = 2
  /\ vectors_uploaded final = 13.
Proof.
  cbv zeta.
  assert (Hdone : finished (exec (concat (repeat [0; 1; 1; 0; 1]%nat 12))
                    (start stats0 [[Complete 5 1; Failed];
                                   [Failed; Complete 7 2; Complete 1 1]])))
    by (vm_compute; repeat constructor).
  split; [exact Hdone|].
  apply (no_lost_update stats0
           [[Complete 5 1; Failed]; [Failed; Complete 7 2; Complete 1 1]]
           (concat (repeat [0; 1; 1; 0; 1]%nat 12)) Hdone).
Defined.

Lemma len_app_Z {A} (a b : list A) : len (a ++ b) = len a + len b.
Proof. unfold len. rewrite length_app. lia. Qed.

(** ** Mutual exclusion *)

(** In every state the workers can reach, whatever the interleaving,
    at most one worker is inside a [with self._lock] block, the lock
    is held exactly when one is, and the value a worker has read and
    is about to write back is still the value of the field: no read
    is stale. *)
Theorem lock_excludes (s : UploadStats) (programs : list (list Op))
    (schedule : list nat) :
  let st := exec schedule (start s programs) in
  (count_inside (workers st) <= 1)%nat
  /\ (locked st = true <-> count_inside (workers st) = 1%nat)
  /\ Forall (coherent (shared st)) (workers st).
Proof.
  pose proof (invariant_exec _ _ _ schedule _ (invariant_start s programs))
    as [_ _ _ Hlock Hcoh].
  cbv zeta. rewrite Hlock.
  destruct (locked (exec schedule (start s programs))).
  - repeat split; auto.
  - repeat split; auto; discriminate.
Qed.

(** ** The history of durations *)

Lemma step_worker_history s lk w s' lk' w' :
  step_worker s lk w = Some (s', lk', w') ->
  coherent s w ->
  (exists added, batch_times s' = batch_times s ++ added
                 /\ len added + owes_times w' = owes_times w)
  /\ total_vectors s' = total_vectors s
  /\ total_batches s' = total_batches s
  /\ batch_size s' = batch_size s
  /\ start_time s' = start_time s.
Proof.
  destruct w as [p ops]. unfold step_worker. cbn [todo pc].
  destruct ops as [|op rest]; [discriminate|].
  intros Hstep Hcoh.
  destruct p, op; cbn [coherent pc todo] in Hcoh; try contradiction;
    try discriminate;
    try (destruct lk; [discriminate|]);
    inversion Hstep; subst; clear Hstep;
    unfold owes_times;
    cbn [pc todo total fold_right adds_completed
         with_uploaded with_completed with_failed with_time
         batch_times total_vectors total_batches batch_size start_time];
    (split; [|repeat split]);
    try (exists []; rewrite app_nil_r; split; [reflexivity | cbn; unfold total; lia]);
    try (eexists [_]; split; [reflexivity | cbn; unfold total; lia]).
Qed.

Lemma history_step s n u c f i st :
  invariant u c f st ->
  history_invariant s n st -> history_invariant s n (step i st).
Proof.
  intros Hinv Hhist. unfold step.
  destruct (nth_error (workers st) i) as [w|] eqn:Enth; [|exact Hhist].
  destruct (step_worker (shared st) (locked st) w) as [[[s' lk'] w']|] eqn:Estep;
    [|exact Hhist].
  destruct (nth_error_split _ _ Enth) as (l1 & l2 & Hsplit & Hlen).
  destruct Hinv as [_ _ _ _ Hcoh].
  destruct Hhist as [(added & Hb & Hn) Hv Ht Hs Hst].
  rewrite Hsplit in *. subst i. rewrite update_middle.
  pose proof (Forall_elt _ _ _ Hcoh) as Hw.
  destruct (step_worker_history _ _ _ _ _ _ Estep Hw)
    as ((more & Hmore & Howes) & Sv & Sb & Ss & Sst).
  constructor; cbn [shared workers]; try congruence.
  exists (added ++ more). split.
  - now rewrite Hmore, Hb, app_assoc.
  - rewrite sum_over_app in *. cbn [sum_over fold_right] in *.
    fold (sum_over owes_times l2) in *. rewrite len_app_Z. lia.
Qed.

Lemma history_exec s n u c f schedule :
  forall st, invariant u c f st -> history_invariant s n st ->
  history_invariant s n (exec schedule st).
Proof.
  unfold exec. induction schedule as [|i rest IH]; intros st Hinv Hhist;
    [exact Hhist|].
  cbn [fold_left]. apply IH.
  - now apply invariant_step.
  - now apply (history_step s n u c f).
Qed.

Lemma history_start s programs :
  history_invariant s (total_all adds_completed programs) (start s programs).
Proof.
  constructor; cbn [start shared workers]; try reflexivity.
  exists []. rewrite app_nil_r. split; [reflexivity|].
  rewrite (owes_at_start adds_completed); [cbn; lia | reflexivity].
Qed.

(** Under any interleaving, once all the calls are made, the history
    of durations is the one the statistics started with followed by
    one duration per [record_batch_complete] call, and the fields the
    calls do not write ([total_vectors], [total_batches],
    [batch_size], [start_time]) are as they were. *)
Theorem history_complete (s : UploadStats) (programs : list (list Op))
    (schedule : list nat)
    (Hdone : finished (exec schedule (start s programs))) :
  let final := shared (exec schedule (start s programs)) in
  (exists added,
     batch_times final = batch_times s ++ added
     /\ len added = total_all adds_completed programs)
  /\ total_vectors final = total_vectors s
  /\ total_batches final = total_batches s
  /\ batch_size final = batch_size s
  /\ start_time final = start_time s.
Proof.
  pose proof (history_exec s _ _ _ _ schedule _
                (invariant_start s programs) (history_start s programs))
    as [(added & Hb & Hn) Hv Ht Hs Hst].
  cbv zeta. repeat split; try assumption.
  exists added. split; [exact Hb|].
  rewrite (finished_owes_nothing adds_completed) in Hn;
    [lia | intros p; now destruct p | exact Hdone].
Qed.

Lemma history_complete_witness :
  let programs := [[Complete 5 1; Failed]; [Failed; Complete 7 2; Complete 1 1]] in
  let schedule := concat (repeat [0; 1; 1; 0; 1]%nat 12) in
  let final := shared (exec schedule (start stats0 programs)) in
  (exists added,
     batch_times final = batch_times stats0 ++ added
     /\ len added = total_all adds_completed programs)
  /\ total_vectors final = total_vectors stats0
  /\ total_batches final = total_batches stats0
  /\ batch_size final = batch_size stats0
  /\ start_time final = start_time stats0.
Proof.
  cbv zeta.
  apply (history_complete stats0
           [[Complete 5 1; Failed]; [Failed; Complete 7 2; Complete 1 1]]
           (concat (repeat [0; 1; 1; 0; 1]%nat 12))).
  vm_compute. repeat constructor.
Defined.

End TrackerFacts.

(* ===================================================================== *)
(** * Facts on the sequential loader *)
(* ===================================================================== *)

Module IngestFacts.
Import Py Chunker Uploader Ingest PyFacts.

Lemma number_chunks_spec file pg chunks :
  forall ci,
  fst (number_chunks file pg chunks ci) = chunks
  /\ length (snd (number_chunks file pg chunks ci)) = length chunks
  /\ Forall (fun m => m_file m = file) (snd (number_chunks file pg chunks ci)).
Proof.
  induction chunks as [|c rest IH]; intros ci.
  - cbn. repeat split. constructor.
  - cbn [number_chunks]. specialize (IH (ci + 1)).
    destruct (number_chunks file pg rest (ci + 1)) as [cs ms].
    cbn [fst snd length] in *. destruct IH as (H1 & H2 & H3).
    repeat split; [now rewrite H1 | now rewrite H2 |].
    constructor; [reflexivity | exact H3].
Qed.

(** The chunker never runs out of fuel, and the two lists it fills go
    side by side. *)
Lemma chunk_pages_spec file pages :
  exists metas,
    chunk_pages file pages = Some (all_chunks_of pages, metas)
    /\ length metas = length (all_chunks_of pages)
    /\ Forall (fun m => m_file m = file) metas.
Proof.
  induction pages as [|p rest IH].
  - exists []. repeat split. constructor.
  - destruct IH as (ms' & Hrest & Hlen & Hfile).
    cbn [chunk_pages all_chunks_of].
    destruct (ChunkerFacts.make_chunks_returns (page_text p)) as [chunks Hc].
    rewrite Hc.
    destruct (number_chunks_spec file (page p) chunks 0) as (H1 & H2 & H3).
    destruct (number_chunks file (page p) chunks 0) as [cs ms].
    cbn [fst snd] in *. subst cs. rewrite Hrest.
    exists (ms ++ ms'). repeat split.
    + rewrite !length_app. lia.
    + apply Forall_app. now split.
Qed.

(** What the calls of the client leave, whether the loop ends or a
    call raises. *)
Lemma upload_all_spec sdk tokens items :
  forall d,
  match upload_all sdk tokens items d with
  | Done d' =>
      exists calls,
        upserts d' = upserts d ++ calls
        /\ map up_text calls = map fst items
        /\ rows d' = rows d /\ now d' = now d
  | Aborted _ d' =>
      exists calls,
        upserts d' = upserts d ++ calls
        /\ (length calls < length items)%nat
        /\ map up_text calls = firstn (length calls) (map fst items)
        /\ rows d' = rows d /\ now d' = now d
  | Stuck => False
  end.
Proof.
  induction items as [|[chunk meta] rest IH]; intros d.
  - cbn. exists []. rewrite app_nil_r. repeat split.
  - cbn [upload_all].
    destruct (sdk (drawn d) _) as [exc|].
    + exists []. cbn. rewrite app_nil_r. repeat split. lia.
    + match goal with
      | |- match upload_all _ _ _ ?d1 with _ => _ end =>
          specialize (IH d1); destruct (upload_all sdk tokens rest d1)
            as [d'|exc d'|]
      end; [| |exact IH].
      * destruct IH as (calls & Hu & Ht & Hr & Hn).
        cbn [upserts rows now] in *.
        eexists (_ :: calls). rewrite Hu, <- app_assoc.
        repeat split; try assumption. cbn [map fst up_text]. now rewrite Ht.
      * destruct IH as (calls & Hu & Hl & Ht & Hr & Hn).
        cbn [upserts rows now] in *.
        eexists (_ :: calls). rewrite Hu, <- app_assoc.
        repeat split; try assumption; cbn [length]; try lia.
        cbn [map fst up_text firstn]. now rewrite Ht.
Qed.

(** A call that raises ends the loop at once. *)
Lemma upload_all_first_failure sdk tokens exc items :
  forall d j,
  (j < length items)%nat ->
  (forall i call, (i < j)%nat -> sdk (drawn d + i)%nat call = None) ->
  (forall call, sdk (drawn d + j)%nat call = Some exc) ->
  exists d' calls,
    upload_all sdk tokens items d = Aborted exc d'
    /\ upserts d' = upserts d ++ calls
    /\ length calls = j
    /\ map up_text calls = firstn j (map fst items)
    /\ rows d' = rows d.
Proof.
  induction items as [|[chunk meta] rest IH]; intros d j Hj Hok Hfail;
    [cbn in Hj; lia|].
  cbn [upload_all]. destruct j as [|j].
  - rewrite Nat.add_0_r in Hfail. rewrite Hfail.
    eexists _, []. cbn. rewrite app_nil_r. repeat split.
  - pose proof (Hok 0%nat) as H0. rewrite Nat.add_0_r in H0.
    rewrite H0 by lia.
    match goal with
    | |- exists _ _, upload_all _ _ _ ?d1 = _ /\ _ =>
        destruct (IH d1 j) as (d' & calls & Hrun & Hu & Hl & Ht & Hr)
    end.
    + cbn [length] in Hj. lia.
    + intros i call Hi. cbn [drawn].
      replace (S (drawn d) + i)%nat with (drawn d + S i)%nat by lia.
      apply Hok. lia.
    + intros call. cbn [drawn].
      replace (S (drawn d) + j)%nat with (drawn d + S j)%nat by lia.
      apply Hfail.
    + cbn [upserts rows] in *.
      eexists d', (_ :: calls). split; [exact Hrun|].
      rewrite Hu, <- app_assoc.
      repeat split; try assumption; cbn [length map fst up_text firstn];
        [lia | now rewrite Ht].
Qed.

Lemma map_fst_combine_same {A B} (a : list A) (b : list B) :
  length b = length a -> map fst (combine a b) = a.
Proof.
  revert b. induction a as [|x a IH]; intros [|y b] H; try discriminate;
    [reflexivity|].
  cbn [combine map fst]. rewrite IH; [reflexivity|]. cbn in H. lia.
Qed.

Lemma rows_of_update_same file count d :
  rows_of file (update_manifest file count d)
  = rows_of file d ++ [{| row_chunks := count; row_timestamp := now d |}].
Proof.
  unfold rows_of, update_manifest. cbn [rows].
  rewrite UploaderFacts.dict_get_append_same. now destruct (rows d).
Qed.

Lemma rows_of_update_other file count d other :
  other <> file ->
  rows_of other (update_manifest file count d) = rows_of other d.
Proof.
  intros H. unfold rows_of, update_manifest. cbn [rows].
  rewrite UploaderFacts.dict_get_append_other by assumption.
  now destruct (rows d).
Qed.

(** [process_pdf] writes the manifest only after every chunk of the
    file was upserted. When it returns, the calls it made carry the
    chunks of all the pages in order, and, unless the file had no
    text, the file got one new manifest row after those it had, with
    the number of calls as its chunk count, the rows of the other
    files being untouched. When an exception leaves it, the manifest
    is as it was, whatever was already upserted. The chunker never
    runs out of fuel. *)
Theorem process_pdf_manifest (sdk : Sdk) (tokens : Tokens) (raw_name : str)
    (doc : str + list (option str)) (d : Disk) :
  match process_pdf sdk tokens raw_name doc d with
  | Done d' =>
      exists raw calls,
        doc = inr raw
        /\ upserts d' = upserts d ++ calls
        /\ map up_text calls = all_chunks_of (extract_pages raw 1)
        /\ (extract_pages raw 1 = [] -> d' = d)
        /\ (extract_pages raw 1 <> [] ->
            rows_of raw_name d'
            = rows_of raw_name d
              ++ [{| row_chunks := len calls; row_timestamp := now d |}]
            /\ forall other, other <> raw_name ->
                 rows_of other d' = rows_of other d)
  | Aborted _ d' =>
      rows d' = rows d /\ exists calls, upserts d' = upserts d ++ calls
  | Stuck => False
  end.
Proof.
  unfold process_pdf. destruct doc as [exc|raw].
  { split; [reflexivity|]. exists []. now rewrite app_nil_r. }
  destruct (extract_pages raw 1) as [|p ps] eqn:Ep.
  { exists raw, []. rewrite app_nil_r, ?Ep.
    split; [reflexivity|]. split; [reflexivity|]. split; [reflexivity|].
    split; [reflexivity|]. intros H. now elim H. }
  destruct (chunk_pages_spec (sanitize_id raw_name) (p :: ps))
    as (metas & Hcp & Hlen & _).
  rewrite Hcp.
  pose proof (upload_all_spec sdk tokens
                (combine (all_chunks_of (p :: ps)) metas) d) as Hup.
  rewrite (map_fst_combine_same _ _ Hlen) in Hup.
  destruct (upload_all sdk tokens (combine (all_chunks_of (p :: ps)) metas) d)
    as [d'|exc d'|]; [| |exact Hup].
  - destruct Hup as (calls & Hu & Ht & Hr & Hn).
    exists raw, calls. rewrite ?Ep. split; [reflexivity|].
    split; [exact Hu|]. split; [exact Ht|]. split; [discriminate|].
    intros _.
    assert (Hcount : len (all_chunks_of (p :: ps)) = len calls).
    { unfold len. rewrite <- Ht, length_map. reflexivity. }
    rewrite Hcount. split.
    + rewrite rows_of_update_same, Hn. unfold rows_of. now rewrite Hr.
    + intros other Hne. rewrite rows_of_update_other by assumption.
      unfold rows_of. now rewrite Hr.
  - destruct Hup as (calls & Hu & _ & _ & Hr & _).
    split; [exact Hr|]. now exists calls.
Qed.

Lemma process_pdf_manifest_witness :
  exists d' calls,
    process_pdf reliable (fun n => str_of_Z (Z.of_nat n)) (lit "a.pdf")
      (inr [Some (lit "one two"); Some (lit "three")]) disk0 = Done d'
    /\ upserts d' = upserts disk0 ++ calls
    /\ map up_text calls = [lit "one two"; lit "three"]
    /\ rows_of (lit "a.pdf") d'
       = rows_of (lit "a.pdf") disk0
         ++ [{| row_chunks := len calls; row_timestamp := now disk0 |}].
Proof.
  pose proof (process_pdf_manifest reliable (fun n => str_of_Z (Z.of_nat n))
                (lit "a.pdf") (inr [Some (lit "one two"); Some (lit "three")])
                disk0) as H.
  destruct (process_pdf reliable (fun n => str_of_Z (Z.of_nat n)) (lit "a.pdf")
              (inr [Some (lit "one two"); Some (lit "three")]) disk0)
    as [d'|exc d'|] eqn:E.
  - destruct H as (raw & calls & Hdoc & Hu & Ht & _ & Hrows).
    inversion Hdoc; subst raw.
    exists d', calls. split; [reflexivity|]. split; [exact Hu|].
    split; [exact Ht|].
    apply Hrows. vm_compute. discriminate.
  - vm_compute in E. discriminate.
  - destruct H.
Defined.

(** The first call of the client that raises ends [process_pdf]: the
    chunks before it were upserted, in order, the others are not
    tried, and the manifest is not written. *)
Theorem process_pdf_stops_at_first_failure (sdk : Sdk) (tokens : Tokens)
    (raw_name : str) (raw : list (option str)) (d : Disk)
    (j : nat) (exc : str)
    (Hj : (j < length (all_chunks_of (extract_pages raw 1)))%nat)
    (Hok : forall i call, (i < j)%nat -> sdk (drawn d + i)%nat call = None)
    (Hfail : forall call, sdk (drawn d + j)%nat call = Some exc) :
  exists d' calls,
    process_pdf sdk tokens raw_name (inr raw) d = Aborted exc d'
    /\ upserts d' = upserts d ++ calls
    /\ length calls = j
    /\ map up_text calls = firstn j (all_chunks_of (extract_pages raw 1))
    /\ rows d' = rows d.
Proof.
  unfold process_pdf.
  destruct (extract_pages raw 1) as [|p ps] eqn:Ep; [cbn in Hj; lia|].
  destruct (chunk_pages_spec (sanitize_id raw_name) (p :: ps))
    as (metas & Hcp & Hlen & _).
  rewrite Hcp.
  destruct (upload_all_first_failure sdk tokens exc
              (combine (all_chunks_of (p :: ps)) metas) d j)
    as (d' & calls & Hrun & Hu & Hl & Ht & Hr); try assumption.
  { rewrite length_combine, Hlen. lia. }
  rewrite (map_fst_combine_same _ _ Hlen) in Ht.
  rewrite Hrun. now exists d', calls.
Qed.

Lemma process_pdf_stops_at_first_failure_witness :
  exists d' calls,
    process_pdf (failing_from 1) (fun n => str_of_Z (Z.of_nat n)) (lit "a.pdf")
      (inr [Some (lit "one two"); Some (lit "three")]) disk0
    = Aborted (lit "Connection refused") d'
    /\ upserts d' = upserts disk0 ++ calls
    /\ length calls = 1%nat
    /\ map up_text calls
       = firstn 1 (all_chunks_of
                     (extract_pages [Some (lit "one two"); Some (lit "three")] 1))
    /\ rows d' = rows disk0.
Proof.
  apply (process_pdf_stops_at_first_failure (failing_from 1)
           (fun n => str_of_Z (Z.of_nat n)) (lit "a.pdf")
           [Some (lit "one two"); Some (lit "three")] disk0 1
           (lit "Connection refused")).
  - vm_compute. lia.
  - intros i call Hi. destruct i; [reflexivity | lia].
  - intros call. reflexivity.
Defined.

Lemma upload_all_reliable sdk tokens items :
  (forall n call, sdk n call = None) ->
  forall d, exists d', upload_all sdk tokens items d = Done d'.
Proof.
  intros Hok. induction items as [|[chunk meta] rest IH]; intros d.
  - now eexists.
  - cbn [upload_all]. rewrite Hok. apply IH.
Qed.

(** With a client that never raises, [process_pdf] returns for every
    file that can be read, having upserted the chunks of all its
    pages in order. *)
Theorem process_pdf_completes (sdk : Sdk) (tokens : Tokens) (raw_name : str)
    (raw : list (option str)) (d : Disk)
    (Hok : forall n call, sdk n call = None) :
  exists d' calls,
    process_pdf sdk tokens raw_name (inr raw) d = Done d'
    /\ upserts d' = upserts d ++ calls
    /\ map up_text calls = all_chunks_of (extract_pages raw 1)
    /\ Forall (fun c => up_file c = sanitize_id raw_name
                        /\ up_model c = EMBED_MODEL
                        /\ forallb id_char (up_id c) = true) calls.
Proof.
  unfold process_pdf.
  destruct (extract_pages raw 1) as [|p ps] eqn:Ep.
  { exists d, []. rewrite app_nil_r. repeat split. constructor. }
  destruct (chunk_pages_spec (sanitize_id raw_name) (p :: ps))
    as (metas & Hcp & Hlen & Hfile).
  rewrite Hcp.
  assert (Hcalls : forall items d0,
    Forall (fun it => m_file (snd it) = sanitize_id raw_name) items ->
    exists d1 calls,
      upload_all sdk tokens items d0 = Done d1
      /\ upserts d1 = upserts d0 ++ calls
      /\ map up_text calls = map fst items
      /\ Forall (fun c => up_file c = sanitize_id raw_name
                          /\ up_model c = EMBED_MODEL
                          /\ forallb id_char (up_id c) = true) calls).
  { induction items as [|[chunk meta] rest IH]; intros d0 Hall.
    - exists d0, []. rewrite app_nil_r. repeat split. constructor.
    - inversion Hall as [|? ? Hm Hrest]; subst. cbn [snd] in Hm.
      cbn [upload_all]. rewrite Hok.
      match goal with
      | |- exists _ _, upload_all _ _ _ ?d1 = _ /\ _ =>
          destruct (IH d1 Hrest) as (d2 & calls & Hrun & Hu & Ht & Hc)
      end.
      cbn [upserts] in Hu.
      eexists d2, (_ :: calls). split; [exact Hrun|].
      rewrite Hu, <- app_assoc. split; [reflexivity|].
      split; [cbn [map fst up_text]; now rewrite Ht|].
      constructor; [|exact Hc].
      cbn [up_file up_model up_id]. repeat split; [exact Hm|].
      apply ChunkerFacts.sanitize_id_class. }
  destruct (Hcalls (combine (all_chunks_of (p :: ps)) metas) d)
    as (d1 & calls & Hrun & Hu & Ht & Hc).
  { apply Forall_forall. intros [c m] Hin. apply in_combine_r in Hin.
    rewrite Forall_forall in Hfile. now apply Hfile. }
  rewrite (map_fst_combine_same _ _ Hlen) in Ht.
  rewrite Hrun. eexists _, calls. split; [reflexivity|].
  cbn [update_manifest upserts]. now repeat split.
Qed.

Lemma process_pdf_completes_witness :
  exists d' calls,
    process_pdf reliable (fun n => str_of_Z (Z.of_nat n)) (lit "my a.pdf")
      (inr [Some (lit "one two"); Some (lit "three")]) disk0 = Done d'
    /\ upserts d' = upserts disk0 ++ calls
    /\ map up_text calls
       = all_chunks_of (extract_pages [Some (lit "one two"); Some (lit "three")] 1)
    /\ Forall (fun c => up_file c = sanitize_id (lit "my a.pdf")
                        /\ up_model c = EMBED_MODEL
                        /\ forallb id_char (up_id c) = true) calls.
Proof.
  apply (process_pdf_completes reliable (fun n => str_of_Z (Z.of_nat n))
           (lit "my a.pdf") [Some (lit "one two"); Some (lit "three")] disk0).
  intros n call. reflexivity.
Defined.

(** The identifier of a record is the sanitized file name, the page,
    the chunk index and the token, joined as written: when the token
    is made of characters of [[a-zA-Z0-9_-]], as a hexadecimal token
    is, sanitizing the whole string changes nothing. *)
Theorem vector_id_plain (raw_name : str) (pg ci : Z) (token : str)
    (Htoken : forallb id_char token = true) :
  vector_id {| m_file := sanitize_id raw_name; m_page := pg; m_chunk := ci |} token
  = sanitize_id raw_name ++ lit "_p" ++ str_of_Z pg ++ lit "_c"
    ++ str_of_Z ci ++ lit "_" ++ token.
Proof.
  unfold vector_id. cbn [m_file m_page m_chunk].
  apply ChunkerFacts.sanitize_id_fixed.
  repeat apply UploaderFacts.forallb_app_true; try reflexivity;
    auto using ChunkerFacts.sanitize_id_class, UploaderFacts.str_of_Z_id_chars.
Qed.

Lemma vector_id_plain_witness :
  vector_id {| m_file := sanitize_id (lit "my a.pdf"); m_page := 3; m_chunk := 0 |}
    (lit "9f1c")
  = lit "my_a_pdf_p3_c0_9f1c".
Proof.
  apply (vector_id_plain (lit "my a.pdf") 3 0 (lit "9f1c")).
  reflexivity.
Defined.

End IngestFacts.
